(** * Fuzzy wall detector: geometric reconstruction pipeline

    A shallow embedding of [src/services/fuzzy-wall-detector.py]
    (class [FuzzyWallDetector]) and the properties of its stages.

    Conventions of the embedding:
    - Python floats are idealised as real numbers ([R]); pixel
      coordinates of walls are Python ints ([Z]).  The coordinates of a
      Hough line are NumPy [int32] scalars: the arithmetic of the
      candidate loop on them wraps around ([int32]), and the square
      root of a negative number is [nan].
    - Python dicts with a fixed set of keys (walls, openings) are
      records; the result dict of the entry point and the class
      namespace are finite maps keyed by strings.
    - OpenCV and NumPy image operations (decoding, Canny, Hough
      transforms, contour extraction, region statistics) are outside the
      repository: they enter the model through the interface [OpenCV],
      together with the few detector methods that only sample pixels.
    - [try]/[except] is an explicit [outcome] type.

    Part I holds the definitions: the program, in the order of the
    pipeline, then the vocabulary of the properties and the concrete
    inputs of the examples, then the pixel-sampling methods of the
    detector ([Sampling], [Swings]) and the environment in which they
    take the place of the corresponding fields of [OpenCV].  Part II
    holds the lemmas and theorems on the stages of the pipeline, Part
    III further properties of the detector. *)

From Stdlib Require Import Reals Lra Lia ZArith List Bool Permutation Sorted.
From stdpp Require Import base gmap strings.
Import ListNotations.

Open Scope R_scope.

(** * Part I: definitions *)

(** ** Numeric layer *)

Module Num.

(** Python comparison operators on floats, as booleans. *)
Definition Rltb (x y : R) : bool := if Rlt_dec x y then true else false.
Definition Rleb (x y : R) : bool := if Rle_dec x y then true else false.
Definition Reqb (x y : R) : bool := if Req_dec_T x y then true else false.

(** Python [int(x)] on a float: truncation toward zero. *)
Definition py_int (x : R) : Z :=
  if Rlt_dec x 0 then Z.opp (Int_part (- x)) else Int_part x.

(** [min(max(x, lo), hi)], the clamp idiom of the source. *)
Definition clamp (lo hi x : R) : R := Rmin (Rmax x lo) hi.

(** NumPy [int32] arithmetic: the result of an operation on [int32]
    scalars is reduced into [-2^31, 2^31) (two's complement). *)
Definition int32 (z : Z) : Z :=
  ((z + 2147483648) mod 4294967296 - 2147483648)%Z.

(** [np.arctan2(y, x)], in radians. *)
Definition arctan2 (y x : R) : R :=
  if Rlt_dec 0 x then atan (y / x)
  else if Rlt_dec x 0 then
    (if Rle_dec 0 y then atan (y / x) + PI else atan (y / x) - PI)
  else if Rlt_dec 0 y then PI / 2
  else if Rlt_dec y 0 then - PI / 2
  else 0.

(** Python's [max(seq)] on a non-empty list: the first maximal element. *)
Definition list_max_from (first : R) (rest : list R) : R :=
  fold_left (fun best x => if Rltb best x then x else best) rest first.

(** Python's [list.sort(key=..., reverse=True)]: a stable sort into
    descending key order (equal keys keep their original order). *)
Fixpoint insert_desc {A : Type} (key : A -> R) (x : A) (l : list A) : list A :=
  match l with
  | [] => [x]
  | y :: l' => if Rltb (key x) (key y) then y :: insert_desc key x l' else x :: y :: l'
  end.

Definition sort_desc {A : Type} (key : A -> R) (l : list A) : list A :=
  fold_right (insert_desc key) [] l.

(** [enumerate(l, start)]. *)
Fixpoint enumerate_from {A : Type} (start : nat) (l : list A) : list (nat * A) :=
  match l with
  | [] => []
  | x :: l' => (start, x) :: enumerate_from (S start) l'
  end.

(** Membership in a Python [set] of indices. *)
Definition mem (i : nat) (used : list nat) : bool := existsb (Nat.eqb i) used.

End Num.
Import Num.

(** ** Data model *)

Inductive Orientation : Type := horizontal | vertical | diagonal.

Inductive Source : Type := fuzzy_canny | consolidated.

(** A wall dict.  ['structural_score'] is absent until the scorer sets
    it. *)
Record Wall : Type := mkWall {
  wall_start : Z * Z;
  wall_end : Z * Z;
  wall_length : R;
  wall_angle : R;
  wall_type : Orientation;
  wall_confidence : R;
  wall_is_sketchy : bool;
  wall_thickness : R;
  wall_source : Source;
  wall_structural_score : option R
}.

(** [wall.get('structural_score', 0)]. *)
Definition get_structural_score (w : Wall) : R :=
  match wall_structural_score w with Some s => s | None => 0 end.

(** The grayscale buffer: [shape = (height, width)] and [gray_img[y, x]]. *)
Record Image : Type := mkImage {
  img_height : Z;
  img_width : Z;
  pixel : Z -> Z -> Z
}.

Inductive OpeningType : Type :=
| ty_opening | ty_swing | ty_swing_curve | ty_symbol
| ty_dark_rectangle | ty_wall_break | ty_parallel_lines | ty_wide_opening.

(** A door, window or arch dict.  Keys that a given detector does not
    set are [None]; [op_walls] holds the back-references (['wall1'],
    ['wall2'] or ['wall']). *)
Record Opening : Type := mkOpening {
  op_type : OpeningType;
  op_position : R * R;
  op_width : option R;
  op_height : option R;
  op_radius : option R;
  op_confidence : R;
  op_swing : option string;
  op_walls : list Wall
}.

(** A contour as the detectors use it: [cv2.contourArea] and
    [cv2.boundingRect]. *)
Record Contour : Type := mkContour {
  contour_area : R;
  contour_rect : Z * Z * Z * Z
}.

(** Result of a computation that may raise. *)
Inductive outcome (A : Type) : Type :=
| Returned (a : A)
| Raised (msg : string).
Arguments Returned {A} a.
Arguments Raised {A} msg.

(** The image operations behind the detector.  The first group are calls
    into OpenCV and NumPy.  The last three fields are methods of the
    detector itself ([find_door_swings], [has_window_break_pattern],
    [has_window_pattern_at_point]) whose bodies are pixel sampling and
    circle fitting; no property below depends on what they compute, so
    they are taken as given. *)
Class OpenCV : Type := {
  (** [cv2.imread] followed by the grayscale conversion; [None] when the
      file cannot be read. *)
  imread_gray : string -> option Image;
  (** [np.std(gray)]. *)
  np_std : Image -> R;
  (** The three Canny maps, their union, the morphological closing and
      [cv2.HoughLinesP] with the given threshold, minLineLength and
      maxLineGap; [None] when no line is found. *)
  HoughLinesP : Image -> Z -> Z -> Z -> outcome (option (list (Z * Z * Z * Z)));
  (** Number of non-zero pixels of [cv2.Canny(gray[y1:y2, x1:x2], 50, 150)]. *)
  canny_edge_count : Image -> Z -> Z -> Z -> Z -> outcome Z;
  (** [np.mean(gray[y1:y2, x1:x2])]. *)
  region_mean : Image -> Z -> Z -> Z -> Z -> R;
  (** External contours of the Otsu-thresholded image and of its inverse. *)
  otsu_contours : Image -> list Contour;
  otsu_inv_contours : Image -> list Contour;
  (** [find_door_swings]: swing arcs from [cv2.HoughCircles] and from
      contour fitting. *)
  find_door_swings : Image -> list Opening;
  (** The intensity-profile tests along a wall. *)
  has_window_break_pattern : Z -> Z -> Wall -> Image -> bool;
  has_window_pattern_at_point : Z -> Z -> Wall -> Image -> bool
}.

(** ** AngleClassifier *)

Module Angle.

Definition horizontal_deviation (angle : R) : R :=
  Rmin (Rabs angle) (Rabs (Rabs angle - 180)).

Definition vertical_deviation (angle : R) : R :=
  Rabs (Rabs angle - 90).

Definition diagonal_deviation (angle : R) : R :=
  Rmin (Rabs (Rabs angle - 45)) (Rabs (Rabs angle - 135)).

(** [classify_angle_fuzzy]: the three band predicates and the
    confidence, in the order the source returns them. *)
Definition classify_angle_fuzzy (angle : R) : bool * bool * bool * R :=
  let is_horizontal := Rltb (Rabs angle) 15 || Rltb 165 (Rabs angle) in
  let is_vertical := Rltb 75 (Rabs angle) && Rltb (Rabs angle) 105 in
  let is_diagonal :=
    (Rltb 35 (Rabs angle) && Rltb (Rabs angle) 55)
    || (Rltb 125 (Rabs angle) && Rltb (Rabs angle) 145) in
  let confidence :=
    if is_horizontal then Rmax 0.5 (1.0 - horizontal_deviation angle / 15.0)
    else if is_vertical then Rmax 0.5 (1.0 - vertical_deviation angle / 15.0)
    else if is_diagonal then Rmax 0.4 (1.0 - diagonal_deviation angle / 20.0)
    else 1.0 in
  (is_horizontal, is_vertical, is_diagonal, confidence).

Definition is_horizontal (angle : R) : bool := fst (fst (fst (classify_angle_fuzzy angle))).
Definition is_vertical (angle : R) : bool := snd (fst (fst (classify_angle_fuzzy angle))).
Definition is_diagonal (angle : R) : bool := snd (fst (classify_angle_fuzzy angle)).
Definition angle_confidence (angle : R) : R := snd (classify_angle_fuzzy angle).

(** The confidence profile as the specification words it: linear from
    1.0 at the band centre down to [floor] at the band edge, which lies
    [half_width] degrees from the centre. *)
Definition spec_linear_confidence (floor half_width deviation : R) : R :=
  1 - (1 - floor) * deviation / half_width.

Definition spec_angle_confidence (angle : R) : R :=
  if is_horizontal angle then spec_linear_confidence 0.5 15 (horizontal_deviation angle)
  else if is_vertical angle then spec_linear_confidence 0.5 15 (vertical_deviation angle)
  else if is_diagonal angle then spec_linear_confidence 0.4 10 (diagonal_deviation angle)
  else 1.

(** Number of orientation predicates that hold for an angle. *)
Definition orientation_count (angle : R) : nat :=
  (if is_horizontal angle then 1 else 0)
  + (if is_vertical angle then 1 else 0)
  + (if is_diagonal angle then 1 else 0).

End Angle.
Import Angle.

(** ** Candidate walls (step 1 of [detect_walls_fuzzy]) *)

Module Candidates.

(** The sampling loop of [estimate_thickness]: the first offset whose
    in-bounds sample is brighter than 200 sets [thickness = offset * 2]. *)
Fixpoint sample_offsets (gray : Image) (mid_x mid_y : Z) (perp_dx perp_dy : R)
  (offsets : list nat) (thickness : R) : R :=
  match offsets with
  | [] => thickness
  | offset :: rest =>
      let sample_x := py_int (IZR mid_x + INR offset * perp_dx) in
      let sample_y := py_int (IZR mid_y + INR offset * perp_dy) in
      if ((0 <=? sample_x)%Z && (sample_x <? img_width gray)%Z
          && (0 <=? sample_y)%Z && (sample_y <? img_height gray)%Z)
      then
        if (200 <? pixel gray sample_y sample_x)%Z
        then INR offset * 2
        else sample_offsets gray mid_x mid_y perp_dx perp_dy rest thickness
      else sample_offsets gray mid_x mid_y perp_dx perp_dy rest thickness
  end.

(** [(x2 - x1)**2 + (y2 - y1)**2] on the [int32] coordinates of a Hough
    line (the rows of [cv2.HoughLinesP] are [int32]): every operation
    wraps around, so the sum can be negative or differ from the squared
    Euclidean length for lines of 46341 px or more. *)
Definition squared_length (x1 y1 x2 y2 : Z) : Z :=
  int32 (int32 (int32 (x2 - x1) ^ 2) + int32 (int32 (y2 - y1) ^ 2)).

(** [np.sqrt] of a negative [squared_length] is [nan]: [length == 0] is
    then false, [int(...)] of the first sample raises, and the [except]
    clause sets the thickness to 6.0. *)
Definition estimate_thickness (x1 y1 x2 y2 : Z) (gray : Image) : R :=
  let squared := squared_length x1 y1 x2 y2 in
  if (squared <? 0)%Z then clamp 3 25 6.0
  else
    let length := sqrt (IZR squared) in
    if Reqb length 0 then 6.0
    else
      let dx := IZR (int32 (x2 - x1)) / length in
      let dy := IZR (int32 (y2 - y1)) / length in
      let perp_dx := - dy in
      let perp_dy := dx in
      let mid_x := (int32 (x1 + x2) / 2)%Z in
      let mid_y := (int32 (y1 + y2) / 2)%Z in
      let thickness := sample_offsets gray mid_x mid_y perp_dx perp_dy (seq 3 17) 6.0 in
      clamp 3 25 thickness.

(** One iteration of the loop over the Hough lines.  With a [nan]
    length the test [length > 100] is false and the line is dropped. *)
Definition candidate_of_line (gray : Image) (line : Z * Z * Z * Z) : list Wall :=
  let '(x1, y1, x2, y2) := line in
  let squared := squared_length x1 y1 x2 y2 in
  let length := sqrt (IZR squared) in
  let angle := arctan2 (IZR (int32 (y2 - y1))) (IZR (int32 (x2 - x1))) * 180 / PI in
  let '(is_h, is_v, is_d, confidence) := classify_angle_fuzzy angle in
  if (is_h || is_v || is_d) && ((0 <=? squared)%Z && Rltb 100 length) then
    let wall_type := if is_h then horizontal else if is_v then vertical else diagonal in
    let thickness := estimate_thickness x1 y1 x2 y2 gray in
    [ mkWall (x1, y1) (x2, y2) length angle wall_type confidence
             (Rltb confidence 0.8) thickness fuzzy_canny None ]
  else [].

Definition candidate_walls (gray : Image) (lines : list (Z * Z * Z * Z)) : list Wall :=
  flat_map (candidate_of_line gray) lines.

End Candidates.
Import Candidates.

(** ** LineGrouper *)

Module Grouper.

(** [line_to_line_distance]: distance between the midpoints. *)
Definition line_to_line_distance (line1 line2 : Wall) : R :=
  let mid1_x := IZR (fst (wall_start line1) + fst (wall_end line1)) / 2 in
  let mid1_y := IZR (snd (wall_start line1) + snd (wall_end line1)) / 2 in
  let mid2_x := IZR (fst (wall_start line2) + fst (wall_end line2)) / 2 in
  let mid2_y := IZR (snd (wall_start line2) + snd (wall_end line2)) / 2 in
  sqrt ((mid2_x - mid1_x) ^ 2 + (mid2_y - mid1_y) ^ 2).

(** The angle difference after the wraparound step. *)
Definition wrapped_angle_diff (line1 line2 : Wall) : R :=
  let angle_diff := Rabs (wall_angle line1 - wall_angle line2) in
  if Rltb 180 angle_diff then 360 - angle_diff else angle_diff.

(** The scale-adaptive distance threshold. *)
Definition max_thickness (line1 line2 : Wall) : R :=
  let avg_length := (wall_length line1 + wall_length line2) / 2 in
  if Rltb 500 avg_length then 50
  else if Rltb 200 avg_length then 30
  else 15.

Definition are_parallel_and_close (line1 line2 : Wall) : bool :=
  let angle_diff := wrapped_angle_diff line1 line2 in
  if Rltb 15 angle_diff then false
  else
    let distance := line_to_line_distance line1 line2 in
    Rltb 1 distance && Rltb distance (max_thickness line1 line2).

(** The predicate as the specification words it: angle difference with
    wraparound within 15 degrees, and midpoint distance below the
    scale-adaptive threshold. *)
Definition spec_parallel_and_close (line1 line2 : Wall) : bool :=
  Rleb (wrapped_angle_diff line1 line2) 15
  && Rltb (line_to_line_distance line1 line2) (max_thickness line1 line2).

(** State of the grouping loops: the group under construction, the set
    [used] of indices and the flag [added_to_group]. *)
Record GroupState : Type := mkGroupState {
  gs_group : list Wall;
  gs_used : list nat;
  gs_added : bool
}.

(** [for j, candidate_line in enumerate(lines)]: absorb every unused
    line that is parallel and close to [existing_line]. *)
Fixpoint absorb_candidates (existing_line : Wall) (candidates : list (nat * Wall))
  (st : GroupState) : GroupState :=
  match candidates with
  | [] => st
  | (j, candidate_line) :: rest =>
      if mem j (gs_used st) then absorb_candidates existing_line rest st
      else if are_parallel_and_close existing_line candidate_line then
        absorb_candidates existing_line rest
          (mkGroupState (gs_group st ++ [candidate_line]) (j :: gs_used st) true)
      else absorb_candidates existing_line rest st
  end.

(** [for existing_line in group]: the group grows while it is iterated,
    so the loop also visits the lines it appends.  [k] is the position
    of the iterator.  The loops below recurse on a fuel argument; the
    fuel they are given is never used up ([group_parallel_lines_run]). *)
Fixpoint scan_group (fuel : nat) (lines : list Wall) (k : nat) (st : GroupState)
  : GroupState :=
  match fuel with
  | O => st
  | S fuel' =>
      match nth_error (gs_group st) k with
      | None => st
      | Some existing_line =>
          scan_group fuel' lines (S k)
            (absorb_candidates existing_line (enumerate_from 0 lines) st)
      end
  end.

(** [while added_to_group]. *)
Fixpoint grow_group (fuel : nat) (lines : list Wall) (group : list Wall)
  (used : list nat) : list Wall * list nat :=
  match fuel with
  | O => (group, used)
  | S fuel' =>
      let st := scan_group (S (length lines)) lines 0 (mkGroupState group used false) in
      if gs_added st then grow_group fuel' lines (gs_group st) (gs_used st)
      else (gs_group st, gs_used st)
  end.

(** The outer loop [for i, line1 in enumerate(lines)]. *)
Fixpoint group_from (lines : list Wall) (todo : list (nat * Wall)) (used : list nat)
  : list (list Wall) :=
  match todo with
  | [] => []
  | (i, line1) :: rest =>
      if mem i used then group_from lines rest used
      else
        let '(group, used') := grow_group (S (length lines)) lines [line1] (i :: used) in
        match group with
        | [] => group_from lines rest used'
        | _ :: _ => group :: group_from lines rest used'
        end
  end.

Definition group_parallel_lines (lines : list Wall) : list (list Wall) :=
  group_from lines (enumerate_from 0 lines) [].

End Grouper.
Import Grouper.

(** ** SegmentConsolidator *)

Module Consolidator.

(** Distances of all pairs [i < j], in the order of the two loops. *)
Fixpoint pairwise_distances (line_group : list Wall) : list R :=
  match line_group with
  | [] => []
  | line_i :: rest =>
      map (line_to_line_distance line_i) rest ++ pairwise_distances rest
  end.

Definition calculate_group_thickness (line_group : list Wall) : R :=
  if (length line_group <? 2)%nat then 6.0
  else
    match pairwise_distances line_group with
    | d :: ds => clamp 4 25 (list_max_from d ds)
    | [] => 6.0
    end.

(** [max(line_group, key=lambda l: l['length'])]: the first longest. *)
Definition longest_from (first : Wall) (rest : list Wall) : Wall :=
  fold_left (fun best l => if Rltb (wall_length best) (wall_length l) then l else best)
            rest first.

Definition merge_collinear_segments (line_group : list Wall) : list Wall :=
  match line_group with
  | [] => []
  | first :: rest =>
      if (1 <? length line_group)%nat then
        let main_line := longest_from first rest in
        let thickness := calculate_group_thickness line_group in
        [ mkWall (wall_start main_line) (wall_end main_line)
                 (wall_length main_line) (wall_angle main_line) (wall_type main_line)
                 (Rmin 1.0 (wall_confidence main_line * 1.2))
                 false thickness consolidated None ]
      else line_group
  end.

Definition calculate_wall_thickness_from_groups (walls : list Wall) : list Wall :=
  walls.

End Consolidator.
Import Consolidator.

(** ** StructuralScorer *)

Module Scorer.

Definition edge_threshold : Z := 50.

Definition is_perimeter_wall (wall : Wall) : bool :=
  let '(start_x, start_y) := wall_start wall in
  let '(end_x, end_y) := wall_end wall in
  let near_edge :=
    (start_x <? edge_threshold)%Z || (end_x <? edge_threshold)%Z
    || (start_y <? edge_threshold)%Z || (end_y <? edge_threshold)%Z in
  near_edge && Rltb 200 (wall_length wall).

Definition length_points (length : R) : R :=
  if Rltb 300 length then 0.4
  else if Rltb 150 length then 0.3
  else if Rltb 100 length then 0.2
  else if Rltb 50 length then 0.1
  else 0.

Definition thickness_points (thickness : R) : R :=
  if Rltb 15 thickness then 0.2
  else if Rltb 8 thickness then 0.15
  else if Rltb 4 thickness then 0.1
  else 0.

Definition calculate_structural_importance (wall : Wall) : R :=
  let score := 0.0 in
  let score := score + length_points (wall_length wall) in
  let score := score + thickness_points (wall_thickness wall) in
  let score := match wall_source wall with
               | consolidated => score + 0.25
               | fuzzy_canny => score
               end in
  let score := if is_perimeter_wall wall then score + 0.2 else score in
  let score := score + wall_confidence wall * 0.1 in
  Rmin score 1.0.

(** [wall['structural_score'] = importance_score]. *)
Definition set_structural_score (wall : Wall) (score : R) : Wall :=
  mkWall (wall_start wall) (wall_end wall) (wall_length wall) (wall_angle wall)
         (wall_type wall) (wall_confidence wall) (wall_is_sketchy wall)
         (wall_thickness wall) (wall_source wall) (Some score).

Definition count_if {A : Type} (p : A -> bool) (l : list A) : nat :=
  length (List.filter p l).

Definition sum_lengths (walls : list Wall) : R :=
  fold_left (fun total w => total + wall_length w) walls 0.

Definition calculate_realistic_wall_count (walls : list Wall) : nat :=
  match walls with
  | [] => 0%nat
  | _ :: _ =>
      let total_wall_length := sum_lengths walls in
      let avg_wall_length := total_wall_length / INR (length walls) in
      let base_count :=
        if Rltb 400 avg_wall_length then 35%nat
        else if Rltb 200 avg_wall_length then 30%nat
        else 25%nat in
      let high_importance :=
        count_if (fun w => Rltb 0.7 (get_structural_score w)) walls in
      let medium_importance :=
        count_if (fun w => Rltb 0.4 (get_structural_score w)
                           && Rleb (get_structural_score w) 0.7) walls in
      let realistic_count := Nat.min (high_importance + medium_importance / 2) base_count in
      Nat.max realistic_count 15
  end.

(** The loop of [apply_structural_focus] that scores every wall and
    keeps those above 0.3, followed by the sort on the score. *)
Definition score_and_keep (wall : Wall) : list Wall :=
  let importance_score := calculate_structural_importance wall in
  if Rltb 0.3 importance_score then [set_structural_score wall importance_score]
  else [].

Definition structural_walls (walls : list Wall) : list Wall :=
  sort_desc get_structural_score (flat_map score_and_keep walls).

Definition apply_structural_focus (walls : list Wall) : list Wall :=
  match walls with
  | [] => []
  | _ :: _ =>
      let structural := structural_walls walls in
      let max_walls := calculate_realistic_wall_count structural in
      if (max_walls <? length structural)%nat then firstn max_walls structural
      else structural
  end.

(** The cap that [apply_structural_focus] computes, when it gets as far
    as computing one. *)
Definition computed_wall_cap (walls : list Wall) : option nat :=
  match walls with
  | [] => None
  | _ :: _ => Some (calculate_realistic_wall_count (structural_walls walls))
  end.

Definition consolidate_wall_segments (line_segments : list Wall) : list Wall :=
  match line_segments with
  | [] => []
  | _ :: _ =>
      let wall_groups := group_parallel_lines line_segments in
      let consolidated_walls := flat_map merge_collinear_segments wall_groups in
      let thickness_walls := calculate_wall_thickness_from_groups consolidated_walls in
      apply_structural_focus thickness_walls
  end.

(** The walls handed to [apply_structural_focus] by
    [consolidate_wall_segments]. *)
Definition merged_walls (line_segments : list Wall) : list Wall :=
  calculate_wall_thickness_from_groups
    (flat_map merge_collinear_segments (group_parallel_lines line_segments)).

End Scorer.
Import Scorer.

(** ** NoiseFilter *)

Module NoiseFilter.

(** [wall_distance]: distance between the midpoints. *)
Definition wall_distance (wall1 wall2 : Wall) : R :=
  let mid1_x := IZR (fst (wall_start wall1) + fst (wall_end wall1)) / 2 in
  let mid1_y := IZR (snd (wall_start wall1) + snd (wall_end wall1)) / 2 in
  let mid2_x := IZR (fst (wall_start wall2) + fst (wall_end wall2)) / 2 in
  let mid2_y := IZR (snd (wall_start wall2) + snd (wall_end wall2)) / 2 in
  sqrt ((mid2_x - mid1_x) ^ 2 + (mid2_y - mid1_y) ^ 2).

(** [for j, wall2 in enumerate(walls[i+1:], i+1)]: collect the unused
    later walls that are parallel and close to [wall1]. *)
Fixpoint absorb_close (wall1 : Wall) (later : list (nat * Wall))
  (cluster : list Wall) (used : list nat) : list Wall * list nat :=
  match later with
  | [] => (cluster, used)
  | (j, wall2) :: rest =>
      if mem j used then absorb_close wall1 rest cluster used
      else if Rltb (Rabs (wall_angle wall1 - wall_angle wall2)) 10
              && Rltb (wall_distance wall1 wall2) 30
      then absorb_close wall1 rest (cluster ++ [wall2]) (j :: used)
      else absorb_close wall1 rest cluster used
  end.

(** [for i, wall1 in enumerate(walls)]. *)
Fixpoint build_clusters (todo : list (nat * Wall)) (used : list nat)
  : list (list Wall) :=
  match todo with
  | [] => []
  | (i, wall1) :: rest =>
      if mem i used then build_clusters rest used
      else
        let '(cluster, used') := absorb_close wall1 rest [wall1] (i :: used) in
        cluster :: build_clusters rest used'
  end.

Definition keep_from_cluster (cluster : list Wall) : list Wall :=
  if (length cluster <=? 4)%nat then cluster
  else firstn 2 (sort_desc wall_length cluster).

Definition remove_text_clusters (walls : list Wall) : list Wall :=
  if (length walls <? 3)%nat then walls
  else flat_map keep_from_cluster (build_clusters (enumerate_from 0 walls) []).

Definition region_size : Z := 50.

Definition is_in_text_area `{OpenCV} (wall : Wall) (gray : Image) : bool :=
  let mid_x := py_int (IZR (fst (wall_start wall) + fst (wall_end wall)) / 2) in
  let mid_y := py_int (IZR (snd (wall_start wall) + snd (wall_end wall)) / 2) in
  let x1 := Z.max 0 (mid_x - region_size) in
  let y1 := Z.max 0 (mid_y - region_size) in
  let x2 := Z.min (img_width gray) (mid_x + region_size) in
  let y2 := Z.min (img_height gray) (mid_y + region_size) in
  if (x2 <=? x1)%Z || (y2 <=? y1)%Z then false
  else
    match canny_edge_count gray y1 y2 x1 x2 with
    | Returned edge_pixels =>
        let edge_density := IZR edge_pixels / IZR ((y2 - y1) * (x2 - x1)) in
        Rltb 0.15 edge_density
    | Raised _ => false
    end.

Definition is_quality_wall (wall : Wall) : bool :=
  (Rltb 0.8 (wall_confidence wall) && Rltb 120 (wall_length wall))
  || Rltb 200 (wall_length wall).

Definition apply_intelligent_filtering `{OpenCV} (candidate_walls : list Wall)
  (gray : Image) : list Wall :=
  let clustered_walls := remove_text_clusters candidate_walls in
  let quality_walls := List.filter is_quality_wall clustered_walls in
  let filtered_walls := List.filter (fun wall => negb (is_in_text_area wall gray)) quality_walls in
  sort_desc (fun w => wall_confidence w * wall_length w) filtered_walls.

End NoiseFilter.
Import NoiseFilter.

(** ** Wall stage of [detect_walls_fuzzy] *)

Module WallStage.

(** Steps 2 and 3 of the source: consolidation (which ends with the
    structural focus), then the noise filter. *)
Definition detect_walls `{OpenCV} (candidate_walls : list Wall) (gray : Image)
  : list Wall :=
  let consolidated_walls := consolidate_wall_segments candidate_walls in
  apply_intelligent_filtering consolidated_walls gray.

(** The stage order as the specification words it: group and merge the
    candidates, filter the noise, then score and cap. *)
Definition spec_detect_walls `{OpenCV} (candidate_walls : list Wall) (gray : Image)
  : list Wall :=
  apply_structural_focus
    (apply_intelligent_filtering (merged_walls candidate_walls) gray).

End WallStage.
Import WallStage.

(** ** Point-to-wall helpers *)

Module NearWall.

(** A distance, or the [float('inf')] of the degenerate branch.
    [DivisionByZero] marks a division whose divisor is zero. *)
Inductive Distance : Type :=
| Finite (d : R)
| Infinity
| DivisionByZero.

Definition divide (numerator denominator : R) : Distance :=
  if Reqb denominator 0 then DivisionByZero else Finite (numerator / denominator).

(** [d < tolerance]; nothing but a finite distance is below a tolerance. *)
Definition distance_below (d : Distance) (tolerance : R) : bool :=
  match d with
  | Finite x => Rltb x tolerance
  | Infinity => false
  | DivisionByZero => false
  end.

Definition point_to_line_distance (px py : Z) (wall : Wall) : Distance :=
  let '(x1, y1) := wall_start wall in
  let '(x2, y2) := wall_end wall in
  let A := (y2 - y1)%Z in
  let B := (x1 - x2)%Z in
  let C := (x2 * y1 - x1 * y2)%Z in
  if (A =? 0)%Z && (B =? 0)%Z then Infinity
  else divide (IZR (Z.abs (A * px + B * py + C))) (sqrt (IZR (A * A + B * B))).

(** First definition of [is_near_wall] (fixed 20 px). *)
Definition is_near_wall_fixed (point : Z * Z) (walls : list Wall) : bool :=
  let '(px, py) := point in
  existsb (fun wall => distance_below (point_to_line_distance px py wall) 20) walls.

Definition is_on_wall (point : Z * Z) (walls : list Wall) : bool :=
  let '(px, py) := point in
  existsb (fun wall => distance_below (point_to_line_distance px py wall) 10) walls.

(** Second definition of [is_near_wall] (tolerance parameter). *)
Definition is_near_wall_tolerance (point : Z * Z) (walls : list Wall) (tolerance : R)
  : bool :=
  let '(px, py) := point in
  existsb (fun wall => distance_below (point_to_line_distance px py wall) tolerance) walls.

(** A method of the class that takes a point and the walls, with or
    without a defaulted [tolerance] parameter. *)
Inductive Method : Type :=
| PointWalls (body : Z * Z -> list Wall -> bool)
| PointWallsTolerance (default : R) (body : Z * Z -> list Wall -> R -> bool).

(** The three [def]s in the order the class body executes them. *)
Definition class_body : list (string * Method) :=
  [ ("is_near_wall"%string, PointWalls is_near_wall_fixed);
    ("is_on_wall"%string, PointWalls is_on_wall);
    ("is_near_wall"%string, PointWallsTolerance 15 is_near_wall_tolerance) ].

(** Executing a class body binds each name in turn; a later [def]
    replaces an earlier one of the same name. *)
Definition class_namespace : gmap string Method :=
  fold_left (fun ns d => <[ fst d := snd d ]> ns) class_body ∅.

Definition call_method (m : Method) (point : Z * Z) (walls : list Wall)
  (tolerance : option R) : outcome bool :=
  match m, tolerance with
  | PointWalls body, None => Returned (body point walls)
  | PointWalls _, Some _ => Raised "TypeError"
  | PointWallsTolerance default body, None => Returned (body point walls default)
  | PointWallsTolerance _ body, Some t => Returned (body point walls t)
  end.

(** [self.<name>(point, walls)] or [self.<name>(point, walls, tolerance=t)]. *)
Definition self_call (name : string) (point : Z * Z) (walls : list Wall)
  (tolerance : option R) : outcome bool :=
  match class_namespace !! name with
  | Some m => call_method m point walls tolerance
  | None => Raised "AttributeError"
  end.

(** [self.is_near_wall(...)] as the detectors call it.  The call never
    raises (lemma [self_is_near_wall_returns]), so the [Raised] case is
    given an arbitrary value. *)
Definition self_is_near_wall (point : Z * Z) (walls : list Wall)
  (tolerance : option R) : bool :=
  match self_call "is_near_wall" point walls tolerance with
  | Returned b => b
  | Raised _ => false
  end.

End NearWall.
Import NearWall.

(** ** OpeningDetector *)

Module Openings.

Definition are_walls_parallel (wall1 wall2 : Wall) : bool :=
  let angle_diff := Rabs (wall_angle wall1 - wall_angle wall2) in
  Rltb angle_diff 15 || Rltb 165 angle_diff.

Definition get_opening_center (wall1 wall2 : Wall) : R * R :=
  let w1_center := (IZR (fst (wall_start wall1) + fst (wall_end wall1)) / 2,
                    IZR (snd (wall_start wall1) + snd (wall_end wall1)) / 2) in
  let w2_center := (IZR (fst (wall_start wall2) + fst (wall_end wall2)) / 2,
                    IZR (snd (wall_start wall2) + snd (wall_end wall2)) / 2) in
  ((fst w1_center + fst w2_center) / 2, (snd w1_center + snd w2_center) / 2).

Definition looks_like_door_opening `{OpenCV} (wall1 wall2 : Wall) (gray : Image) : bool :=
  let center := get_opening_center wall1 wall2 in
  let x := py_int (fst center) in
  let y := py_int (snd center) in
  if (0 <=? x)%Z && (x <? img_width gray)%Z && (0 <=? y)%Z && (y <? img_height gray)%Z
  then
    let y_lo := Z.max 0 (y - 10) in
    let y_hi := Z.min (img_height gray) (y + 10) in
    let x_lo := Z.max 0 (x - 10) in
    let x_hi := Z.min (img_width gray) (x + 10) in
    if (y_lo <? y_hi)%Z && (x_lo <? x_hi)%Z
    then Rltb 200 (region_mean gray y_lo y_hi x_lo x_hi)
    else false
  else false.

(** Body of the two nested loops of [find_door_openings] for one pair. *)
Definition door_opening_of_pair `{OpenCV} (gray : Image) (wall1 wall2 : Wall)
  : list Opening :=
  if are_walls_parallel wall1 wall2 then
    let gap_size := wall_distance wall1 wall2 in
    if Rltb 50 gap_size && Rltb gap_size 100 then
      if looks_like_door_opening wall1 wall2 gray then
        [ mkOpening ty_opening (get_opening_center wall1 wall2) (Some gap_size)
                    None None 0.7 None [wall1; wall2] ]
      else []
    else []
  else [].

Fixpoint find_door_openings `{OpenCV} (walls : list Wall) (gray : Image) : list Opening :=
  match walls with
  | [] => []
  | wall1 :: rest =>
      flat_map (door_opening_of_pair gray wall1) rest ++ find_door_openings rest gray
  end.

Definition door_symbol_of_contour (walls : list Wall) (contour : Contour) : list Opening :=
  let area := contour_area contour in
  if Rltb 200 area && Rltb area 2000 then
    let '(x, y, w, h) := contour_rect contour in
    let aspect_ratio := if (0 <? w)%Z then IZR h / IZR w else 0 in
    if Rltb 1.5 aspect_ratio && Rltb aspect_ratio 3.0 then
      if self_is_near_wall ((x + w / 2)%Z, (y + h / 2)%Z) walls None then
        [ mkOpening ty_symbol (IZR (x + w / 2), IZR (y + h / 2))
                    (Some (IZR w)) (Some (IZR h)) None 0.6 None [] ]
      else []
    else []
  else [].

Definition find_door_symbols `{OpenCV} (gray : Image) (walls : list Wall) : list Opening :=
  flat_map (door_symbol_of_contour walls) (otsu_contours gray).

(** [filter_duplicate_doors]. *)

Definition opening_distance (door existing : Opening) : R :=
  sqrt ((fst (op_position door) - fst (op_position existing)) ^ 2
        + (snd (op_position door) - snd (op_position existing)) ^ 2).

(** The inner loop [for existing in filtered]: it stops at the first
    kept opening within 30 px of [door]. *)
Fixpoint first_within_30 (door : Opening) (filtered : list Opening) : option Opening :=
  match filtered with
  | [] => None
  | existing :: rest =>
      if Rltb (opening_distance door existing) 30 then Some existing
      else first_within_30 door rest
  end.

#[export] Instance R_eq_dec : EqDecision R := Req_dec_T.
#[export] Instance Orientation_eq_dec : EqDecision Orientation.
Proof. solve_decision. Defined.
#[export] Instance Source_eq_dec : EqDecision Source.
Proof. solve_decision. Defined.
#[export] Instance Wall_eq_dec : EqDecision Wall.
Proof. solve_decision. Defined.
#[export] Instance OpeningType_eq_dec : EqDecision OpeningType.
Proof. solve_decision. Defined.
#[export] Instance Opening_eq_dec : EqDecision Opening.
Proof. solve_decision. Defined.

(** [list.remove(x)]: delete the first element equal to [x]. *)
Fixpoint list_remove (x : Opening) (l : list Opening) : list Opening :=
  match l with
  | [] => []
  | y :: l' => if decide (y = x) then l' else y :: list_remove x l'
  end.

(** One iteration of the outer loop [for door in doors]. *)
Definition dedup_step (filtered : list Opening) (door : Opening) : list Opening :=
  match first_within_30 door filtered with
  | Some existing =>
      if Rltb (op_confidence existing) (op_confidence door)
      then list_remove existing filtered ++ [door]
      else filtered
  | None => filtered ++ [door]
  end.

Definition filter_duplicate_doors (doors : list Opening) : list Opening :=
  if (length doors <=? 1)%nat then doors
  else fold_left dedup_step doors [].

Definition filter_duplicate_windows (windows : list Opening) : list Opening :=
  filter_duplicate_doors windows.

Definition filter_duplicate_arches (arches : list Opening) : list Opening :=
  filter_duplicate_doors arches.

(** The count cap shared by doors and arches: above [cap] entries, sort
    by confidence, highest first, and keep the first [cap]. *)
Definition cap_by_confidence (cap : nat) (openings : list Opening) : list Opening :=
  if (cap <? length openings)%nat
  then firstn cap (sort_desc op_confidence openings)
  else openings.

(** What [cap_by_confidence] leaves out. *)
Definition dropped_by_cap (cap : nat) (openings : list Opening) : list Opening :=
  if (cap <? length openings)%nat
  then skipn cap (sort_desc op_confidence openings)
  else [].

(** [detect_doors].  The three detectors are total in this model (the
    image operations they rest on are the fields of [OpenCV]), so the
    [except] branch of the source, which would return the detections
    gathered before the failure, has no counterpart here; the same holds
    for [detect_windows] and [detect_arches]. *)
Definition detect_doors `{OpenCV} (gray : Image) (walls : list Wall) : list Opening :=
  let doors := find_door_openings walls gray
               ++ find_door_swings gray
               ++ find_door_symbols gray walls in
  let doors := filter_duplicate_doors doors in
  cap_by_confidence 20 doors.

(** Windows. *)

Definition window_rectangle_of_contour (walls : list Wall) (contour : Contour)
  : list Opening :=
  let area := contour_area contour in
  if Rltb 50 area && Rltb area 1500 then
    let '(x, y, w, h) := contour_rect contour in
    let aspect_ratio := if (0 <? h)%Z then IZR w / IZR h else 0 in
    if Rltb 0.5 aspect_ratio && Rltb aspect_ratio 5.0 then
      if self_is_near_wall ((x + w / 2)%Z, (y + h / 2)%Z) walls (Some 20) then
        [ mkOpening ty_dark_rectangle (IZR (x + w / 2), IZR (y + h / 2))
                    (Some (IZR w)) (Some (IZR h)) None 0.8 None [] ]
      else []
    else []
  else [].

(** The point sampled at parameter [i / num_samples] along a wall. *)
Definition sample_point (wall : Wall) (i num_samples : nat) : Z * Z :=
  let '(x1, y1) := wall_start wall in
  let '(x2, y2) := wall_end wall in
  let t := INR i / INR num_samples in
  (py_int (IZR x1 + t * IZR (x2 - x1)), py_int (IZR y1 + t * IZR (y2 - y1))).

Definition too_close (windows : list Opening) (px py : Z) : bool :=
  existsb (fun w => Rltb (Rabs (fst (op_position w) - IZR px)) 30
                    && Rltb (Rabs (snd (op_position w) - IZR py)) 30) windows.

Definition find_windows_along_wall `{OpenCV} (wall : Wall) (gray : Image) : list Opening :=
  let wall_length := wall_length wall in
  if Rltb wall_length 50 then []
  else
    let num_samples := Nat.max 15 (Z.to_nat (Int_part (wall_length / 15))) in
    fold_left
      (fun windows i =>
         let '(px, py) := sample_point wall i num_samples in
         if has_window_break_pattern px py wall gray then
           if too_close windows px py then windows
           else windows ++ [ mkOpening ty_wall_break (IZR px, IZR py)
                                       (Some 30) (Some 15) None 0.6 None [wall] ]
         else windows)
      (seq 1 (num_samples - 1 - 1)) [].

Definition find_window_rectangles `{OpenCV} (gray : Image) (walls : list Wall)
  : list Opening :=
  flat_map (window_rectangle_of_contour walls) (otsu_inv_contours gray)
  ++ flat_map (fun wall => find_windows_along_wall wall gray) walls.

Definition detect_window_patterns_on_wall `{OpenCV} (wall : Wall) (gray : Image)
  : list Opening :=
  let num_samples := Nat.max 10 (Z.to_nat (Int_part (wall_length wall / 20))) in
  flat_map
    (fun i =>
       let '(px, py) := sample_point wall i num_samples in
       if has_window_pattern_at_point px py wall gray then
         [ mkOpening ty_parallel_lines (IZR px, IZR py) (Some 40) None None 0.6 None [wall] ]
       else [])
    (seq 0 num_samples).

Definition find_window_parallel_lines `{OpenCV} (gray : Image) (walls : list Wall)
  : list Opening :=
  flat_map (fun wall => detect_window_patterns_on_wall wall gray) walls.

Definition detect_windows `{OpenCV} (gray : Image) (walls : list Wall) : list Opening :=
  let windows := find_window_rectangles gray walls
                 ++ find_window_parallel_lines gray walls in
  filter_duplicate_windows windows.

(** Arches. *)

Definition find_curved_arches (gray : Image) : list Opening := [].

Definition wide_opening_of_pair (wall1 wall2 : Wall) : list Opening :=
  if are_walls_parallel wall1 wall2 then
    let gap_size := wall_distance wall1 wall2 in
    if Rltb 150 gap_size && Rltb gap_size 250 then
      [ mkOpening ty_wide_opening (get_opening_center wall1 wall2) (Some gap_size)
                  None None 0.6 None [wall1; wall2] ]
    else []
  else [].

Fixpoint find_wide_openings (walls : list Wall) (gray : Image) : list Opening :=
  match walls with
  | [] => []
  | wall1 :: rest =>
      flat_map (wide_opening_of_pair wall1) rest ++ find_wide_openings rest gray
  end.

Definition detect_arches (gray : Image) (walls : list Wall) : list Opening :=
  let arches := find_curved_arches gray ++ find_wide_openings walls gray in
  let arches := filter_duplicate_arches arches in
  cap_by_confidence 15 arches.

End Openings.
Import Openings.

(** ** The entry point [detect_walls_fuzzy] *)

Module Pipeline.

(** Values stored in the result dict. *)
Inductive Value : Type :=
| VBool (b : bool)
| VStr (s : string)
| VWalls (walls : list Wall)
| VOpenings (openings : list Opening)
| VImageStats (width height : Z) (contrast : R)
| VTotals (walls doors windows arches : nat).

Definition hough_params (contrast : R) : Z * Z * Z :=
  if Rltb contrast 30 then (50, 30, 20)%Z
  else if Rltb 100 contrast then (150, 80, 5)%Z
  else (100, 50, 10)%Z.

(** The body of the [try] block. *)
Definition detect_walls_fuzzy_body `{OpenCV} (image_path : string)
  : outcome (gmap string Value) :=
  match imread_gray image_path with
  | None => Raised ("Could not read image: " +:+ image_path)
  | Some gray =>
      let contrast := np_std gray in
      let '(threshold, minLineLength, maxLineGap) := hough_params contrast in
      match HoughLinesP gray threshold minLineLength maxLineGap with
      | Raised msg => Raised msg
      | Returned lines =>
          let walls :=
            match lines with
            | Some lines => detect_walls (candidate_walls gray lines) gray
            | None => []
            end in
          let doors := detect_doors gray walls in
          let windows := detect_windows gray walls in
          let arches := detect_arches gray walls in
          Returned
            (<[ "success" := VBool true ]>
             (<[ "walls" := VWalls walls ]>
             (<[ "doors" := VOpenings doors ]>
             (<[ "windows" := VOpenings windows ]>
             (<[ "arches" := VOpenings arches ]>
             (<[ "method" := VStr "fuzzy_canny_complete" ]>
             (<[ "image_stats" := VImageStats (img_width gray) (img_height gray) contrast ]>
             (<[ "totals" := VTotals (length walls) (length doors)
                                     (length windows) (length arches) ]>
              ∅))))))))
      end
  end.

(** [try: ... except Exception as e: ...]. *)
Definition detect_walls_fuzzy `{OpenCV} (image_path : string) : gmap string Value :=
  match detect_walls_fuzzy_body image_path with
  | Returned result => result
  | Raised e =>
      <[ "success" := VBool false ]>
      (<[ "error" := VStr e ]>
      (<[ "walls" := VWalls [] ]> ∅))
  end.

End Pipeline.
Import Pipeline.

(** ** Vocabulary of the properties *)

Module Vocabulary.

(** What the pipeline guarantees of every wall it handles: it is longer
    than 100 px, its confidence is at least 0.4, its thickness lies in
    [3, 25], and it is either consolidated or at least 6 px thick. *)
Definition sound_wall (w : Wall) : Prop :=
  100 < wall_length w
  /\ 0.4 <= wall_confidence w
  /\ 3 <= wall_thickness w <= 25
  /\ (wall_source w = consolidated \/ 6 <= wall_thickness w).

(** Number of entries of an enumerated list whose index is not yet used. *)
Definition unused_count (todo : list (nat * Wall)) (used : list nat) : nat :=
  length (List.filter (fun jw => negb (mem (fst jw) used)) todo).

(** Squared distance between the midpoints of two walls. *)
Definition midpoint_gap_sq (a b : Wall) : R :=
  (IZR (fst (wall_start b) + fst (wall_end b)) / 2
   - IZR (fst (wall_start a) + fst (wall_end a)) / 2) ^ 2
  + (IZR (snd (wall_start b) + snd (wall_end b)) / 2
     - IZR (snd (wall_start a) + snd (wall_end a)) / 2) ^ 2.

(** [for existing_line in group], from iterator position [k]. *)
Inductive scan_run (lines : list Wall) : nat -> GroupState -> GroupState -> Prop :=
| scan_exhausted (k : nat) (st : GroupState) :
    nth_error (gs_group st) k = None ->
    scan_run lines k st st
| scan_next (k : nat) (st st' : GroupState) (existing_line : Wall) :
    nth_error (gs_group st) k = Some existing_line ->
    scan_run lines (S k)
      (absorb_candidates existing_line (enumerate_from 0 lines) st) st' ->
    scan_run lines k st st'.

(** [while added_to_group]. *)
Inductive grow_run (lines : list Wall) :
  list Wall -> list nat -> list Wall * list nat -> Prop :=
| grow_settled (group : list Wall) (used : list nat) (st : GroupState) :
    scan_run lines 0 (mkGroupState group used false) st ->
    gs_added st = false ->
    grow_run lines group used (gs_group st, gs_used st)
| grow_repeat (group : list Wall) (used : list nat) (st : GroupState)
    (result : list Wall * list nat) :
    scan_run lines 0 (mkGroupState group used false) st ->
    gs_added st = true ->
    grow_run lines (gs_group st) (gs_used st) result ->
    grow_run lines group used result.

(** [for i, line1 in enumerate(lines)]. *)
Inductive groups_run (lines : list Wall) :
  list (nat * Wall) -> list nat -> list (list Wall) -> Prop :=
| groups_done (used : list nat) :
    groups_run lines [] used []
| groups_skip (i : nat) (line1 : Wall) (rest : list (nat * Wall)) (used : list nat)
    (groups : list (list Wall)) :
    mem i used = true ->
    groups_run lines rest used groups ->
    groups_run lines ((i, line1) :: rest) used groups
| groups_new (i : nat) (line1 : Wall) (rest : list (nat * Wall)) (used used' : list nat)
    (group : list Wall) (groups : list (list Wall)) :
    mem i used = false ->
    grow_run lines [line1] (i :: used) (group, used') ->
    (0 < length group)%nat ->
    groups_run lines rest used' groups ->
    groups_run lines ((i, line1) :: rest) used (group :: groups).

(** No opening of the list lies within 30 px of an earlier one. *)
Definition spaced (l : list Opening) : Prop :=
  ForallOrdPairs (fun earlier later => 30 <= opening_distance later earlier) l.

End Vocabulary.
Import Vocabulary.

(** ** Inputs of the examples *)

Module Examples.

(** Two horizontal 300-px strokes on adjacent pixel rows. *)
Definition stroke_row_100 : Wall :=
  mkWall (0, 100)%Z (300, 100)%Z 300 0 horizontal 1 false 6 fuzzy_canny None.

Definition stroke_row_101 : Wall :=
  mkWall (0, 101)%Z (300, 101)%Z 300 0 horizontal 1 false 6 fuzzy_canny None.


Definition floor_wall : Wall :=
  mkWall (0, 0)%Z (100, 0)%Z 100 0 horizontal 1 false 6 fuzzy_canny None.

(** Two door openings 50 px apart and a swing arc between them. *)
Definition opening_left : Opening :=
  mkOpening ty_opening (200, 300) (Some 70) None None 0.7 None [].

Definition opening_right : Opening :=
  mkOpening ty_opening (250, 300) (Some 70) None None 0.7 None [].

Definition swing_between : Opening :=
  mkOpening ty_swing (225, 300) None None (Some 40) 0.8 (Some "right"%string) [].

(** An environment in which no image can be read. *)
Definition unreadable_image : OpenCV := {|
  imread_gray := fun _ => None;
  np_std := fun _ => 0;
  HoughLinesP := fun _ _ _ _ => Returned None;
  canny_edge_count := fun _ _ _ _ _ => Returned 0%Z;
  region_mean := fun _ _ _ _ _ => 0;
  otsu_contours := fun _ => [];
  otsu_inv_contours := fun _ => [];
  find_door_swings := fun _ => [];
  has_window_break_pattern := fun _ _ _ _ => false;
  has_window_pattern_at_point := fun _ _ _ _ => false
|}.

(** A drawing whose 100x100 neighbourhoods all have an edge density of
    about 5%. *)
Definition sparse_drawing : OpenCV := {|
  imread_gray := fun _ => Some (mkImage 600 800 (fun _ _ => 255%Z));
  np_std := fun _ => 60;
  HoughLinesP := fun _ _ _ _ => Returned None;
  canny_edge_count := fun _ y1 y2 x1 x2 => Returned ((y2 - y1) * (x2 - x1) / 20)%Z;
  region_mean := fun _ _ _ _ _ => 255;
  otsu_contours := fun _ => [];
  otsu_inv_contours := fun _ => [];
  find_door_swings := fun _ => [];
  has_window_break_pattern := fun _ _ _ _ => false;
  has_window_pattern_at_point := fun _ _ _ _ => false
|}.

(** Five horizontal strokes of a text-like cluster: one in the middle,
    two 20 px to its left and two 20 px to its right. *)
Definition text_stroke (x1 x2 y : Z) (length : R) : Wall :=
  mkWall (x1, y) (x2, y) length 0 horizontal 1 false 10 fuzzy_canny None.

Definition stroke_mid : Wall := text_stroke 235 365 300 130.
Definition stroke_left_a : Wall := text_stroke 190 370 300 180.
Definition stroke_left_b : Wall := text_stroke 195 365 320 170.
Definition stroke_right_a : Wall := text_stroke 225 415 300 190.
Definition stroke_right_b : Wall := text_stroke 240 400 320 160.

Definition text_cluster : list Wall :=
  [stroke_mid; stroke_left_a; stroke_left_b; stroke_right_a; stroke_right_b].

Definition page : Image := mkImage 600 800 (fun _ _ => 255%Z).

(** The same strokes once scored. *)
Definition scored (w : Wall) (score : R) : Wall := set_structural_score w score.

(** A page with one dark horizontal rule, 5 px thick, from x = 100 to
    x = 400 around y = 200. *)
Definition ruled_page : Image :=
  mkImage 600 800
    (fun y x => if (198 <=? y)%Z && (y <=? 202)%Z && (100 <=? x)%Z && (x <=? 400)%Z
                then 0%Z else 255%Z).

Definition ruled_drawing : OpenCV := {|
  imread_gray := fun _ => Some ruled_page;
  np_std := fun _ => 20;
  HoughLinesP := fun _ _ _ _ => Returned (Some [(100, 200, 400, 200)%Z]);
  canny_edge_count := fun _ y1 y2 x1 x2 => Returned ((y2 - y1) * (x2 - x1) / 20)%Z;
  region_mean := fun _ _ _ _ _ => 250;
  otsu_contours := fun _ => [];
  otsu_inv_contours := fun _ => [];
  find_door_swings := fun _ => [];
  has_window_break_pattern := fun _ _ _ _ => false;
  has_window_pattern_at_point := fun _ _ _ _ => false
|}.

Definition single_line : Z * Z * Z * Z := (100, 200, 400, 200)%Z.

Definition single_wall : Wall :=
  mkWall (100, 200)%Z (400, 200)%Z 300 0 horizontal 1 false 6 fuzzy_canny None.

End Examples.
Import Examples.

(** ** Pixel sampling: the intensity-profile tests of the window detectors *)

Module Sampling.

(** [np.radians]. *)
Definition radians (degrees : R) : R := degrees * PI / 180.

(** [range(a, b)]. *)
Definition zrange (a b : Z) : list Z :=
  map (fun i => (a + Z.of_nat i)%Z) (seq 0 (Z.to_nat (b - a))).

(** An integer index into an axis of [n] entries: a negative index counts
    from the end, and [None] stands for the IndexError of an index out of
    range. *)
Definition np_index (i n : Z) : option Z :=
  if (0 <=? i)%Z && (i <? n)%Z then Some i
  else if (- n <=? i)%Z && (i <? 0)%Z then Some (i + n)%Z
  else None.

(** [gray_img[a:b, px]] and [gray_img[py, a:b]] for [0 <= a]: the slice
    stops at the end of the axis. *)
Definition column_slice (gray : Image) (a b px : Z) : option (list Z) :=
  match np_index px (img_width gray) with
  | Some x => Some (map (fun y => pixel gray y x) (zrange a (Z.min b (img_height gray))))
  | None => None
  end.

Definition row_slice (gray : Image) (py a b : Z) : option (list Z) :=
  match np_index py (img_height gray) with
  | Some y => Some (map (fun x => pixel gray y x) (zrange a (Z.min b (img_width gray))))
  | None => None
  end.

(** [np.mean] and [np.std] of a one-dimensional array. *)
Definition np_sum (values : list R) : R := fold_right Rplus 0 values.

Definition np_mean (values : list R) : R := np_sum values / INR (length values).

Definition np_std_1d (values : list R) : R :=
  sqrt (np_mean (map (fun x => (x - np_mean values) ^ 2) values)).

(** [np.max] and [np.min] of a non-empty array. *)
Definition np_max (first : R) (rest : list R) : R := fold_left Rmax rest first.
Definition np_min (first : R) (rest : list R) : R := fold_left Rmin rest first.

(** [np.convolve(profile, np.ones(3)/3, mode='same')] on a profile of at
    least three entries: every entry is averaged with its two
    neighbours, and a neighbour beyond either end counts as 0. *)
Fixpoint smooth_from (previous : R) (profile : list R) : list R :=
  match profile with
  | [] => []
  | x :: rest =>
      (previous / 3 + x / 3 + match rest with [] => 0 | next :: _ => next end / 3)
      :: smooth_from x rest
  end.

Definition convolve_same (profile : list R) : list R := smooth_from 0 profile.

(** The loop [for i in range(1, len(smoothed) - 1)]: the indices of the
    strict local maxima and minima, from index [i] on, where [smoothed]
    starts at index [i - 1]. *)
Fixpoint extrema_from (i : nat) (smoothed : list R) : list nat * list nat :=
  match smoothed with
  | before :: ((here :: after :: _) as rest) =>
      let '(peaks, valleys) := extrema_from (S i) rest in
      if Rltb before here && Rltb after here then (i :: peaks, valleys)
      else if Rltb here before && Rltb here after then (peaks, i :: valleys)
      else (peaks, valleys)
  | _ => ([], [])
  end.

Definition detect_window_frame_pattern (intensity_profile : list R) : bool :=
  if (length intensity_profile <? 7)%nat then false
  else
    let smoothed := convolve_same intensity_profile in
    let '(peaks, valleys) := extrema_from 1 smoothed in
    if (1 <=? length peaks)%nat && (2 <=? length valleys)%nat then
      match smoothed with
      | first :: rest =>
          let max_val := np_max first rest in
          let min_val := np_min first rest in
          let contrast := max_val - min_val in
          Rltb 30 contrast
      | [] => false
      end
    else false.

(** The two offsets of the sampling line perpendicular to a wall. *)
Definition perpendicular_offsets (sample_length : R) (wall : Wall) : Z * Z :=
  let angle := wall_angle wall in
  let perp_angle := angle + 90 in
  (py_int (sample_length * cos (radians perp_angle)),
   py_int (sample_length * sin (radians perp_angle))).

(** [has_window_break_pattern].  An IndexError of the pixel access is
    caught by the [except] of the source, which returns [False]. *)
Definition has_window_break_pattern (px py : Z) (wall : Wall) (gray : Image) : bool :=
  let '(dx, dy) := perpendicular_offsets 20 wall in
  let h := img_height gray in
  let w := img_width gray in
  let x_start := Z.max 0 (Z.min (w - 1) (px - dx)) in
  let x_end := Z.max 0 (Z.min (w - 1) (px + dx)) in
  let y_start := Z.max 0 (Z.min (h - 1) (py - dy)) in
  let y_end := Z.max 0 (Z.min (h - 1) (py + dy)) in
  if (x_start =? x_end)%Z && (y_start =? y_end)%Z then false
  else
    let profile :=
      if (Z.abs dy <? Z.abs dx)%Z then
        if (y_start <? y_end)%Z then column_slice gray y_start y_end px
        else column_slice gray y_end y_start px
      else
        if (x_start <? x_end)%Z then row_slice gray py x_start x_end
        else row_slice gray py x_end x_start in
    match profile with
    | None => false
    | Some profile =>
        if (length profile <? 7)%nat then false
        else if (10 <=? length profile)%nat then
          detect_window_frame_pattern (map IZR profile)
        else
          let profile_std := np_std_1d (map IZR profile) in
          let profile_mean := np_mean (map IZR profile) in
          Rltb 20 profile_std && Rltb 120 profile_mean
    end.

(** [gray_img[y0:y1, x0:x1].mean(axis=1)]: one mean per row; with
    [axis=0], one mean per column. *)
Definition row_means (gray : Image) (y0 y1 x0 x1 : Z) : list R :=
  map (fun y => np_mean (map (fun x => IZR (pixel gray y x)) (zrange x0 x1))) (zrange y0 y1).

Definition column_means (gray : Image) (y0 y1 x0 x1 : Z) : list R :=
  map (fun x => np_mean (map (fun y => IZR (pixel gray y x)) (zrange y0 y1))) (zrange x0 x1).

(** [has_window_pattern_at_point]. *)
Definition has_window_pattern_at_point (px py : Z) (wall : Wall) (gray : Image) : bool :=
  let '(dx, dy) := perpendicular_offsets 15 wall in
  let h := img_height gray in
  let w := img_width gray in
  let x_start := Z.max 0 (px - dx) in
  let x_end := Z.min (w - 1) (px + dx) in
  let y_start := Z.max 0 (py - dy) in
  let y_end := Z.min (h - 1) (py + dy) in
  if (x_start <? x_end)%Z && (y_start <? y_end)%Z then
    let profile :=
      if (Z.abs dy <? Z.abs dx)%Z then row_means gray y_start y_end x_start x_end
      else column_means gray y_start y_end x_start x_end in
    if (5 <=? length profile)%nat then
      let center_val := nth (length profile / 2) profile 0 in
      let edge_vals := (nth 0 profile 0 + List.last profile 0) / 2 in
      Rltb (edge_vals + 20) center_val
    else false
  else false.

End Sampling.

(** [Sampling] and [Swings] hold methods whose names are also fields of
    [OpenCV]; they are referred to by their qualified names. *)

(** ** Door swings *)

Module Swings.

(** A contour of the Canny edge map as [find_door_swing_curves] uses it:
    its points, [cv2.arcLength(contour, False)] and
    [cv2.minEnclosingCircle(contour)], which may raise. *)
Record Curve : Type := mkCurve {
  curve_points : list (Z * Z);
  curve_arc_length : R;
  curve_enclosing_circle : outcome (R * R * R)
}.

(** The OpenCV calls of the swing detectors. *)
Class CircleFinder : Type := {
  (** [cv2.HoughCircles] with the parameters of the source, followed by
      [np.uint16(np.around(circles))]: the circles [(x, y, r)], [None]
      when there is none. *)
  HoughCircles : Image -> outcome (option (list (Z * Z * Z)));
  (** External contours of [cv2.Canny(gray, 50, 150)]. *)
  canny_curves : Image -> list Curve
}.

(** The test [0 <= px < width and 0 <= py < height and gray[py, px] < 100]. *)
Definition dark_at (gray : Image) (px py : Z) : bool :=
  (0 <=? px)%Z && (px <? img_width gray)%Z
  && (0 <=? py)%Z && (py <? img_height gray)%Z
  && (pixel gray py px <? 100)%Z.

(** The sample at [angle] on the circle of centre [(x, y)] and radius [r]. *)
Definition circle_point (x y r : Z) (angle : R) : Z * Z :=
  (py_int (IZR x + IZR r * cos angle), py_int (IZR y + IZR r * sin angle)).

Definition dark_sample (gray : Image) (x y r : Z) (total : nat) (i : nat) : bool :=
  let angle := 2 * PI * INR i / INR total in
  let '(px, py) := circle_point x y r angle in
  dark_at gray px py.

Definition is_door_swing_arc (gray : Image) (x y r : Z) : bool :=
  let total_points := 12%nat in
  let arc_points := count_if (dark_sample gray x y r total_points) (seq 0 total_points) in
  Rltb 0.2 (INR arc_points / INR total_points)
  && Rltb (INR arc_points / INR total_points) 0.6.

(** The four counters of [determine_swing_direction]. *)
Definition count_quadrant (angle : R) (counts : nat * nat * nat * nat)
  : nat * nat * nat * nat :=
  let '(q0, q1, q2, q3) := counts in
  if Rltb angle (PI / 2) then (S q0, q1, q2, q3)
  else if Rltb angle PI then (q0, S q1, q2, q3)
  else if Rltb angle (3 * PI / 2) then (q0, q1, S q2, q3)
  else (q0, q1, q2, S q3).

Definition quadrant_counts (gray : Image) (x y r : Z) : nat * nat * nat * nat :=
  fold_left
    (fun counts i =>
       if dark_sample gray x y r 32 i
       then count_quadrant (2 * PI * INR i / INR 32) counts
       else counts)
    (seq 0 32) (0, 0, 0, 0)%nat.

(** [quadrant_counts.index(max(quadrant_counts))]: the first index that
    holds the maximum. *)
Definition index_of_max (counts : nat * nat * nat * nat) : nat :=
  let '(q0, q1, q2, q3) := counts in
  let m := Nat.max (Nat.max q0 q1) (Nat.max q2 q3) in
  if (q0 =? m)%nat then 0%nat
  else if (q1 =? m)%nat then 1%nat
  else if (q2 =? m)%nat then 2%nat
  else 3%nat.

Definition determine_swing_direction (gray : Image) (x y r : Z) : string :=
  let max_quadrant := index_of_max (quadrant_counts gray x y r) in
  nth max_quadrant ["right"; "left"; "left"; "right"]%string ""%string.

(** Python's [min(seq)] on a non-empty list. *)
Definition list_min_from (first : R) (rest : list R) : R :=
  fold_left (fun best x => if Rltb x best then x else best) rest first.

Definition is_partial_circle (contour : list (Z * Z)) (center : Z * Z) (radius : R)
  : bool :=
  let '(cx, cy) := center in
  let total_points := length contour in
  if (total_points <? 5)%nat then false
  else
    let angles :=
      map (fun point => arctan2 (IZR (snd point - cy)) (IZR (fst point - cx))) contour in
    if (3 <? length angles)%nat then
      match angles with
      | first :: rest =>
          let angle_range := list_max_from first rest - list_min_from first rest in
          Rltb (PI / 3) angle_range && Rltb angle_range (2 * PI / 3)
      | [] => false
      end
    else false.

Definition estimate_swing_direction_from_contour (contour : list (Z * Z)) : string :=
  if (length contour <? 3)%nat then "unknown"%string
  else
    match contour with
    | start_point :: _ =>
        let end_point := List.last contour start_point in
        if (fst start_point <? fst end_point)%Z then "clockwise"%string
        else "counterclockwise"%string
    | [] => "unknown"%string
    end.

(** Body of the loop of [find_door_swing_curves] for one contour. *)
Definition swing_curve_of_contour (contour : Curve) : list Opening :=
  let arc_length := curve_arc_length contour in
  if Rltb 60 arc_length && Rltb arc_length 300 then
    if (5 <=? length (curve_points contour))%nat then
      match curve_enclosing_circle contour with
      | Returned (x, y, radius) =>
          if Rltb 25 radius && Rltb radius 85
             && is_partial_circle (curve_points contour) (py_int x, py_int y) radius
          then
            [ mkOpening ty_swing_curve (IZR (py_int x), IZR (py_int y)) None None
                        (Some (IZR (py_int radius))) 0.7
                        (Some (estimate_swing_direction_from_contour (curve_points contour)))
                        [] ]
          else []
      | Raised _ => []
      end
    else []
  else [].

Definition find_door_swing_curves `{CircleFinder} (gray : Image) : list Opening :=
  flat_map swing_curve_of_contour (canny_curves gray).

(** Body of the loop over the Hough circles for one circle. *)
Definition swing_of_circle (gray : Image) (circle : Z * Z * Z) : list Opening :=
  let '(x, y, r) := circle in
  if is_door_swing_arc gray x y r then
    [ mkOpening ty_swing (IZR x, IZR y) None None (Some (IZR r)) 0.8
                (Some (determine_swing_direction gray x y r)) [] ]
  else [].

(** [find_door_swings]: a failure of [cv2.HoughCircles] is swallowed by
    the [except] of the first method. *)
Definition find_door_swings `{CircleFinder} (gray : Image) : list Opening :=
  let doors :=
    match HoughCircles gray with
    | Returned (Some circles) => flat_map (swing_of_circle gray) circles
    | Returned None => []
    | Raised _ => []
    end in
  doors ++ find_door_swing_curves gray.

End Swings.

(** ** The detector with its own sampling methods

    [OpenCV] takes [find_door_swings] and the two window tests as
    given.  [source_detector] is the environment in which they are the
    methods of the source. *)

Module SourceDetector.

Definition source_detector (cv : OpenCV) (circles : Swings.CircleFinder) : OpenCV := {|
  imread_gray := @imread_gray cv;
  np_std := @np_std cv;
  HoughLinesP := @HoughLinesP cv;
  canny_edge_count := @canny_edge_count cv;
  region_mean := @region_mean cv;
  otsu_contours := @otsu_contours cv;
  otsu_inv_contours := @otsu_inv_contours cv;
  find_door_swings := @Swings.find_door_swings circles;
  has_window_break_pattern := Sampling.has_window_break_pattern;
  has_window_pattern_at_point := Sampling.has_window_pattern_at_point
|}.

End SourceDetector.
Import SourceDetector.

(** ** Vocabulary of the grouping and clustering properties *)

Module Partition.

(** The lines of an enumerated list whose index is not yet used. *)
Definition unused_walls (todo : list (nat * Wall)) (used : list nat) : list Wall :=
  map snd (List.filter (fun jw => negb (mem (fst jw) used)) todo).

(** A group under construction is chained when every line after the
    first was absorbed for being parallel and close to a line already
    in the group. *)
Inductive chained : list Wall -> Prop :=
| chained_seed (line1 : Wall) : chained [line1]
| chained_absorb (group : list Wall) (existing_line candidate_line : Wall) :
    chained group ->
    In existing_line group ->
    are_parallel_and_close existing_line candidate_line = true ->
    chained (group ++ [candidate_line]).

(** No line of the first group is parallel and close to a line of the
    second. *)
Definition apart (group1 group2 : list Wall) : Prop :=
  forall a b, In a group1 -> In b group2 -> are_parallel_and_close a b = false.

(** The test of [remove_text_clusters] that puts a later wall into the
    cluster of [wall1]. *)
Definition close_to (wall1 wall2 : Wall) : Prop :=
  Rabs (wall_angle wall1 - wall_angle wall2) < 10 /\ wall_distance wall1 wall2 < 30.

(** A cluster of [remove_text_clusters]: a first wall and walls that are
    each close to that first wall. *)
Definition seeded (cluster : list Wall) : Prop :=
  match cluster with
  | [] => False
  | seed :: others => Forall (close_to seed) others
  end.

End Partition.
Import Partition.

(** ** Vocabulary of the opening detectors *)

Module Shapes.

(** The shape of a wide opening between two walls of the list. *)
Definition wide_opening_between (walls : list Wall) (arch : Opening) : Prop :=
  exists wall1 wall2,
    In wall1 walls /\ In wall2 walls
    /\ are_walls_parallel wall1 wall2 = true
    /\ 150 < wall_distance wall1 wall2 < 250
    /\ arch = mkOpening ty_wide_opening (get_opening_center wall1 wall2)
                        (Some (wall_distance wall1 wall2)) None None 0.6 None
                        [wall1; wall2].

(** A window that [find_windows_along_wall] records at the sample [i]
    of [num_samples] along the wall. *)
Definition wall_break_on `{OpenCV} (wall : Wall) (gray : Image) (num_samples : nat)
  (window : Opening) : Prop :=
  exists (i : nat) (px py : Z),
    (1 <= i <= num_samples - 2)%nat
    /\ sample_point wall i num_samples = (px, py)
    /\ has_window_break_pattern px py wall gray = true
    /\ window = mkOpening ty_wall_break (IZR px, IZR py) (Some 30) (Some 15) None 0.6
                          None [wall].

(** Two openings at least 30 px apart along one of the two axes. *)
Definition axis_apart (earlier later : Opening) : Prop :=
  30 <= Rabs (fst (op_position later) - fst (op_position earlier))
  \/ 30 <= Rabs (snd (op_position later) - snd (op_position earlier)).

(** The shape of a door opening between two walls of the list. *)
Definition door_opening_between `{OpenCV} (walls : list Wall) (gray : Image)
  (door : Opening) : Prop :=
  exists wall1 wall2,
    In wall1 walls /\ In wall2 walls
    /\ are_walls_parallel wall1 wall2 = true
    /\ 50 < wall_distance wall1 wall2 < 100
    /\ looks_like_door_opening wall1 wall2 gray = true
    /\ door = mkOpening ty_opening (get_opening_center wall1 wall2)
                        (Some (wall_distance wall1 wall2)) None None 0.7 None
                        [wall1; wall2].

(** The shape of a swing arc taken from a Hough circle. *)
Definition swing_of_arc (gray : Image) (door : Opening) : Prop :=
  exists (x y r : Z) (direction : string),
    Swings.is_door_swing_arc gray x y r = true
    /\ (direction = "right"%string \/ direction = "left"%string)
    /\ door = mkOpening ty_swing (IZR x, IZR y) None None (Some (IZR r)) 0.8
                        (Some direction) [].

(** The shape of a swing arc fitted to a contour. *)
Definition swing_of_curve (door : Opening) : Prop :=
  exists (x y r : Z) (direction : string),
    (25 <= r <= 84)%Z
    /\ (direction = "clockwise"%string \/ direction = "counterclockwise"%string)
    /\ door = mkOpening ty_swing_curve (IZR x, IZR y) None None (Some (IZR r)) 0.7
                        (Some direction) [].

(** The shape of a door symbol: an upright rectangle whose centre is
    within 15 px of the line through a wall. *)
Definition door_symbol_near (walls : list Wall) (door : Opening) : Prop :=
  exists x y w h : Z,
    (0 < w)%Z
    /\ 1.5 * IZR w < IZR h < 3 * IZR w
    /\ is_near_wall_tolerance ((x + w / 2)%Z, (y + h / 2)%Z) walls 15 = true
    /\ door = mkOpening ty_symbol (IZR (x + w / 2), IZR (y + h / 2))
                        (Some (IZR w)) (Some (IZR h)) None 0.6 None [].

(** A smoothed profile in which every entry but the last is at most its
    successor, and one in which every entry is at least its successor. *)
Fixpoint rises_but_last (smoothed : list R) : Prop :=
  match smoothed with
  | a :: ((b :: _ :: _) as rest) => a <= b /\ rises_but_last rest
  | _ => True
  end.

Fixpoint falls (smoothed : list R) : Prop :=
  match smoothed with
  | a :: ((b :: _) as rest) => b <= a /\ falls rest
  | _ => True
  end.

End Shapes.
Import Shapes.

(** ** A plan with a door opening, a swing contour and two door symbols *)

Module DoorExamples.

(** Two parallel walls 70 px apart, a door symbol 22 px from the centre
    of the gap between them, a second symbol further along the upper
    wall, and the contour of a quarter circle away from both. *)
Definition corridor_wall (y : Z) : Wall :=
  mkWall (0%Z, y) (400%Z, y) 400 0 horizontal 1 false 6 fuzzy_canny None.

Definition corridor : list Wall := [corridor_wall 120; corridor_wall 190].

Definition symbol_by_opening : Contour := mkContour 800 (195, 114, 20, 40)%Z.
Definition symbol_apart : Contour := mkContour 800 (300, 100, 20, 40)%Z.

Definition quarter_arc : Swings.Curve :=
  Swings.mkCurve [(540, 400); (528, 428); (500, 440); (527, 427); (539, 400)]%Z
                 100 (Returned (500, 400, 40)).

Definition door_plan : OpenCV := {|
  imread_gray := fun _ => Some page;
  np_std := fun _ => 60;
  HoughLinesP := fun _ _ _ _ => Returned None;
  canny_edge_count := fun _ y1 y2 x1 x2 => Returned ((y2 - y1) * (x2 - x1) / 20)%Z;
  region_mean := fun _ _ _ _ _ => 255;
  otsu_contours := fun _ => [symbol_by_opening; symbol_apart];
  otsu_inv_contours := fun _ => [];
  find_door_swings := fun _ => [];
  has_window_break_pattern := fun _ _ _ _ => false;
  has_window_pattern_at_point := fun _ _ _ _ => false
|}.

Definition door_curves : Swings.CircleFinder := {|
  Swings.HoughCircles := fun _ => Returned None;
  Swings.canny_curves := fun _ => [quarter_arc]
|}.

(** The detections of the three door detectors on this plan. *)
Definition corridor_opening : Opening :=
  mkOpening ty_opening (get_opening_center (corridor_wall 120) (corridor_wall 190))
            (Some (wall_distance (corridor_wall 120) (corridor_wall 190)))
            None None 0.7 None [corridor_wall 120; corridor_wall 190].

Definition arc_swing : Opening :=
  mkOpening ty_swing_curve (500, 400) None None (Some 40) 0.7
            (Some "counterclockwise"%string) [].

Definition symbol_door (x y : Z) : Opening :=
  mkOpening ty_symbol (IZR x, IZR y) (Some 20) (Some 40) None 0.6 None [].

End DoorExamples.
Import DoorExamples.

(** * Part II: properties *)

(** ** Facts about the numeric layer *)

Section NumFacts.

Lemma Rltb_true (x y : R) : x < y -> Rltb x y = true.
Proof. intros Hlt. unfold Rltb. destruct (Rlt_dec x y); [reflexivity | contradiction]. Qed.

Lemma Rltb_false (x y : R) : y <= x -> Rltb x y = false.
Proof. intros Hle. unfold Rltb. destruct (Rlt_dec x y); [lra | reflexivity]. Qed.

Lemma Rltb_lt (x y : R) : Rltb x y = true <-> x < y.
Proof. unfold Rltb. destruct (Rlt_dec x y); split; (easy || discriminate). Qed.

Lemma Rltb_ge (x y : R) : Rltb x y = false <-> y <= x.
Proof. unfold Rltb. destruct (Rlt_dec x y); split; try easy; try lra. Qed.

Lemma Rleb_true (x y : R) : x <= y -> Rleb x y = true.
Proof. intros Hle. unfold Rleb. destruct (Rle_dec x y); [reflexivity | contradiction]. Qed.

Lemma Rleb_false (x y : R) : y < x -> Rleb x y = false.
Proof. intros Hlt. unfold Rleb. destruct (Rle_dec x y); [lra | reflexivity]. Qed.

Lemma Rleb_le (x y : R) : Rleb x y = true <-> x <= y.
Proof. unfold Rleb. destruct (Rle_dec x y); split; (easy || discriminate). Qed.

Lemma Rleb_gt (x y : R) : Rleb x y = false <-> y < x.
Proof. unfold Rleb. destruct (Rle_dec x y); split; try easy; try lra. Qed.


Lemma Reqb_neq (x y : R) : Reqb x y = false <-> x <> y.
Proof. unfold Reqb. destruct (Req_dec_T x y); split; (easy || discriminate). Qed.

(** Comparing a square root with a non-negative constant. *)
Lemma sqrt_lt_const (d c : R) : 0 <= d -> 0 < c -> (sqrt d < c <-> d < c * c).
Proof.
  intros Hd Hc. split; intros Hlt.
  - apply sqrt_lt_0_alt. rewrite sqrt_square by lra. exact Hlt.
  - apply Rlt_le_trans with (sqrt (c * c)).
    + apply sqrt_lt_1_alt. lra.
    + rewrite sqrt_square; lra.
Qed.

Lemma const_lt_sqrt (d c : R) : 0 <= d -> 0 <= c -> (c < sqrt d <-> c * c < d).
Proof.
  intros Hd Hc. split; intros Hlt.
  - apply sqrt_lt_0_alt. rewrite sqrt_square by lra. exact Hlt.
  - apply Rle_lt_trans with (sqrt (c * c)).
    + rewrite sqrt_square; lra.
    + apply sqrt_lt_1_alt. split; [nra | lra].
Qed.

Lemma clamp_bounds (lo hi x : R) : lo <= hi -> lo <= clamp lo hi x <= hi.
Proof.
  intros Hle. unfold clamp, Rmin, Rmax.
  destruct (Rle_dec x lo); destruct (Rle_dec _ hi); lra.
Qed.

Lemma py_int_IZR (z : Z) : py_int (IZR z) = z.
Proof.
  unfold py_int. destruct (Rlt_dec (IZR z) 0).
  - rewrite <- opp_IZR. rewrite <- (Int_part_spec (IZR (- z)) (- z)); [lia|]. lra.
  - symmetry. apply Int_part_spec. lra.
Qed.

(** [py_int] truncates toward zero. *)
Lemma py_int_spec (x : R) :
  (0 <= x -> IZR (py_int x) <= x < IZR (py_int x) + 1)
  /\ (x < 0 -> IZR (py_int x) - 1 < x <= IZR (py_int x)).
Proof.
  unfold py_int. split; intros Hx.
  - destruct (Rlt_dec x 0); [lra|].
    destruct (base_Int_part x). lra.
  - destruct (Rlt_dec x 0); [|lra].
    rewrite opp_IZR. destruct (base_Int_part (- x)). lra.
Qed.

End NumFacts.

(** Case analysis on every float comparison in the goal. *)
Ltac split_comparisons :=
  unfold Rltb, Rleb, Reqb in *;
  repeat match goal with
         | |- context [Rlt_dec ?x ?y] => destruct (Rlt_dec x y)
         | |- context [Rle_dec ?x ?y] => destruct (Rle_dec x y)
         | |- context [Req_dec_T ?x ?y] => destruct (Req_dec_T x y)
         | H : context [Rlt_dec ?x ?y] |- _ => destruct (Rlt_dec x y)
         | H : context [Rle_dec ?x ?y] |- _ => destruct (Rle_dec x y)
         end.

(** Case analysis on the sign tests hidden in [Rabs], [Rmin], [Rmax]. *)
Ltac split_abs :=
  unfold Rabs, Rmin, Rmax in *;
  repeat match goal with
         | |- context [Rcase_abs ?x] => destruct (Rcase_abs x)
         | H : context [Rcase_abs ?x] |- _ => destruct (Rcase_abs x)
         | |- context [Rle_dec ?x ?y] => destruct (Rle_dec x y)
         | H : context [Rle_dec ?x ?y] |- _ => destruct (Rle_dec x y)
         end.

(** Evaluate the integer arithmetic under every [IZR]. *)
Ltac eval_IZR :=
  repeat match goal with
         | |- context [IZR ?z] =>
             let z' := eval vm_compute in z in
             progress change (IZR z) with (IZR z')
         end.

(** ** AngleClassifier *)

Section AngleFacts.

Lemma is_horizontal_iff (angle : R) :
  is_horizontal angle = true <-> Rabs angle < 15 \/ 165 < Rabs angle.
Proof.
  unfold is_horizontal, classify_angle_fuzzy; cbn [fst snd].
  rewrite orb_true_iff, !Rltb_lt. tauto.
Qed.

Lemma is_vertical_iff (angle : R) :
  is_vertical angle = true <-> 75 < Rabs angle < 105.
Proof.
  unfold is_vertical, classify_angle_fuzzy; cbn [fst snd].
  rewrite andb_true_iff, !Rltb_lt. tauto.
Qed.

Lemma is_diagonal_iff (angle : R) :
  is_diagonal angle = true
  <-> 35 < Rabs angle < 55 \/ 125 < Rabs angle < 145.
Proof.
  unfold is_diagonal, classify_angle_fuzzy; cbn [fst snd].
  rewrite orb_true_iff, !andb_true_iff, !Rltb_lt. tauto.
Qed.

Lemma bands_disjoint (angle : R) :
  (is_horizontal angle && is_vertical angle = false)
  /\ (is_horizontal angle && is_diagonal angle = false)
  /\ (is_vertical angle && is_diagonal angle = false).
Proof.
  destruct (is_horizontal angle) eqn:Hh;
    destruct (is_vertical angle) eqn:Hv;
    destruct (is_diagonal angle) eqn:Hd;
    cbn; repeat split; try reflexivity; exfalso;
    try (apply is_horizontal_iff in Hh);
    try (apply is_vertical_iff in Hv);
    try (apply is_diagonal_iff in Hd); lra.
Qed.

(** The orientation tag of a candidate wall names the one band its
    angle lies in. *)
Lemma candidate_of_line_type (gray : Image) (line : Z * Z * Z * Z) (w : Wall) :
  In w (candidate_of_line gray line) ->
  (wall_type w = horizontal <-> is_horizontal (wall_angle w) = true)
  /\ (wall_type w = vertical <-> is_vertical (wall_angle w) = true)
  /\ (wall_type w = diagonal <-> is_diagonal (wall_angle w) = true).
Proof.
  destruct line as [[[x1 y1] x2] y2]. unfold candidate_of_line.
  change (classify_angle_fuzzy ?a)
    with (is_horizontal a, is_vertical a, is_diagonal a, angle_confidence a).
  set (angle := arctan2 _ _ * 180 / PI).
  destruct (bands_disjoint angle) as (Hhv & Hhd & Hvd).
  destruct (is_horizontal angle) eqn:Hh; destruct (is_vertical angle) eqn:Hv;
    destruct (is_diagonal angle) eqn:Hd; try discriminate;
    cbn [orb andb];
    first [ solve [intros []]
          | destruct (_ && Rltb 100 _); [|intros []];
            intros [<-|[]]; cbn [wall_type wall_angle]; rewrite ?Hh, ?Hv, ?Hd;
            repeat split; intros; congruence ].
Qed.

(** C5.  For every angle in [-180, 180] at most one of the predicates
    [is_horizontal], [is_vertical], [is_diagonal] returned by
    [classify_angle_fuzzy] is true: no two of them hold together, and
    the number of true predicates is at most one.  So the orientation
    tag of a candidate wall names the only band its angle lies in. *)
Theorem angle_classification_exclusive (angle : R) :
  -180 <= angle <= 180 ->
  (is_horizontal angle && is_vertical angle = false)
  /\ (is_horizontal angle && is_diagonal angle = false)
  /\ (is_vertical angle && is_diagonal angle = false)
  /\ (orientation_count angle <= 1)%nat
  /\ (forall (gray : Image) (line : Z * Z * Z * Z) (w : Wall),
        In w (candidate_of_line gray line) ->
        (wall_type w = horizontal <-> is_horizontal (wall_angle w) = true)
        /\ (wall_type w = vertical <-> is_vertical (wall_angle w) = true)
        /\ (wall_type w = diagonal <-> is_diagonal (wall_angle w) = true)).
Proof.
  intros _.
  destruct (bands_disjoint angle) as (Hhv & Hhd & Hvd).
  split; [exact Hhv|]. split; [exact Hhd|]. split; [exact Hvd|].
  split; [|exact candidate_of_line_type].
  unfold orientation_count.
  destruct (is_horizontal angle); destruct (is_vertical angle);
    destruct (is_diagonal angle); cbn in *; try discriminate; lia.
Qed.

Lemma angle_classification_exclusive_witness :
  -180 <= 10 <= 180
  /\ (is_horizontal 10 && is_vertical 10 = false)
  /\ (is_horizontal 10 && is_diagonal 10 = false)
  /\ (is_vertical 10 && is_diagonal 10 = false)
  /\ (orientation_count 10 <= 1)%nat.
Proof.
  assert (Hrange : -180 <= 10 <= 180) by lra.
  destruct (angle_classification_exclusive 10 Hrange) as (Hhv & Hhd & Hvd & Hcount & _).
  repeat split; try lra; assumption.
Defined.

End AngleFacts.

Section ConfidenceProfile.

Lemma angle_confidence_horizontal (angle : R) :
  is_horizontal angle = true ->
  angle_confidence angle = Rmax 0.5 (1 - horizontal_deviation angle / 15).
Proof.
  intros Hh. unfold is_horizontal in Hh. unfold angle_confidence.
  unfold classify_angle_fuzzy in *. cbn [fst snd] in *. rewrite Hh.
  f_equal; lra.
Qed.

Lemma angle_confidence_vertical (angle : R) :
  is_vertical angle = true ->
  angle_confidence angle = Rmax 0.5 (1 - vertical_deviation angle / 15).
Proof.
  intros Hv.
  assert (Hh : is_horizontal angle = false).
  { destruct (is_horizontal angle) eqn:Hh; [|reflexivity].
    apply is_horizontal_iff in Hh. apply is_vertical_iff in Hv. lra. }
  unfold is_horizontal in Hh. unfold is_vertical in Hv. unfold angle_confidence.
  unfold classify_angle_fuzzy in *. cbn [fst snd] in *. rewrite Hh, Hv.
  f_equal; lra.
Qed.

Lemma angle_confidence_diagonal (angle : R) :
  is_diagonal angle = true ->
  angle_confidence angle = Rmax 0.4 (1 - diagonal_deviation angle / 20).
Proof.
  intros Hd.
  assert (Hh : is_horizontal angle = false).
  { destruct (is_horizontal angle) eqn:Hh; [|reflexivity].
    apply is_horizontal_iff in Hh. apply is_diagonal_iff in Hd. lra. }
  assert (Hv : is_vertical angle = false).
  { destruct (is_vertical angle) eqn:Hv; [|reflexivity].
    apply is_vertical_iff in Hv. apply is_diagonal_iff in Hd. lra. }
  unfold is_horizontal in Hh. unfold is_vertical in Hv. unfold is_diagonal in Hd.
  unfold angle_confidence.
  unfold classify_angle_fuzzy in *. cbn [fst snd] in *. rewrite Hh, Hv, Hd.
  f_equal; lra.
Qed.

(** C3, as the code has it.  Inside a band the confidence is
    [max(floor, 1 - deviation / D)] with [D = 15] for horizontal and
    vertical and [D = 20] for diagonal.  For an angle in [-180, 180]:
    in the horizontal and vertical bands (deviation below 15) it falls
    linearly from 1.0 with slope 1/15, reaches the floor 0.5 at a
    deviation of 7.5 degrees and stays there up to the band edge; in the
    diagonal bands (deviation below 10) it falls linearly with slope
    1/20, stays above 0.5 and never reaches the floor 0.4. *)
Theorem angle_confidence_profile (angle : R) :
  -180 <= angle <= 180 ->
  (is_horizontal angle = true ->
     horizontal_deviation angle < 15
     /\ angle_confidence angle = Rmax 0.5 (1 - horizontal_deviation angle / 15)
     /\ (horizontal_deviation angle <= 7.5 ->
         angle_confidence angle = 1 - horizontal_deviation angle / 15)
     /\ (7.5 <= horizontal_deviation angle -> angle_confidence angle = 0.5))
  /\ (is_vertical angle = true ->
     vertical_deviation angle < 15
     /\ angle_confidence angle = Rmax 0.5 (1 - vertical_deviation angle / 15)
     /\ (vertical_deviation angle <= 7.5 ->
         angle_confidence angle = 1 - vertical_deviation angle / 15)
     /\ (7.5 <= vertical_deviation angle -> angle_confidence angle = 0.5))
  /\ (is_diagonal angle = true ->
     diagonal_deviation angle < 10
     /\ angle_confidence angle = 1 - diagonal_deviation angle / 20
     /\ 0.5 < angle_confidence angle).
Proof.
  intros Hrange. split; [|split].
  - intros Hh. rewrite (angle_confidence_horizontal _ Hh).
    assert (Hdev : 0 <= horizontal_deviation angle < 15).
    { apply is_horizontal_iff in Hh. unfold horizontal_deviation. split_abs; lra. }
    split; [lra|]. split; [reflexivity|].
    split; intros Hcase; unfold Rmax; destruct (Rle_dec _ _); lra.
  - intros Hv. rewrite (angle_confidence_vertical _ Hv).
    assert (Hdev : 0 <= vertical_deviation angle < 15).
    { apply is_vertical_iff in Hv. unfold vertical_deviation. split_abs; lra. }
    split; [lra|]. split; [reflexivity|].
    split; intros Hcase; unfold Rmax; destruct (Rle_dec _ _); lra.
  - intros Hd. rewrite (angle_confidence_diagonal _ Hd).
    assert (Hdev : 0 <= diagonal_deviation angle < 10).
    { apply is_diagonal_iff in Hd. unfold diagonal_deviation. split_abs; lra. }
    split; [lra|].
    assert (Hmax : Rmax 0.4 (1 - diagonal_deviation angle / 20)
                   = 1 - diagonal_deviation angle / 20).
    { unfold Rmax. destruct (Rle_dec _ _); lra. }
    rewrite Hmax. split; [reflexivity | lra].
Qed.

Lemma is_horizontal_10 : is_horizontal 10 = true.
Proof. apply is_horizontal_iff. left. unfold Rabs. destruct (Rcase_abs 10); lra. Qed.

Lemma is_diagonal_50 : is_diagonal 50 = true.
Proof. apply is_diagonal_iff. left. unfold Rabs. destruct (Rcase_abs 50); lra. Qed.

Lemma horizontal_deviation_10 : horizontal_deviation 10 = 10.
Proof. unfold horizontal_deviation. split_abs; lra. Qed.

Lemma diagonal_deviation_50 : diagonal_deviation 50 = 5.
Proof. unfold diagonal_deviation. split_abs; lra. Qed.

Lemma angle_confidence_profile_witness :
  -180 <= 10 <= 180
  /\ is_horizontal 10 = true
  /\ horizontal_deviation 10 < 15
  /\ angle_confidence 10 = 0.5.
Proof.
  assert (Hrange : -180 <= 10 <= 180) by lra.
  destruct (angle_confidence_profile 10 Hrange) as [Hh _].
  destruct (Hh is_horizontal_10) as (Hdev & _ & _ & Hfloor).
  repeat split; try lra; try exact is_horizontal_10; try exact Hdev.
  apply Hfloor. rewrite horizontal_deviation_10. lra.
Defined.

(** C3, as stated, fails.  At 10 degrees (horizontal band, 5 degrees
    inside the band edge) the code already returns the floor 0.5, where
    the linear profile that reaches 0.5 at the edge gives 2/3; at 50
    degrees (diagonal band) the code returns 0.75, where the linear
    profile that reaches 0.4 at 10 degrees deviation gives 0.7. *)
Lemma angle_confidence_floor_not_at_edge :
  (is_horizontal 10 = true
   /\ horizontal_deviation 10 = 10
   /\ angle_confidence 10 = 0.5
   /\ spec_angle_confidence 10 = 2 / 3
   /\ angle_confidence 10 <> spec_angle_confidence 10)
  /\ (is_diagonal 50 = true
      /\ diagonal_deviation 50 = 5
      /\ angle_confidence 50 = 0.75
      /\ spec_angle_confidence 50 = 0.7
      /\ angle_confidence 50 <> spec_angle_confidence 50).
Proof.
  assert (Hc10 : angle_confidence 10 = 0.5).
  { rewrite (angle_confidence_horizontal _ is_horizontal_10), horizontal_deviation_10.
    unfold Rmax. destruct (Rle_dec _ _); lra. }
  assert (Hs10 : spec_angle_confidence 10 = 2 / 3).
  { unfold spec_angle_confidence. rewrite is_horizontal_10, horizontal_deviation_10.
    unfold spec_linear_confidence. lra. }
  assert (Hc50 : angle_confidence 50 = 0.75).
  { rewrite (angle_confidence_diagonal _ is_diagonal_50), diagonal_deviation_50.
    unfold Rmax. destruct (Rle_dec _ _); lra. }
  assert (Hh50 : is_horizontal 50 = false).
  { destruct (is_horizontal 50) eqn:Hh; [|reflexivity].
    apply is_horizontal_iff in Hh. revert Hh. unfold Rabs. destruct (Rcase_abs 50); lra. }
  assert (Hv50 : is_vertical 50 = false).
  { destruct (is_vertical 50) eqn:Hv; [|reflexivity].
    apply is_vertical_iff in Hv. revert Hv. unfold Rabs. destruct (Rcase_abs 50); lra. }
  assert (Hs50 : spec_angle_confidence 50 = 0.7).
  { unfold spec_angle_confidence. rewrite Hh50, Hv50, is_diagonal_50, diagonal_deviation_50.
    unfold spec_linear_confidence. lra. }
  repeat split; try exact is_horizontal_10; try exact horizontal_deviation_10;
    try exact is_diagonal_50; try exact diagonal_deviation_50; try assumption.
  - rewrite Hc10, Hs10. lra.
  - rewrite Hc50, Hs50. lra.
Qed.

End ConfidenceProfile.

(** ** LineGrouper: the parallel-and-close predicate *)

Section ParallelAndClose.

(** C6, as the code has it.  Two segments are parallel and close
    exactly when (a) the angle difference, reduced to [360 - diff] when
    above 180, is at most 15 degrees and (b) the midpoint distance is
    strictly above 1 px and below the scale-adaptive threshold: 50 px when
    the average length exceeds 500 px, 30 px when it exceeds 200 px, 15 px
    otherwise. *)
Theorem are_parallel_and_close_iff (line1 line2 : Wall) :
  let diff := Rabs (wall_angle line1 - wall_angle line2) in
  let avg_length := (wall_length line1 + wall_length line2) / 2 in
  let distance := line_to_line_distance line1 line2 in
  are_parallel_and_close line1 line2 = true
  <-> ((diff <= 180 /\ diff <= 15) \/ (180 < diff /\ 360 - diff <= 15))
      /\ 1 < distance
      /\ ((500 < avg_length /\ distance < 50)
          \/ (200 < avg_length <= 500 /\ distance < 30)
          \/ (avg_length <= 200 /\ distance < 15)).
Proof.
  cbv zeta.
  unfold are_parallel_and_close, wrapped_angle_diff, max_thickness.
  set (diff := Rabs (wall_angle line1 - wall_angle line2)).
  set (avg := (wall_length line1 + wall_length line2) / 2).
  set (distance := line_to_line_distance line1 line2).
  destruct (Rltb 180 diff) eqn:Hwrap;
    [apply Rltb_lt in Hwrap | apply Rltb_ge in Hwrap].
  - destruct (Rltb 15 (360 - diff)) eqn:H15;
      [apply Rltb_lt in H15 | apply Rltb_ge in H15].
    + split; [discriminate | intros [[[? ?]|[? ?]] _]; lra].
    + rewrite andb_true_iff, !Rltb_lt.
      destruct (Rltb 500 avg) eqn:H500;
        [apply Rltb_lt in H500 | apply Rltb_ge in H500].
      * intuition lra.
      * destruct (Rltb 200 avg) eqn:H200;
          [apply Rltb_lt in H200 | apply Rltb_ge in H200]; intuition lra.
  - destruct (Rltb 15 diff) eqn:H15;
      [apply Rltb_lt in H15 | apply Rltb_ge in H15].
    + split; [discriminate | intros [[[? ?]|[? ?]] _]; lra].
    + rewrite andb_true_iff, !Rltb_lt.
      destruct (Rltb 500 avg) eqn:H500;
        [apply Rltb_lt in H500 | apply Rltb_ge in H500].
      * intuition lra.
      * destruct (Rltb 200 avg) eqn:H200;
          [apply Rltb_lt in H200 | apply Rltb_ge in H200]; intuition lra.
Qed.

Lemma adjacent_strokes_distance :
  line_to_line_distance stroke_row_100 stroke_row_101 = 1.
Proof.
  unfold line_to_line_distance, stroke_row_100, stroke_row_101.
  cbn [wall_start wall_end fst snd]. eval_IZR.
  replace ((300 / 2 - 300 / 2) ^ 2 + (202 / 2 - 200 / 2) ^ 2) with 1 by lra.
  apply sqrt_1.
Qed.

(** C6, as stated, fails: strokes whose midpoints are exactly 1 px apart
    satisfy (a) and (b) of the claim (angle difference 0, distance 1
    below the 30-px threshold for an average length of 300), but the
    code does not hold them parallel and close. *)
Lemma adjacent_strokes_not_grouped :
  wrapped_angle_diff stroke_row_100 stroke_row_101 <= 15
  /\ line_to_line_distance stroke_row_100 stroke_row_101 < max_thickness stroke_row_100 stroke_row_101
  /\ spec_parallel_and_close stroke_row_100 stroke_row_101 = true
  /\ are_parallel_and_close stroke_row_100 stroke_row_101 = false.
Proof.
  assert (Hdiff : wrapped_angle_diff stroke_row_100 stroke_row_101 = 0).
  { unfold wrapped_angle_diff. cbn [wall_angle stroke_row_100 stroke_row_101].
    replace (0 - 0) with 0 by lra. rewrite Rabs_R0.
    rewrite Rltb_false by lra. reflexivity. }
  assert (Hmax : max_thickness stroke_row_100 stroke_row_101 = 30).
  { unfold max_thickness. cbn [wall_length stroke_row_100 stroke_row_101].
    rewrite Rltb_false by lra. rewrite Rltb_true by lra. reflexivity. }
  repeat split.
  - rewrite Hdiff. lra.
  - rewrite adjacent_strokes_distance, Hmax. lra.
  - unfold spec_parallel_and_close.
    rewrite Hdiff, Hmax, adjacent_strokes_distance.
    rewrite Rleb_true by lra. rewrite Rltb_true by lra. reflexivity.
  - unfold are_parallel_and_close.
    rewrite Hdiff, Hmax, adjacent_strokes_distance.
    rewrite (Rltb_false 15 0) by lra. rewrite (Rltb_false 1 1) by lra. reflexivity.
Qed.

End ParallelAndClose.

(** ** Point-to-wall helpers *)

Section NearWallFacts.

Lemma degenerate_iff (x1 y1 x2 y2 : Z) :
  ((y2 - y1 =? 0)%Z && (x1 - x2 =? 0)%Z = true) <-> (x1, y1) = (x2, y2).
Proof.
  rewrite andb_true_iff, !Z.eqb_eq. split.
  - intros [Hy Hx]. f_equal; lia.
  - intros Heq. injection Heq as -> ->. lia.
Qed.

Lemma squares_positive (a b : Z) : (a <> 0 \/ b <> 0)%Z -> 0 < sqrt (IZR (a * a + b * b)).
Proof.
  intros Hab. apply sqrt_lt_R0. apply IZR_lt. nia.
Qed.

Lemma point_to_line_distance_degenerate (px py : Z) (wall : Wall) :
  wall_start wall = wall_end wall -> point_to_line_distance px py wall = Infinity.
Proof.
  intros Heq. unfold point_to_line_distance.
  destruct (wall_start wall) as [x1 y1], (wall_end wall) as [x2 y2].
  apply degenerate_iff in Heq. rewrite Heq. reflexivity.
Qed.

Lemma point_to_line_distance_regular (px py : Z) (wall : Wall) :
  wall_start wall <> wall_end wall ->
  let A := (snd (wall_end wall) - snd (wall_start wall))%Z in
  let B := (fst (wall_start wall) - fst (wall_end wall))%Z in
  let C := (fst (wall_end wall) * snd (wall_start wall)
            - fst (wall_start wall) * snd (wall_end wall))%Z in
  0 < sqrt (IZR (A * A + B * B))
  /\ point_to_line_distance px py wall
     = Finite (IZR (Z.abs (A * px + B * py + C)) / sqrt (IZR (A * A + B * B))).
Proof.
  intros Hne. unfold point_to_line_distance.
  destruct (wall_start wall) as [x1 y1], (wall_end wall) as [x2 y2].
  cbn [fst snd].
  assert (Hpos : 0 < sqrt (IZR ((y2 - y1) * (y2 - y1) + (x1 - x2) * (x1 - x2)))).
  { apply squares_positive.
    destruct (Z.eq_dec y2 y1) as [->|]; [|lia].
    destruct (Z.eq_dec x1 x2) as [->|]; [|lia].
    contradiction Hne. reflexivity. }
  split; [exact Hpos|].
  destruct ((y2 - y1 =? 0)%Z && (x1 - x2 =? 0)%Z) eqn:Hdeg.
  - apply degenerate_iff in Hdeg. contradiction.
  - unfold divide. rewrite (proj2 (Reqb_neq _ _)) by lra. reflexivity.
Qed.





End NearWallFacts.

(** ** The two definitions of [is_near_wall] *)

Section Shadowing.

Lemma class_namespace_is_near_wall :
  class_namespace !! "is_near_wall"%string
  = Some (PointWallsTolerance 15 is_near_wall_tolerance).
Proof.
  unfold class_namespace, class_body. cbn [fold_left fst snd].
  apply lookup_insert_eq.
Qed.

Lemma self_is_near_wall_returns (point : Z * Z) (walls : list Wall) (tolerance : option R) :
  self_call "is_near_wall" point walls tolerance
  = Returned (is_near_wall_tolerance point walls
                (match tolerance with Some t => t | None => 15 end)).
Proof.
  unfold self_call. rewrite class_namespace_is_near_wall.
  destruct tolerance; reflexivity.
Qed.

Lemma self_is_near_wall_eq (point : Z * Z) (walls : list Wall) (tolerance : option R) :
  self_is_near_wall point walls tolerance
  = is_near_wall_tolerance point walls
      (match tolerance with Some t => t | None => 15 end).
Proof.
  unfold self_is_near_wall. rewrite self_is_near_wall_returns. reflexivity.
Qed.

Lemma floor_wall_distance_17 :
  point_to_line_distance 0 17 floor_wall = Finite 17.
Proof.
  assert (Hne : wall_start floor_wall <> wall_end floor_wall) by discriminate.
  destruct (point_to_line_distance_regular 0 17 floor_wall Hne) as [_ ->].
  cbn [floor_wall wall_start wall_end fst snd]. eval_IZR.
  replace 10000 with (100 * 100) by lra. rewrite sqrt_square by lra.
  f_equal. lra.
Qed.

(** C9.  The class namespace binds [is_near_wall] to the second
    definition (tolerance parameter, default 15), which replaces the
    first (fixed 20 px).  So a call that omits the tolerance returns
    true exactly when some wall lies at a distance below 15 px, and the
    door-symbol detector keeps a door-sized, door-shaped contour exactly
    when its centre passes that 15-px test.  The point (0, 17), 17 px
    from a wall, separates the two definitions: near under the shadowed
    20-px definition, not near under the call as resolved. *)
Theorem is_near_wall_resolves_to_second :
  class_namespace !! "is_near_wall"%string
  = Some (PointWallsTolerance 15 is_near_wall_tolerance)
  /\ (forall (px py : Z) (walls : list Wall),
        self_call "is_near_wall" (px, py) walls None
        = Returned (existsb (fun wall =>
                      distance_below (point_to_line_distance px py wall) 15) walls))
  /\ (forall (walls : list Wall) (area : R) (x y w h : Z),
        200 < area < 2000 ->
        (0 < w)%Z ->
        1.5 < IZR h / IZR w < 3.0 ->
        door_symbol_of_contour walls (mkContour area (x, y, w, h)) <> []
        <-> existsb (fun wall =>
              distance_below
                (point_to_line_distance (x + w / 2) (y + h / 2) wall) 15) walls = true)
  /\ is_near_wall_fixed (0, 17)%Z [floor_wall] = true
  /\ self_call "is_near_wall" (0, 17)%Z [floor_wall] None = Returned false.
Proof.
  split; [exact class_namespace_is_near_wall|].
  split; [intros px py walls; apply self_is_near_wall_returns|].
  split.
  - intros walls area x y w h [Ha1 Ha2] Hw [Hr1 Hr2].
    unfold door_symbol_of_contour. cbn [contour_area contour_rect].
    rewrite (Rltb_true 200 area), (Rltb_true area 2000) by lra. cbn [andb].
    rewrite (proj2 (Z.ltb_lt 0 w) Hw).
    rewrite (Rltb_true 1.5), (Rltb_true _ 3.0) by lra. cbn [andb].
    rewrite self_is_near_wall_eq. unfold is_near_wall_tolerance.
    destruct (existsb _ walls); split; intros; try discriminate; try congruence.
  - split.
    + unfold is_near_wall_fixed. cbn [existsb].
      rewrite floor_wall_distance_17. cbn [distance_below].
      rewrite Rltb_true by lra. reflexivity.
    + rewrite self_is_near_wall_returns. unfold is_near_wall_tolerance.
      cbn [existsb]. rewrite floor_wall_distance_17. cbn [distance_below].
      rewrite Rltb_false by lra. reflexivity.
Qed.

Lemma is_near_wall_resolves_to_second_witness :
  200 < 800 < 2000
  /\ (0 < 20)%Z
  /\ 1.5 < IZR 40 / IZR 20 < 3.0
  /\ (door_symbol_of_contour [floor_wall] (mkContour 800 (0, 0, 20, 40)%Z) <> []
      <-> existsb (fun wall =>
            distance_below
              (point_to_line_distance (0 + 20 / 2) (0 + 40 / 2) wall) 15) [floor_wall] = true).
Proof.
  assert (Harea : 200 < 800 < 2000) by lra.
  assert (Hw : (0 < 20)%Z) by lia.
  assert (Hratio : 1.5 < IZR 40 / IZR 20 < 3.0) by lra.
  destruct is_near_wall_resolves_to_second as (_ & _ & Hsym & _).
  repeat split; try lra; try lia;
    apply (Hsym [floor_wall] 800 0%Z 0%Z 20%Z 40%Z Harea Hw Hratio).
Defined.

End Shadowing.

(** ** Lists *)

Section ListFacts.

Context {A : Type}.

Lemma firstn_In (n : nat) (l : list A) (x : A) : In x (firstn n l) -> In x l.
Proof.
  revert l. induction n as [|n IH]; intros l Hin; [contradiction|].
  destruct l as [|y l]; [contradiction|].
  destruct Hin as [<-|Hin]; [left; reflexivity | right; apply IH; exact Hin].
Qed.

End ListFacts.

(** ** The stable descending sort *)

Section SortFacts.

Context {A : Type} (key : A -> R).

(** [desc a b]: [a] may stand before [b] in descending key order. *)
Let desc (a b : A) : Prop := key b <= key a.

Lemma insert_desc_perm (x : A) (l : list A) :
  Permutation (x :: l) (insert_desc key x l).
Proof.
  induction l as [|y l IH]; cbn [insert_desc].
  - reflexivity.
  - destruct (Rltb (key x) (key y)).
    + rewrite perm_swap. apply perm_skip. exact IH.
    + reflexivity.
Qed.

Lemma sort_desc_perm (l : list A) : Permutation l (sort_desc key l).
Proof.
  induction l as [|x l IH]; cbn [sort_desc fold_right].
  - reflexivity.
  - rewrite <- insert_desc_perm. apply perm_skip. exact IH.
Qed.

Lemma sort_desc_length (l : list A) : length (sort_desc key l) = length l.
Proof. symmetry. apply Permutation_length, sort_desc_perm. Qed.

Lemma sort_desc_In (x : A) (l : list A) : In x (sort_desc key l) <-> In x l.
Proof.
  split; apply Permutation_in; [symmetry|]; apply sort_desc_perm.
Qed.

Lemma insert_desc_sorted (x : A) (l : list A) :
  StronglySorted desc l -> StronglySorted desc (insert_desc key x l).
Proof.
  induction l as [|y l IH]; intros Hs; cbn [insert_desc].
  - constructor; constructor.
  - inversion Hs as [|? ? Hl Hy]; subst.
    destruct (Rltb (key x) (key y)) eqn:Hxy.
    + apply Rltb_lt in Hxy. constructor; [apply IH; exact Hl|].
      apply List.Forall_forall. intros z Hz.
      apply (Permutation_in _ (Permutation_sym (insert_desc_perm x l))) in Hz.
      destruct Hz as [<-|Hz]; [unfold desc; lra|].
      rewrite List.Forall_forall in Hy. apply Hy; exact Hz.
    + apply Rltb_ge in Hxy. constructor; [exact Hs|].
      constructor; [exact Hxy|].
      rewrite List.Forall_forall in Hy |- *. intros z Hz.
      specialize (Hy z Hz). unfold desc in *. lra.
Qed.

Lemma sort_desc_sorted (l : list A) : StronglySorted desc (sort_desc key l).
Proof.
  induction l as [|x l IH]; cbn [sort_desc fold_right].
  - constructor.
  - apply insert_desc_sorted. exact IH.
Qed.

Lemma sorted_app_le (l1 l2 : list A) :
  StronglySorted desc (l1 ++ l2) ->
  forall a b : A, In a l1 -> In b l2 -> key b <= key a.
Proof.
  induction l1 as [|x l1 IH]; intros Hs a b Ha Hb; [contradiction|].
  cbn [app] in Hs. inversion Hs as [|? ? Hl Hx]; subst.
  destruct Ha as [<-|Ha].
  - rewrite List.Forall_forall in Hx. apply Hx. apply in_or_app. right; exact Hb.
  - exact (IH Hl a b Ha Hb).
Qed.

(** The first [n] of a sorted list dominate the rest. *)
Lemma sort_desc_firstn_dominates (n : nat) (l : list A) (a b : A) :
  In a (firstn n (sort_desc key l)) ->
  In b (skipn n (sort_desc key l)) ->
  key b <= key a.
Proof.
  apply sorted_app_le. rewrite firstn_skipn. apply sort_desc_sorted.
Qed.

End SortFacts.

(** ** Candidate walls *)

Section CandidateFacts.

Lemma sample_offsets_lower (gray : Image) (mid_x mid_y : Z) (perp_dx perp_dy : R)
  (offsets : list nat) (thickness : R) :
  6 <= thickness ->
  (forall offset, In offset offsets -> (3 <= offset)%nat) ->
  6 <= sample_offsets gray mid_x mid_y perp_dx perp_dy offsets thickness.
Proof.
  intros Ht. induction offsets as [|offset rest IH]; intros Hoff; cbn [sample_offsets].
  - exact Ht.
  - assert (Hrest : forall o, In o rest -> (3 <= o)%nat)
      by (intros o Ho; apply Hoff; right; exact Ho).
    assert (H3 : 3 <= INR offset).
    { replace 3 with (INR 3) by (cbn; lra). apply le_INR. apply Hoff. left; reflexivity. }
    destruct (_ && _); [destruct (_ <? _)%Z|]; try (apply IH; exact Hrest). lra.
Qed.

(** The raw estimate lies in [6, 25], whatever the line and the image. *)
Lemma estimate_thickness_bounds (x1 y1 x2 y2 : Z) (gray : Image) :
  6 <= estimate_thickness x1 y1 x2 y2 gray <= 25.
Proof.
  unfold estimate_thickness.
  destruct (_ <? 0)%Z.
  { unfold clamp, Rmin, Rmax. destruct (Rle_dec 6.0 3); destruct (Rle_dec _ 25); lra. }
  destruct (Reqb _ 0); [lra|].
  match goal with |- context [sample_offsets ?g ?a ?b ?c ?d ?o ?t] =>
    pose proof (sample_offsets_lower g a b c d o t) as Hlow;
    set (thickness := sample_offsets g a b c d o t) in * end.
  assert (H6 : 6 <= thickness).
  { apply Hlow; [lra|]. intros offset Hin. apply in_seq in Hin. lia. }
  unfold clamp, Rmin, Rmax.
  destruct (Rle_dec thickness 3); destruct (Rle_dec _ 25); lra.
Qed.

Lemma classify_components (angle : R) :
  classify_angle_fuzzy angle
  = (is_horizontal angle, is_vertical angle, is_diagonal angle, angle_confidence angle).
Proof. reflexivity. Qed.

Lemma angle_confidence_lower (angle : R) :
  is_horizontal angle || is_vertical angle || is_diagonal angle = true ->
  0.4 <= angle_confidence angle <= 1.
Proof.
  intros Hband.
  destruct (is_horizontal angle) eqn:Hh.
  { rewrite (angle_confidence_horizontal _ Hh).
    unfold horizontal_deviation. split_abs; lra. }
  destruct (is_vertical angle) eqn:Hv.
  { rewrite (angle_confidence_vertical _ Hv).
    unfold vertical_deviation. split_abs; lra. }
  cbn [orb] in Hband.
  rewrite (angle_confidence_diagonal _ Hband).
  unfold diagonal_deviation. split_abs; lra.
Qed.

Lemma candidate_of_line_sound (gray : Image) (line : Z * Z * Z * Z) (w : Wall) :
  In w (candidate_of_line gray line) ->
  sound_wall w
  /\ wall_source w = fuzzy_canny
  /\ exists x1 y1 x2 y2,
       line = (x1, y1, x2, y2)
       /\ wall_thickness w = estimate_thickness x1 y1 x2 y2 gray.
Proof.
  destruct line as [[[x1 y1] x2] y2]. unfold candidate_of_line.
  rewrite classify_components.
  set (angle := arctan2 _ _ * 180 / PI).
  destruct (is_horizontal angle || is_vertical angle || is_diagonal angle) eqn:Hband;
    [|intros []].
  destruct (_ && Rltb 100 _) eqn:Hlen; [|intros []].
  cbn [andb]. intros [<-|[]].
  apply andb_true_iff in Hlen. destruct Hlen as [_ Hlen].
  apply Rltb_lt in Hlen.
  pose proof (angle_confidence_lower angle Hband) as [Hc _].
  pose proof (estimate_thickness_bounds x1 y1 x2 y2 gray) as [Ht1 Ht2].
  unfold sound_wall.
  cbn [wall_length wall_confidence wall_thickness wall_source].
  split; [|split; [reflexivity|]].
  - split; [exact Hlen|]. split; [exact Hc|]. split; [lra|]. right. exact Ht1.
  - exists x1, y1, x2, y2. split; reflexivity.
Qed.

Lemma candidate_walls_sound (gray : Image) (lines : list (Z * Z * Z * Z)) :
  Forall sound_wall (candidate_walls gray lines).
Proof.
  apply List.Forall_forall. intros w Hin.
  unfold candidate_walls in Hin. apply in_flat_map in Hin as (line & _ & Hw).
  apply (candidate_of_line_sound gray line w Hw).
Qed.

End CandidateFacts.

(** ** LineGrouper: groups are made of the input lines *)

Section GrouperFacts.

Variable P : Wall -> Prop.

Lemma enumerate_from_In {A : Type} (start : nat) (l : list A) (j : nat) (x : A) :
  In (j, x) (enumerate_from start l) -> In x l.
Proof.
  revert start. induction l as [|y l IH]; intros start Hin; [contradiction|].
  destruct Hin as [Heq|Hin].
  - injection Heq as _ ->. left; reflexivity.
  - right. exact (IH _ Hin).
Qed.

Lemma absorb_candidates_Forall (existing_line : Wall) (candidates : list (nat * Wall))
  (st : GroupState) :
  (forall j w, In (j, w) candidates -> P w) ->
  Forall P (gs_group st) ->
  Forall P (gs_group (absorb_candidates existing_line candidates st)).
Proof.
  revert st. induction candidates as [|[j w] rest IH]; intros st Hc Hst; cbn [absorb_candidates].
  - exact Hst.
  - assert (Hrest : forall j' w', In (j', w') rest -> P w')
      by (intros j' w' Hin; apply (Hc j' w'); right; exact Hin).
    destruct (mem j (gs_used st)); [apply IH; assumption|].
    destruct (are_parallel_and_close existing_line w); [|apply IH; assumption].
    apply IH; [assumption|]. cbn [gs_group].
    apply Forall_app. split; [exact Hst|].
    constructor; [|constructor]. apply (Hc j w). left; reflexivity.
Qed.

Lemma scan_group_Forall (fuel : nat) (lines : list Wall) (k : nat) (st : GroupState) :
  Forall P lines ->
  Forall P (gs_group st) ->
  Forall P (gs_group (scan_group fuel lines k st)).
Proof.
  intros Hlines. revert k st.
  induction fuel as [|fuel IH]; intros k st Hst; cbn [scan_group]; [exact Hst|].
  destruct (nth_error (gs_group st) k) as [existing|]; [|exact Hst].
  apply IH. apply absorb_candidates_Forall; [|exact Hst].
  intros j w Hin. apply enumerate_from_In in Hin.
  rewrite List.Forall_forall in Hlines. apply Hlines; exact Hin.
Qed.

Lemma grow_group_Forall (fuel : nat) (lines group : list Wall) (used : list nat) :
  Forall P lines ->
  Forall P group ->
  Forall P (fst (grow_group fuel lines group used)).
Proof.
  intros Hlines. revert group used.
  induction fuel as [|fuel IH]; intros group used Hg; cbn [grow_group]; [exact Hg|].
  pose proof (scan_group_Forall (S (length lines)) lines 0
                (mkGroupState group used false) Hlines Hg) as Hscan.
  destruct (gs_added _); [apply IH; exact Hscan | exact Hscan].
Qed.

Lemma group_from_Forall (lines : list Wall) (todo : list (nat * Wall)) (used : list nat) :
  Forall P lines ->
  (forall i w, In (i, w) todo -> P w) ->
  Forall (Forall P) (group_from lines todo used).
Proof.
  intros Hlines. revert used.
  induction todo as [|[i line1] rest IH]; intros used Htodo; cbn [group_from].
  - constructor.
  - assert (Hrest : forall i' w', In (i', w') rest -> P w')
      by (intros i' w' Hin; apply (Htodo i' w'); right; exact Hin).
    destruct (mem i used); [apply IH; exact Hrest|].
    pose proof (grow_group_Forall (S (length lines)) lines [line1] (i :: used) Hlines) as Hg.
    destruct (grow_group _ lines [line1] (i :: used)) as [group used'].
    cbn [fst] in Hg.
    assert (Hgroup : Forall P group).
    { apply Hg. constructor; [|constructor]. apply (Htodo i line1). left; reflexivity. }
    destruct group; [apply IH; exact Hrest|].
    constructor; [exact Hgroup | apply IH; exact Hrest].
Qed.

Lemma group_parallel_lines_Forall (lines : list Wall) :
  Forall P lines -> Forall (Forall P) (group_parallel_lines lines).
Proof.
  intros Hlines. apply group_from_Forall; [exact Hlines|].
  intros i w Hin. apply enumerate_from_In in Hin.
  rewrite List.Forall_forall in Hlines. apply Hlines; exact Hin.
Qed.

End GrouperFacts.

(** ** SegmentConsolidator *)

Section ConsolidatorFacts.

Lemma list_max_from_upper (first : R) (rest : list R) :
  first <= list_max_from first rest
  /\ forall d, In d rest -> d <= list_max_from first rest.
Proof.
  unfold list_max_from. revert first.
  induction rest as [|x rest IH]; intros first; cbn [fold_left].
  - split; [lra | intros d []].
  - destruct (Rltb first x) eqn:Hlt;
      [apply Rltb_lt in Hlt | apply Rltb_ge in Hlt].
    + destruct (IH x) as [Hx Hrest]. split; [lra|].
      intros d [<-|Hin]; [exact Hx | apply Hrest; exact Hin].
    + destruct (IH first) as [Hf Hrest]. split; [exact Hf|].
      intros d [<-|Hin]; [lra | apply Hrest; exact Hin].
Qed.

Lemma list_max_from_In (first : R) (rest : list R) :
  In (list_max_from first rest) (first :: rest).
Proof.
  unfold list_max_from. revert first.
  induction rest as [|x rest IH]; intros first; cbn [fold_left].
  - left; reflexivity.
  - destruct (Rltb first x).
    + right. apply IH.
    + destruct (IH first) as [Heq|Hin]; [left; exact Heq | right; right; exact Hin].
Qed.

Lemma longest_from_In (first : Wall) (rest : list Wall) :
  In (longest_from first rest) (first :: rest).
Proof.
  unfold longest_from. revert first.
  induction rest as [|x rest IH]; intros first; cbn [fold_left].
  - left; reflexivity.
  - destruct (Rltb _ _).
    + right. apply IH.
    + destruct (IH first) as [Heq|Hin]; [left; exact Heq | right; right; exact Hin].
Qed.

Lemma longest_from_upper (first : Wall) (rest : list Wall) :
  forall l, In l (first :: rest) -> wall_length l <= wall_length (longest_from first rest).
Proof.
  unfold longest_from. revert first.
  induction rest as [|x rest IH]; intros first l Hin; cbn [fold_left].
  - destruct Hin as [<-|[]]. lra.
  - destruct (Rltb (wall_length first) (wall_length x)) eqn:Hlt;
      [apply Rltb_lt in Hlt | apply Rltb_ge in Hlt].
    + destruct Hin as [<-|Hin].
      * pose proof (IH x x (or_introl eq_refl)). lra.
      * apply IH. exact Hin.
    + destruct Hin as [<-|[<-|Hin]].
      * apply IH. left; reflexivity.
      * pose proof (IH first first (or_introl eq_refl)). lra.
      * apply IH. right; exact Hin.
Qed.

(** [pairwise_distances] lists exactly the distances of the pairs
    [i < j] of the group. *)
Lemma pairwise_distances_In (line_group : list Wall) (d : R) :
  In d (pairwise_distances line_group)
  <-> exists i j li lj,
        (i < j)%nat
        /\ nth_error line_group i = Some li
        /\ nth_error line_group j = Some lj
        /\ d = line_to_line_distance li lj.
Proof.
  induction line_group as [|x rest IH]; cbn [pairwise_distances].
  - split; [intros [] | intros (i & j & li & lj & _ & Hi & _)].
    destruct i; discriminate.
  - rewrite in_app_iff, in_map_iff, IH. split.
    + intros [(lj & <- & Hin) | (i & j & li & lj & Hij & Hi & Hj & ->)].
      * apply In_nth_error in Hin as [j Hj].
        exists 0%nat, (S j), x, lj. repeat split; [lia | exact Hj].
      * exists (S i), (S j), li, lj. repeat split; [lia | exact Hi | exact Hj].
    + intros (i & j & li & lj & Hij & Hi & Hj & ->).
      destruct j as [|j]; [lia|]. cbn [nth_error] in Hj.
      destruct i as [|i].
      * injection Hi as <-. left. exists lj. split; [reflexivity|].
        apply nth_error_In in Hj. exact Hj.
      * right. exists i, j, li, lj. repeat split; [lia | exact Hi | exact Hj].
Qed.

Lemma calculate_group_thickness_bounds (line_group : list Wall) :
  4 <= calculate_group_thickness line_group <= 25.
Proof.
  unfold calculate_group_thickness.
  destruct (_ <? _)%nat; [lra|].
  destruct (pairwise_distances line_group); [lra|].
  apply clamp_bounds. lra.
Qed.

Lemma merge_collinear_segments_sound (line_group : list Wall) :
  Forall sound_wall line_group -> Forall sound_wall (merge_collinear_segments line_group).
Proof.
  intros Hg. unfold merge_collinear_segments.
  destruct line_group as [|first rest]; [constructor|].
  destruct (_ <? _)%nat; [|exact Hg].
  constructor; [|constructor].
  pose proof (longest_from_In first rest) as Hin.
  rewrite List.Forall_forall in Hg. destruct (Hg _ Hin) as (Hlen & Hconf & _ & _).
  pose proof (calculate_group_thickness_bounds (first :: rest)) as [Ht1 Ht2].
  unfold sound_wall. cbn [wall_length wall_confidence wall_thickness wall_source].
  split; [exact Hlen|]. split; [unfold Rmin; destruct (Rle_dec _ _); lra|].
  split; [lra|]. left; reflexivity.
Qed.

Lemma merged_walls_sound (line_segments : list Wall) :
  Forall sound_wall line_segments -> Forall sound_wall (merged_walls line_segments).
Proof.
  intros Hs. unfold merged_walls, calculate_wall_thickness_from_groups.
  apply List.Forall_forall. intros w Hin.
  apply in_flat_map in Hin as (group & Hgroup & Hw).
  pose proof (group_parallel_lines_Forall sound_wall line_segments Hs) as Hgroups.
  rewrite List.Forall_forall in Hgroups. specialize (Hgroups group Hgroup).
  apply merge_collinear_segments_sound in Hgroups.
  rewrite List.Forall_forall in Hgroups. apply Hgroups; exact Hw.
Qed.

Lemma consolidate_wall_segments_eq (line_segments : list Wall) :
  consolidate_wall_segments line_segments
  = apply_structural_focus (merged_walls line_segments).
Proof.
  destruct line_segments; reflexivity.
Qed.

End ConsolidatorFacts.

(** ** StructuralScorer *)

Section ScorerFacts.

Lemma thickness_points_bounds (thickness : R) : 0 <= thickness_points thickness <= 0.2.
Proof. unfold thickness_points. split_comparisons; lra. Qed.

(** Every wall the pipeline hands to the scorer passes the 0.3 cut. *)
Lemma sound_wall_scores_above_cut (w : Wall) :
  sound_wall w -> 0.3 < calculate_structural_importance w.
Proof.
  intros (Hlen & Hconf & [Ht1 Ht2] & Hsrc).
  unfold calculate_structural_importance.
  assert (Hlp : 0.2 <= length_points (wall_length w)).
  { unfold length_points. split_comparisons; lra. }
  pose proof (thickness_points_bounds (wall_thickness w)) as [Htp _].
  assert (Hbonus : 0.1 <= thickness_points (wall_thickness w)
                   \/ wall_source w = consolidated).
  { destruct Hsrc as [Hsrc|H6]; [right; exact Hsrc|].
    left. unfold thickness_points. split_comparisons; lra. }
  unfold Rmin.
  destruct (wall_source w) eqn:Hs; destruct (is_perimeter_wall w);
    destruct (Rle_dec _ _); try lra;
    destruct Hbonus as [Hb|Hb]; try discriminate; lra.
Qed.

Lemma score_and_keep_sound (w : Wall) :
  sound_wall w ->
  score_and_keep w = [set_structural_score w (calculate_structural_importance w)].
Proof.
  intros Hs. unfold score_and_keep.
  rewrite Rltb_true by (apply sound_wall_scores_above_cut; exact Hs). reflexivity.
Qed.

Lemma structural_walls_In (walls : list Wall) (w' : Wall) :
  In w' (structural_walls walls) ->
  exists w, In w walls
            /\ 0.3 < calculate_structural_importance w
            /\ w' = set_structural_score w (calculate_structural_importance w).
Proof.
  unfold structural_walls. rewrite sort_desc_In, in_flat_map.
  intros (w & Hin & Hkeep). exists w. split; [exact Hin|].
  unfold score_and_keep in Hkeep.
  destruct (Rltb 0.3 _) eqn:Hcut; [|contradiction].
  apply Rltb_lt in Hcut. destruct Hkeep as [<-|[]]. split; [exact Hcut | reflexivity].
Qed.

Lemma structural_walls_length_sound (walls : list Wall) :
  Forall sound_wall walls -> length (structural_walls walls) = length walls.
Proof.
  intros Hs. unfold structural_walls. rewrite sort_desc_length.
  induction Hs as [|w walls Hw _ IH]; [reflexivity|].
  cbn [flat_map]. rewrite (score_and_keep_sound w Hw). cbn. rewrite IH. reflexivity.
Qed.

Lemma apply_structural_focus_In (walls : list Wall) (w : Wall) :
  In w (apply_structural_focus walls) -> In w (structural_walls walls).
Proof.
  unfold apply_structural_focus. destruct walls as [|w0 walls]; [intros []|].
  destruct (_ <? _)%nat; [|exact (fun Hin => Hin)].
  intros Hin. apply (firstn_In _ _ _ Hin).
Qed.

Lemma calculate_realistic_wall_count_bounds (walls : list Wall) :
  walls <> [] -> (15 <= calculate_realistic_wall_count walls <= 35)%nat.
Proof.
  intros Hne. destruct walls as [|w walls]; [contradiction|].
  unfold calculate_realistic_wall_count.
  destruct (Rltb 400 _); [|destruct (Rltb 200 _)]; lia.
Qed.

Lemma apply_structural_focus_length (walls : list Wall) :
  (length (apply_structural_focus walls)
   <= calculate_realistic_wall_count (structural_walls walls))%nat.
Proof.
  unfold apply_structural_focus. destruct walls as [|w0 walls]; [cbn; lia|].
  destruct (_ <? _)%nat eqn:Hcap.
  - rewrite length_firstn. lia.
  - apply Nat.ltb_ge in Hcap. exact Hcap.
Qed.

Lemma set_structural_score_sound (w : Wall) (s : R) :
  sound_wall w -> sound_wall (set_structural_score w s).
Proof. exact (fun Hs => Hs). Qed.

Lemma apply_structural_focus_sound (walls : list Wall) :
  Forall sound_wall walls -> Forall sound_wall (apply_structural_focus walls).
Proof.
  intros Hs. apply List.Forall_forall. intros w' Hin.
  apply apply_structural_focus_In, structural_walls_In in Hin as (w & Hw & _ & ->).
  rewrite List.Forall_forall in Hs. apply set_structural_score_sound, Hs, Hw.
Qed.

End ScorerFacts.

(** ** NoiseFilter: it only removes walls *)

Section NoiseFilterFacts.

Lemma mem_cons (i j : nat) (used : list nat) :
  mem i (j :: used) = Nat.eqb i j || mem i used.
Proof. reflexivity. Qed.

Lemma unused_count_cons_le (todo : list (nat * Wall)) (j : nat) (used : list nat) :
  (unused_count todo (j :: used) <= unused_count todo used)%nat.
Proof.
  unfold unused_count. induction todo as [|[i w] rest IH]; cbn [List.filter fst]; [lia|].
  rewrite mem_cons. destruct (Nat.eqb i j); destruct (mem i used); cbn [orb negb length]; lia.
Qed.

Lemma unused_count_mono (todo : list (nat * Wall)) (used used' : list nat) :
  (forall i, mem i used = true -> mem i used' = true) ->
  (unused_count todo used' <= unused_count todo used)%nat.
Proof.
  intros Hsub. unfold unused_count.
  induction todo as [|[i w] rest IH]; cbn [List.filter fst]; [lia|].
  destruct (mem i used) eqn:Hi.
  - rewrite (Hsub i Hi). cbn [negb]. exact IH.
  - destruct (mem i used'); cbn [negb length]; lia.
Qed.

Lemma unused_count_used (j : nat) (w : Wall) (rest : list (nat * Wall)) (used : list nat) :
  mem j used = true -> unused_count ((j, w) :: rest) used = unused_count rest used.
Proof. intros Hj. unfold unused_count. cbn [List.filter fst]. rewrite Hj. reflexivity. Qed.

Lemma unused_count_free (j : nat) (w : Wall) (rest : list (nat * Wall)) (used : list nat) :
  mem j used = false -> unused_count ((j, w) :: rest) used = S (unused_count rest used).
Proof. intros Hj. unfold unused_count. cbn [List.filter fst]. rewrite Hj. reflexivity. Qed.

Lemma unused_count_step (j : nat) (w : Wall) (rest : list (nat * Wall)) (used : list nat) :
  (unused_count ((j, w) :: rest) used <= S (unused_count rest used))%nat.
Proof.
  destruct (mem j used) eqn:Hj.
  - rewrite (unused_count_used _ _ _ _ Hj). lia.
  - rewrite (unused_count_free _ _ _ _ Hj). lia.
Qed.

Lemma absorb_close_used (wall1 : Wall) (later : list (nat * Wall))
  (cluster : list Wall) (used : list nat) (i : nat) :
  mem i used = true -> mem i (snd (absorb_close wall1 later cluster used)) = true.
Proof.
  revert cluster used.
  induction later as [|[j wall2] rest IH]; intros cluster used Hi; cbn [absorb_close].
  - exact Hi.
  - destruct (mem j used); [apply IH; exact Hi|].
    destruct (_ && _); [|apply IH; exact Hi].
    apply IH. rewrite mem_cons, Hi. apply orb_true_r.
Qed.

Lemma absorb_close_count (wall1 : Wall) (later : list (nat * Wall))
  (cluster : list Wall) (used : list nat) :
  (length (fst (absorb_close wall1 later cluster used))
   + unused_count later (snd (absorb_close wall1 later cluster used))
   <= length cluster + unused_count later used)%nat.
Proof.
  revert cluster used.
  induction later as [|[j wall2] rest IH]; intros cluster used; cbn [absorb_close].
  - cbn [fst snd]. lia.
  - destruct (mem j used) eqn:Hj.
    + rewrite (unused_count_used j wall2 rest used Hj).
      rewrite unused_count_used by (apply absorb_close_used; exact Hj).
      apply IH.
    + rewrite (unused_count_free j wall2 rest used Hj).
      destruct (_ && _).
      * rewrite unused_count_used
          by (apply absorb_close_used; rewrite mem_cons, Nat.eqb_refl; reflexivity).
        specialize (IH (cluster ++ [wall2]) (j :: used)).
        rewrite length_app in IH. cbn [length] in IH.
        pose proof (unused_count_cons_le rest j used). lia.
      * specialize (IH cluster used).
        pose proof (unused_count_step j wall2 rest
                      (snd (absorb_close wall1 rest cluster used))). lia.
Qed.

Lemma absorb_close_In (wall1 : Wall) (later : list (nat * Wall))
  (cluster : list Wall) (used : list nat) (w : Wall) :
  In w (fst (absorb_close wall1 later cluster used)) ->
  In w cluster \/ exists j, In (j, w) later.
Proof.
  revert cluster used.
  induction later as [|[j wall2] rest IH]; intros cluster used; cbn [absorb_close].
  - intros Hin. left; exact Hin.
  - assert (Hlift : forall c u, In w (fst (absorb_close wall1 rest c u)) ->
                                In w c \/ exists j', In (j', w) ((j, wall2) :: rest)).
    { intros c u Hin. destruct (IH c u Hin) as [Hc|[j' Hj']];
        [left; exact Hc | right; exists j'; right; exact Hj']. }
    destruct (mem j used); [apply Hlift|].
    destruct (_ && _); [|apply Hlift].
    intros Hin. destruct (Hlift _ _ Hin) as [Hc|Hl]; [|right; exact Hl].
    apply in_app_or in Hc as [Hc|[<-|[]]];
      [left; exact Hc | right; exists j; left; reflexivity].
Qed.

Lemma build_clusters_count (todo : list (nat * Wall)) (used : list nat) :
  (length (concat (build_clusters todo used)) <= unused_count todo used)%nat.
Proof.
  revert used. induction todo as [|[i wall1] rest IH]; intros used; cbn [build_clusters].
  - cbn. lia.
  - destruct (mem i used) eqn:Hi.
    + rewrite (unused_count_used i wall1 rest used Hi). apply IH.
    + rewrite (unused_count_free i wall1 rest used Hi).
      pose proof (absorb_close_count wall1 rest [wall1] (i :: used)) as Habs.
      destruct (absorb_close wall1 rest [wall1] (i :: used)) as [cluster used'].
      cbn [fst snd length] in Habs.
      cbn [concat]. rewrite length_app.
      specialize (IH used').
      pose proof (unused_count_cons_le rest i used). lia.
Qed.

Lemma build_clusters_In (todo : list (nat * Wall)) (used : list nat)
  (cluster : list Wall) (w : Wall) :
  In cluster (build_clusters todo used) -> In w cluster -> exists j, In (j, w) todo.
Proof.
  revert used. induction todo as [|[i wall1] rest IH]; intros used; cbn [build_clusters].
  - intros [].
  - destruct (mem i used).
    + intros Hc Hw. destruct (IH used Hc Hw) as [j Hj]. exists j. right; exact Hj.
    + pose proof (absorb_close_In wall1 rest [wall1] (i :: used) w) as Hmem.
      destruct (absorb_close wall1 rest [wall1] (i :: used)) as [c used'].
      cbn [fst] in Hmem.
      intros [<-|Hc] Hw.
      * destruct (Hmem Hw) as [[<-|[]]|[j Hj]];
          [exists i; left; reflexivity | exists j; right; exact Hj].
      * destruct (IH used' Hc Hw) as [j Hj]. exists j. right; exact Hj.
Qed.

Lemma keep_from_cluster_incl (cluster : list Wall) :
  (length (keep_from_cluster cluster) <= length cluster)%nat
  /\ forall w, In w (keep_from_cluster cluster) -> In w cluster.
Proof.
  unfold keep_from_cluster. destruct (_ <=? _)%nat.
  - split; [lia | exact (fun w H => H)].
  - split.
    + rewrite length_firstn, sort_desc_length. lia.
    + intros w Hin. apply firstn_In in Hin. apply sort_desc_In in Hin. exact Hin.
Qed.

Lemma unused_count_nil (todo : list (nat * Wall)) : unused_count todo [] = length todo.
Proof.
  induction todo as [|[j w] rest IH]; [reflexivity|].
  rewrite unused_count_free by reflexivity. cbn [length]. rewrite IH. reflexivity.
Qed.

Lemma enumerate_from_length {A : Type} (start : nat) (l : list A) :
  length (enumerate_from start l) = length l.
Proof.
  revert start. induction l as [|x l IH]; intros start; cbn; [reflexivity|].
  rewrite IH. reflexivity.
Qed.

Lemma flat_map_keep_length (clusters : list (list Wall)) :
  (length (flat_map keep_from_cluster clusters) <= length (concat clusters))%nat.
Proof.
  induction clusters as [|c rest IH]; [cbn; lia|].
  cbn [flat_map concat]. rewrite !length_app.
  pose proof (keep_from_cluster_incl c) as [Hc _]. lia.
Qed.

Lemma remove_text_clusters_incl (walls : list Wall) :
  (length (remove_text_clusters walls) <= length walls)%nat
  /\ forall w, In w (remove_text_clusters walls) -> In w walls.
Proof.
  unfold remove_text_clusters. destruct (_ <? _)%nat.
  - split; [lia | exact (fun w H => H)].
  - pose proof (build_clusters_count (enumerate_from 0 walls) []) as Hlen.
    pose proof (build_clusters_In (enumerate_from 0 walls) []) as Hin.
    rewrite unused_count_nil, enumerate_from_length in Hlen. split.
    + pose proof (flat_map_keep_length (build_clusters (enumerate_from 0 walls) [])). lia.
    + intros w Hw. apply in_flat_map in Hw as (cluster & Hc & Hk).
      apply keep_from_cluster_incl in Hk.
      destruct (Hin cluster w Hc Hk) as [j Hj].
      apply enumerate_from_In in Hj. exact Hj.
Qed.

Lemma filter_length_le {A : Type} (p : A -> bool) (l : list A) :
  (length (List.filter p l) <= length l)%nat.
Proof.
  induction l as [|x l IH]; cbn [List.filter]; [lia|].
  destruct (p x); cbn [length]; lia.
Qed.

Lemma apply_intelligent_filtering_incl `{OpenCV} (walls : list Wall) (gray : Image) :
  (length (apply_intelligent_filtering walls gray) <= length walls)%nat
  /\ forall w, In w (apply_intelligent_filtering walls gray) ->
               In w walls
               /\ is_quality_wall w = true
               /\ is_in_text_area w gray = false.
Proof.
  unfold apply_intelligent_filtering.
  destruct (remove_text_clusters_incl walls) as [Hlen Hin]. split.
  - rewrite sort_desc_length.
    pose proof (filter_length_le (fun wall => negb (is_in_text_area wall gray))
                  (List.filter is_quality_wall (remove_text_clusters walls))).
    pose proof (filter_length_le is_quality_wall (remove_text_clusters walls)). lia.
  - intros w Hw. apply sort_desc_In in Hw.
    apply List.filter_In in Hw as [Hw Htext].
    apply List.filter_In in Hw as [Hw Hq].
    split; [apply Hin; exact Hw|]. split; [exact Hq|].
    destruct (is_in_text_area w gray); [discriminate | reflexivity].
Qed.

End NoiseFilterFacts.

(** ** Thickness *)

Section Thickness.

Lemma detect_walls_sound `{OpenCV} (candidates : list Wall) (gray : Image) :
  Forall sound_wall candidates ->
  Forall sound_wall (detect_walls candidates gray).
Proof.
  intros Hs. apply List.Forall_forall. intros w Hin.
  unfold detect_walls in Hin.
  apply apply_intelligent_filtering_incl in Hin as [Hin _].
  rewrite consolidate_wall_segments_eq in Hin.
  pose proof (apply_structural_focus_sound _ (merged_walls_sound _ Hs)) as Hfocus.
  rewrite List.Forall_forall in Hfocus. apply Hfocus; exact Hin.
Qed.

(** C7.  A group of two or more segments is merged into one
    consolidated wall whose thickness is [min(max(M, 4), 25)], where [M]
    is the largest distance between the midpoints
    [((start_x + end_x) / 2, (start_y + end_y) / 2)] of two segments
    [i < j] of the group: [M] is the midpoint distance of one pair and
    no pair has a larger one.  That thickness lies in [4, 25]; for the
    two strokes whose midpoints are (280, 300) and (280, 320) it is 20.
    The raw estimate [estimate_thickness] lies in [3, 25] for every line
    and every image, and so does the thickness of every candidate wall
    and of every wall the wall stage returns. *)
Theorem wall_thickness_clamped `{OpenCV} :
  (forall (first second : Wall) (rest : list Wall),
     let line_group := first :: second :: rest in
     let mid_x := fun l : Wall => IZR (fst (wall_start l) + fst (wall_end l)) / 2 in
     let mid_y := fun l : Wall => IZR (snd (wall_start l) + snd (wall_end l)) / 2 in
     let midpoint_distance := fun a b : Wall =>
       sqrt ((mid_x b - mid_x a) ^ 2 + (mid_y b - mid_y a) ^ 2) in
     exists (w : Wall) (M : R),
       merge_collinear_segments line_group = [w]
       /\ wall_source w = consolidated
       /\ wall_thickness w = Rmin (Rmax M 4) 25
       /\ (exists i j li lj,
             (i < j)%nat
             /\ nth_error line_group i = Some li
             /\ nth_error line_group j = Some lj
             /\ M = midpoint_distance li lj
             /\ M = line_to_line_distance li lj)
       /\ (forall i j li lj,
             (i < j)%nat ->
             nth_error line_group i = Some li ->
             nth_error line_group j = Some lj ->
             midpoint_distance li lj <= M
             /\ line_to_line_distance li lj <= M)
       /\ 4 <= wall_thickness w <= 25)
  /\ map wall_thickness (merge_collinear_segments [stroke_left_a; stroke_left_b]) = [20]
  /\ (forall (x1 y1 x2 y2 : Z) (gray : Image),
        3 <= estimate_thickness x1 y1 x2 y2 gray <= 25)
  /\ (forall (gray : Image) (lines : list (Z * Z * Z * Z)),
        Forall (fun w => 3 <= wall_thickness w <= 25) (candidate_walls gray lines))
  /\ (forall (gray : Image) (lines : list (Z * Z * Z * Z)),
        Forall (fun w => 3 <= wall_thickness w <= 25)
               (detect_walls (candidate_walls gray lines) gray)).
Proof.
  split; [|split; [|split; [|split]]].
  - intros first second rest line_group mid_x mid_y midpoint_distance.
    assert (Hmd : forall a b, line_to_line_distance a b = midpoint_distance a b)
      by reflexivity.
    pose proof (calculate_group_thickness_bounds line_group) as Hbounds.
    unfold merge_collinear_segments, line_group at 1.
    cbn [length Nat.ltb Nat.leb].
    fold line_group.
    assert (Hthick : exists d ds, pairwise_distances line_group = d :: ds
                                  /\ calculate_group_thickness line_group
                                     = clamp 4 25 (list_max_from d ds)).
    { unfold calculate_group_thickness, line_group. cbn [length Nat.ltb Nat.leb].
      cbn [pairwise_distances map app]. eexists _, _. split; reflexivity. }
    destruct Hthick as (d & ds & Hpd & Hcalc).
    eexists _, (list_max_from d ds). split; [reflexivity|].
    cbn [wall_source wall_thickness].
    split; [reflexivity|]. split; [exact Hcalc|]. split; [|split].
    + assert (Hin : In (list_max_from d ds) (pairwise_distances line_group)).
      { rewrite Hpd. apply list_max_from_In. }
      apply pairwise_distances_In in Hin as (i & j & li & lj & Hij & Hi & Hj & Heq).
      exists i, j, li, lj. rewrite <- Hmd. repeat split; assumption.
    + intros i j li lj Hij Hi Hj. rewrite <- Hmd.
      assert (Hin : In (line_to_line_distance li lj) (pairwise_distances line_group)).
      { apply pairwise_distances_In. exists i, j, li, lj. repeat split; assumption. }
      rewrite Hpd in Hin. destruct (list_max_from_upper d ds) as [Hd Hds].
      destruct Hin as [<-|Hin]; [split; exact Hd | split; apply Hds; exact Hin].
    + exact Hbounds.
  - unfold merge_collinear_segments, stroke_left_a, stroke_left_b, text_stroke.
    cbn [length Nat.ltb Nat.leb map wall_thickness].
    unfold calculate_group_thickness.
    cbn [length Nat.ltb Nat.leb pairwise_distances map app].
    unfold list_max_from. cbn [fold_left].
    unfold line_to_line_distance. cbn [wall_start wall_end fst snd].
    replace ((IZR (195 + 365) / 2 - IZR (190 + 370) / 2) ^ 2
             + (IZR (320 + 320) / 2 - IZR (300 + 300) / 2) ^ 2)
      with (20 * 20) by (rewrite !plus_IZR; lra).
    rewrite sqrt_square by lra.
    unfold clamp, Rmin, Rmax. destruct (Rle_dec 20 4); [lra|].
    destruct (Rle_dec 20 25); [reflexivity | lra].
  - intros x1 y1 x2 y2 gray.
    pose proof (estimate_thickness_bounds x1 y1 x2 y2 gray). lra.
  - intros gray lines.
    eapply List.Forall_impl; [|apply candidate_walls_sound].
    intros w (_ & _ & Ht & _). exact Ht.
  - intros gray lines.
    eapply List.Forall_impl; [|apply detect_walls_sound, candidate_walls_sound].
    intros w (_ & _ & Ht & _). exact Ht.
Qed.

End Thickness.

(** ** Count caps *)

Section Caps.

Lemma cap_by_confidence_length (cap : nat) (openings : list Opening) :
  (length (cap_by_confidence cap openings) <= cap)%nat.
Proof.
  unfold cap_by_confidence. destruct (cap <? length openings)%nat eqn:Hcap.
  - apply firstn_le_length.
  - apply Nat.ltb_ge in Hcap. exact Hcap.
Qed.

Lemma cap_by_confidence_perm (cap : nat) (openings : list Opening) :
  Permutation openings (cap_by_confidence cap openings ++ dropped_by_cap cap openings).
Proof.
  unfold cap_by_confidence, dropped_by_cap. destruct (cap <? length openings)%nat.
  - rewrite firstn_skipn. apply sort_desc_perm.
  - rewrite app_nil_r. reflexivity.
Qed.

Lemma cap_by_confidence_dominates (cap : nat) (openings : list Opening) :
  Forall (fun kept =>
            Forall (fun dropped => op_confidence dropped <= op_confidence kept)
                   (dropped_by_cap cap openings))
         (cap_by_confidence cap openings).
Proof.
  unfold cap_by_confidence, dropped_by_cap. destruct (cap <? length openings)%nat.
  - apply List.Forall_forall. intros kept Hk.
    apply List.Forall_forall. intros dropped Hd.
    exact (sort_desc_firstn_dominates op_confidence cap openings kept dropped Hk Hd).
  - apply List.Forall_forall. intros kept _. constructor.
Qed.

Lemma detect_walls_length `{OpenCV} (candidates : list Wall) (gray : Image) :
  (length (detect_walls candidates gray)
   <= calculate_realistic_wall_count (structural_walls (merged_walls candidates)))%nat.
Proof.
  unfold detect_walls. rewrite consolidate_wall_segments_eq.
  pose proof (apply_intelligent_filtering_incl
                (apply_structural_focus (merged_walls candidates)) gray) as [Hlen _].
  pose proof (apply_structural_focus_length (merged_walls candidates)). lia.
Qed.

(** C8.  For every image, every list of Hough lines and every list of
    walls: at most 20 doors and at most 15 arches are returned; the cap
    keeps a prefix of the confidence-sorted list, so every opening it
    drops has a confidence no higher than every opening it keeps, and
    kept and dropped together are the deduplicated detections.  The wall
    stage returns nothing when no wall reaches the scorer; otherwise the
    adaptive cap it computes lies between 15 and 35 and the number of
    walls returned does not exceed it. *)
Theorem output_counts_respect_caps `{OpenCV} (gray : Image)
  (lines : list (Z * Z * Z * Z)) (any_walls : list Wall) :
  let door_detections :=
    filter_duplicate_doors
      (find_door_openings any_walls gray ++ find_door_swings gray
       ++ find_door_symbols gray any_walls) in
  let arch_detections :=
    filter_duplicate_arches (find_curved_arches gray ++ find_wide_openings any_walls gray) in
  let candidates := candidate_walls gray lines in
  let walls := detect_walls candidates gray in
  (length (detect_doors gray any_walls) <= 20)%nat
  /\ (length (detect_arches gray any_walls) <= 15)%nat
  /\ detect_doors gray any_walls = cap_by_confidence 20 door_detections
  /\ detect_arches gray any_walls = cap_by_confidence 15 arch_detections
  /\ Permutation door_detections
       (detect_doors gray any_walls ++ dropped_by_cap 20 door_detections)
  /\ Permutation arch_detections
       (detect_arches gray any_walls ++ dropped_by_cap 15 arch_detections)
  /\ Forall (fun kept =>
               Forall (fun dropped => op_confidence dropped <= op_confidence kept)
                      (dropped_by_cap 20 door_detections))
            (detect_doors gray any_walls)
  /\ Forall (fun kept =>
               Forall (fun dropped => op_confidence dropped <= op_confidence kept)
                      (dropped_by_cap 15 arch_detections))
            (detect_arches gray any_walls)
  /\ match computed_wall_cap (merged_walls candidates) with
     | None => walls = []
     | Some cap => (15 <= cap <= 35)%nat /\ (length walls <= cap)%nat
     end.
Proof.
  cbv zeta. unfold detect_doors, detect_arches.
  split; [apply cap_by_confidence_length|].
  split; [apply cap_by_confidence_length|].
  split; [reflexivity|]. split; [reflexivity|].
  split; [apply cap_by_confidence_perm|].
  split; [apply cap_by_confidence_perm|].
  split; [apply cap_by_confidence_dominates|].
  split; [apply cap_by_confidence_dominates|].
  pose proof (merged_walls_sound _ (candidate_walls_sound gray lines)) as Hsound.
  pose proof (detect_walls_length (candidate_walls gray lines) gray) as Hlen.
  pose proof (structural_walls_length_sound _ Hsound) as Hsame.
  unfold computed_wall_cap.
  destruct (merged_walls (candidate_walls gray lines)) as [|w0 merged] eqn:Hmerged.
  - cbn in Hlen. destruct (detect_walls _ gray); [reflexivity | cbn in Hlen; lia].
  - split; [|exact Hlen].
    apply calculate_realistic_wall_count_bounds.
    intros Hnil. rewrite Hnil in Hsame. discriminate.
Qed.

End Caps.

(** ** Opening deduplication *)

Section Dedup.

Lemma within_30_squared (door existing : Opening) :
  Rltb (opening_distance door existing) 30
  = Rltb ((fst (op_position door) - fst (op_position existing)) ^ 2
          + (snd (op_position door) - snd (op_position existing)) ^ 2) 900.
Proof.
  unfold opening_distance.
  set (d := _ + _).
  assert (Hd : 0 <= d) by (unfold d; apply Rplus_le_le_0_compat; apply pow2_ge_0).
  pose proof (sqrt_lt_const d 30 Hd ltac:(lra)) as Hiff.
  destruct (Rltb d 900) eqn:Hlt.
  - apply Rltb_lt in Hlt. apply Rltb_true. apply Hiff. lra.
  - apply Rltb_ge in Hlt. apply Rltb_false.
    destruct (Rle_or_lt 30 (sqrt d)) as [|Hc]; [assumption|].
    apply Hiff in Hc. lra.
Qed.

Lemma first_within_30_none (door : Opening) (filtered : list Opening) :
  first_within_30 door filtered = None
  <-> Forall (fun existing => 30 <= opening_distance door existing) filtered.
Proof.
  induction filtered as [|existing rest IH]; cbn [first_within_30].
  - split; [constructor | reflexivity].
  - destruct (Rltb _ 30) eqn:Hclose.
    + apply Rltb_lt in Hclose. split; [discriminate|].
      intros Hall. inversion Hall; subst. lra.
    + apply Rltb_ge in Hclose. rewrite IH. split.
      * intros Hrest. constructor; assumption.
      * intros Hall. inversion Hall; subst. assumption.
Qed.

Lemma first_within_30_In (door existing : Opening) (filtered : list Opening) :
  first_within_30 door filtered = Some existing -> In existing filtered.
Proof.
  induction filtered as [|e rest IH]; cbn [first_within_30]; [discriminate|].
  destruct (Rltb _ 30).
  - intros Heq. injection Heq as ->. left; reflexivity.
  - intros Hsome. right. apply IH. exact Hsome.
Qed.

Lemma spaced_snoc (l : list Opening) (door : Opening) :
  spaced l ->
  Forall (fun existing => 30 <= opening_distance door existing) l ->
  spaced (l ++ [door]).
Proof.
  intros Hl Hdoor. induction Hl as [|e rest He Hrest IH]; cbn [app].
  - constructor; constructor.
  - inversion Hdoor; subst. constructor.
    + apply Forall_app. split; [exact He|]. constructor; [assumption | constructor].
    + apply IH. assumption.
Qed.

(** When the doors come in descending order of confidence, no kept
    opening is ever replaced, and the kept openings stay 30 px apart. *)
Lemma dedup_fold_spaced (doors filtered : list Opening) :
  (forall d e, In d doors -> In e filtered -> op_confidence d <= op_confidence e) ->
  ForallOrdPairs (fun earlier later => op_confidence later <= op_confidence earlier) doors ->
  spaced filtered ->
  spaced (fold_left dedup_step doors filtered).
Proof.
  revert filtered. induction doors as [|door rest IH]; intros filtered Hconf Hsorted Hsp;
    cbn [fold_left]; [exact Hsp|].
  inversion Hsorted as [|? ? Hdoor Hrest]; subst.
  assert (Hconf' : forall d e, In d rest -> In e filtered ->
                               op_confidence d <= op_confidence e)
    by (intros d e Hd He; apply Hconf; [right; exact Hd | exact He]).
  unfold dedup_step at 2.
  destruct (first_within_30 door filtered) as [existing|] eqn:Hfirst.
  - pose proof (first_within_30_In _ _ _ Hfirst) as Hin.
    rewrite Rltb_false by (apply Hconf; [left; reflexivity | exact Hin]).
    apply IH; assumption.
  - apply first_within_30_none in Hfirst.
    apply IH; [|exact Hrest | apply spaced_snoc; assumption].
    intros d e Hd He. apply in_app_or in He as [He|[<-|[]]].
    + apply Hconf'; assumption.
    + rewrite List.Forall_forall in Hdoor. apply Hdoor. exact Hd.
Qed.

Lemma spaced_middle (l1 l2 : list Opening) (door : Opening) :
  spaced (l1 ++ door :: l2) ->
  Forall (fun existing => 30 <= opening_distance door existing) l1.
Proof.
  induction l1 as [|e l1 IH]; cbn [app]; intros Hsp; [constructor|].
  inversion Hsp as [|? ? He Hrest]; subst. constructor.
  - rewrite List.Forall_forall in He. apply He. apply in_or_app. right. left; reflexivity.
  - apply IH. exact Hrest.
Qed.

(** On openings that are already 30 px apart the loop keeps every one. *)
Lemma dedup_fold_keeps_spaced (doors filtered : list Opening) :
  spaced (filtered ++ doors) ->
  fold_left dedup_step doors filtered = filtered ++ doors.
Proof.
  revert filtered. induction doors as [|door rest IH]; intros filtered Hsp;
    cbn [fold_left]; [rewrite app_nil_r; reflexivity|].
  unfold dedup_step at 2.
  rewrite (proj2 (first_within_30_none door filtered) (spaced_middle _ _ _ Hsp)).
  rewrite IH; rewrite <- app_assoc; [reflexivity | exact Hsp].
Qed.

(** Deduplication does what its name says when the input comes in
    descending order of confidence (in particular when all confidences
    are equal): the output holds no two openings within 30 px of each
    other and a second pass changes nothing. *)
Lemma dedup_sound_without_replacement (doors : list Opening) :
  ForallOrdPairs (fun earlier later => op_confidence later <= op_confidence earlier) doors ->
  spaced (filter_duplicate_doors doors)
  /\ filter_duplicate_doors (filter_duplicate_doors doors) = filter_duplicate_doors doors.
Proof.
  intros Hsorted.
  assert (Hsp : spaced (filter_duplicate_doors doors)).
  { unfold filter_duplicate_doors. destruct (length doors <=? 1)%nat eqn:Hlen.
    - destruct doors as [|d [|d' rest]]; [constructor | | discriminate].
      constructor; constructor.
    - apply dedup_fold_spaced; [intros d e _ [] | exact Hsorted | constructor]. }
  split; [exact Hsp|].
  set (out := filter_duplicate_doors doors) in *.
  unfold filter_duplicate_doors at 1.
  destruct (length out <=? 1)%nat; [reflexivity|].
  apply (dedup_fold_keeps_spaced out []). exact Hsp.
Qed.

Lemma list_remove_head (x : Opening) (l : list Opening) : list_remove x (x :: l) = l.
Proof. cbn [list_remove]. destruct (decide (x = x)); [reflexivity | contradiction]. Qed.

Ltac eval_within_30 :=
  rewrite ?within_30_squared;
  repeat (cbn [op_position op_confidence fst snd
               opening_left opening_right swing_between];
          first [ rewrite Rltb_true by lra | rewrite Rltb_false by lra ]).

Lemma dedup_first_pass :
  filter_duplicate_doors [opening_left; opening_right; swing_between]
  = [opening_right; swing_between].
Proof.
  unfold filter_duplicate_doors. cbn [length Nat.leb fold_left].
  unfold dedup_step at 3. cbn [first_within_30 app].
  unfold dedup_step at 2. cbn [first_within_30]. eval_within_30. cbn [app].
  unfold dedup_step. cbn [first_within_30]. eval_within_30.
  rewrite list_remove_head. reflexivity.
Qed.

Lemma dedup_second_pass :
  filter_duplicate_doors [opening_right; swing_between] = [swing_between].
Proof.
  unfold filter_duplicate_doors. cbn [length Nat.leb fold_left].
  unfold dedup_step at 2. cbn [first_within_30 app].
  unfold dedup_step. cbn [first_within_30]. eval_within_30.
  rewrite list_remove_head. reflexivity.
Qed.

(** C2: the code at the failing input.  After one pass over two door
    openings 50 px apart followed by a higher-confidence swing arc
    midway, the output keeps the right opening and the arc, 25 px apart;
    a second pass then removes the right opening.  So the output of one
    pass holds two openings within 30 px of each other and is not a
    fixed point.  (Without a replacement the function does deduplicate:
    [dedup_sound_without_replacement].) *)
Theorem dedup_leaves_close_pair :
  let doors := [opening_left; opening_right; swing_between] in
  filter_duplicate_doors doors = [opening_right; swing_between]
  /\ opening_distance swing_between opening_right = 25
  /\ ~ spaced (filter_duplicate_doors doors)
  /\ filter_duplicate_doors (filter_duplicate_doors doors) = [swing_between]
  /\ filter_duplicate_doors (filter_duplicate_doors doors) <> filter_duplicate_doors doors.
Proof.
  cbv zeta. rewrite dedup_first_pass, dedup_second_pass.
  assert (Hdist : opening_distance swing_between opening_right = 25).
  { unfold opening_distance. cbn [op_position fst snd opening_right swing_between].
    replace ((225 - 250) ^ 2 + (300 - 300) ^ 2) with (25 * 25) by lra.
    apply sqrt_square. lra. }
  split; [reflexivity|]. split; [exact Hdist|].
  split; [|split; [reflexivity | discriminate]].
  intros Hsp. inversion Hsp as [|? ? Hfar _]; subst.
  inversion Hfar as [|? ? Hpair _]; subst. lra.
Qed.

End Dedup.

(** ** The result of the entry point *)

Section ResultShape.

Lemma failure_dict_lookups (e : string) :
  let result : gmap string Value :=
    <[ "success"%string := VBool false ]>
    (<[ "error"%string := VStr e ]>
    (<[ "walls"%string := VWalls [] ]> ∅)) in
  result !! "success"%string = Some (VBool false)
  /\ result !! "error"%string = Some (VStr e)
  /\ result !! "walls"%string = Some (VWalls [])
  /\ result !! "doors"%string = None
  /\ result !! "windows"%string = None
  /\ result !! "arches"%string = None.
Proof.
  cbv zeta. repeat split; simplify_map_eq; reflexivity.
Qed.

(** C4: the code on both paths.  When the body of [detect_walls_fuzzy]
    raises, the result has [success = False], the error message and an
    empty [walls] list, and it has no [doors], [windows] or [arches] entry
    at all.  When the body returns, the result has [success = True] and
    all four collections. *)
Theorem failure_result_omits_openings `{OpenCV} (image_path : string) :
  match detect_walls_fuzzy_body image_path with
  | Raised e =>
      detect_walls_fuzzy image_path !! "success"%string = Some (VBool false)
      /\ detect_walls_fuzzy image_path !! "error"%string = Some (VStr e)
      /\ detect_walls_fuzzy image_path !! "walls"%string = Some (VWalls [])
      /\ detect_walls_fuzzy image_path !! "doors"%string = None
      /\ detect_walls_fuzzy image_path !! "windows"%string = None
      /\ detect_walls_fuzzy image_path !! "arches"%string = None
  | Returned result =>
      detect_walls_fuzzy image_path = result
      /\ result !! "success"%string = Some (VBool true)
      /\ result !! "error"%string = None
      /\ (exists walls, result !! "walls"%string = Some (VWalls walls))
      /\ (exists doors, result !! "doors"%string = Some (VOpenings doors))
      /\ (exists windows, result !! "windows"%string = Some (VOpenings windows))
      /\ (exists arches, result !! "arches"%string = Some (VOpenings arches))
  end.
Proof.
  unfold detect_walls_fuzzy.
  destruct (detect_walls_fuzzy_body image_path) as [result|e] eqn:Hbody.
  - split; [reflexivity|].
    unfold detect_walls_fuzzy_body in Hbody.
    destruct (imread_gray image_path) as [gray|]; [|discriminate].
    destruct (hough_params (np_std gray)) as [[threshold minLineLength] maxLineGap].
    destruct (HoughLinesP gray threshold minLineLength maxLineGap) as [lines|];
      [|discriminate].
    injection Hbody as <-.
    split; [simplify_map_eq; reflexivity|].
    split; [simplify_map_eq; reflexivity|].
    split; [eexists; simplify_map_eq; reflexivity|].
    split; [eexists; simplify_map_eq; reflexivity|].
    split; [eexists; simplify_map_eq; reflexivity|].
    eexists; simplify_map_eq; reflexivity.
  - apply failure_dict_lookups.
Qed.

Lemma failure_result_omits_openings_witness :
  @detect_walls_fuzzy_body unreadable_image "plan.png"
  = Raised "Could not read image: plan.png"
  /\ @detect_walls_fuzzy unreadable_image "plan.png" !! "success"%string
     = Some (VBool false)
  /\ @detect_walls_fuzzy unreadable_image "plan.png" !! "walls"%string
     = Some (VWalls [])
  /\ @detect_walls_fuzzy unreadable_image "plan.png" !! "doors"%string = None
  /\ @detect_walls_fuzzy unreadable_image "plan.png" !! "windows"%string = None
  /\ @detect_walls_fuzzy unreadable_image "plan.png" !! "arches"%string = None.
Proof.
  pose proof (@failure_result_omits_openings unreadable_image "plan.png") as Hshape.
  assert (Hbody : @detect_walls_fuzzy_body unreadable_image "plan.png"
                  = Raised "Could not read image: plan.png") by reflexivity.
  rewrite Hbody in Hshape.
  destruct Hshape as (Hs & _ & Hw & Hd & Hwin & Ha).
  repeat split; assumption.
Defined.

End ResultShape.

(** ** Grouping when no two lines are parallel and close *)

Section NoGrouping.

Lemma absorb_candidates_none (existing_line : Wall) (candidates : list (nat * Wall))
  (st : GroupState) :
  (forall j w, In (j, w) candidates -> are_parallel_and_close existing_line w = false) ->
  absorb_candidates existing_line candidates st = st.
Proof.
  induction candidates as [|[j w] rest IH]; intros Hfar; cbn [absorb_candidates].
  - reflexivity.
  - assert (Hrest : forall j' w', In (j', w') rest ->
                                  are_parallel_and_close existing_line w' = false)
      by (intros j' w' Hin; apply (Hfar j' w'); right; exact Hin).
    rewrite (Hfar j w) by (left; reflexivity).
    destruct (mem j (gs_used st)); apply IH; exact Hrest.
Qed.

Lemma mem_above (i : nat) (used : list nat) :
  Forall (fun j => (j < i)%nat) used -> mem i used = false.
Proof.
  induction 1 as [|j used Hj _ IH]; [reflexivity|].
  rewrite mem_cons, IH, orb_false_r. apply Nat.eqb_neq. lia.
Qed.

Lemma group_from_singletons (lines suffix : list Wall) (start : nat) (used : list nat) :
  (forall a b, In a suffix -> In b lines -> are_parallel_and_close a b = false) ->
  Forall (fun j => (j < start)%nat) used ->
  group_from lines (enumerate_from start suffix) used = map (fun l => [l]) suffix.
Proof.
  revert start used.
  induction suffix as [|line1 rest IH]; intros start used Hfar Hused;
    cbn [enumerate_from group_from map].
  - reflexivity.
  - rewrite (mem_above start used Hused).
    cbn [grow_group scan_group nth_error gs_group].
    rewrite absorb_candidates_none.
    2:{ intros j w Hin. apply Hfar; [left; reflexivity|].
        apply enumerate_from_In in Hin. exact Hin. }
    assert (Hstop : forall fuel,
               scan_group fuel lines 1 (mkGroupState [line1] (start :: used) false)
               = mkGroupState [line1] (start :: used) false).
    { intros [|fuel]; reflexivity. }
    rewrite Hstop. cbn [gs_added gs_group gs_used].
    f_equal. apply IH.
    + intros a b Ha Hb. apply Hfar; [right; exact Ha | exact Hb].
    + constructor; [lia|]. eapply List.Forall_impl; [|exact Hused].
      intros j Hj. cbn beta in Hj. lia.
Qed.

Lemma group_parallel_lines_singletons (lines : list Wall) :
  (forall a b, In a lines -> In b lines -> are_parallel_and_close a b = false) ->
  group_parallel_lines lines = map (fun l => [l]) lines.
Proof.
  intros Hfar. apply group_from_singletons; [exact Hfar | constructor].
Qed.

Lemma merged_walls_ungrouped (lines : list Wall) :
  (forall a b, In a lines -> In b lines -> are_parallel_and_close a b = false) ->
  merged_walls lines = lines.
Proof.
  intros Hfar. unfold merged_walls, calculate_wall_thickness_from_groups.
  rewrite (group_parallel_lines_singletons lines Hfar).
  clear Hfar. induction lines as [|l lines IH]; [reflexivity|].
  cbn [map flat_map]. rewrite IH. reflexivity.
Qed.

Lemma apply_structural_focus_small (walls : list Wall) :
  (length (structural_walls walls) <= 15)%nat ->
  apply_structural_focus walls = structural_walls walls.
Proof.
  intros Hlen. unfold apply_structural_focus.
  destruct walls as [|w walls]; [reflexivity|].
  destruct (structural_walls (w :: walls)) as [|s structural] eqn:Hs.
  - reflexivity.
  - pose proof (calculate_realistic_wall_count_bounds (s :: structural)
                  ltac:(discriminate)) as [Hcap _].
    rewrite (proj2 (Nat.ltb_ge _ _)) by lia. reflexivity.
Qed.

End NoGrouping.

(** ** Stage order of the wall stage *)

Section StageOrder.

Lemma midpoint_gap_sq_nonneg (a b : Wall) : 0 <= midpoint_gap_sq a b.
Proof. unfold midpoint_gap_sq. apply Rplus_le_le_0_compat; apply pow2_ge_0. Qed.

Lemma short_lines_apart (a b : Wall) :
  (wall_length a + wall_length b) / 2 <= 200 ->
  225 <= midpoint_gap_sq a b \/ midpoint_gap_sq a b <= 1 ->
  are_parallel_and_close a b = false.
Proof.
  intros Havg Hgap. unfold are_parallel_and_close.
  destruct (Rltb 15 _); [reflexivity|].
  unfold max_thickness. rewrite (Rltb_false 500), (Rltb_false 200) by lra.
  change (line_to_line_distance a b) with (sqrt (midpoint_gap_sq a b)).
  pose proof (midpoint_gap_sq_nonneg a b) as Hd.
  destruct Hgap as [Hfar|Hnear].
  - rewrite (Rltb_false (sqrt _) 15); [apply andb_false_r|].
    destruct (Rle_or_lt 15 (sqrt (midpoint_gap_sq a b))) as [|Hc]; [assumption|].
    apply sqrt_lt_const in Hc; lra.
  - rewrite (Rltb_false 1 (sqrt _)); [reflexivity|].
    destruct (Rle_or_lt (sqrt (midpoint_gap_sq a b)) 1) as [|Hc]; [assumption|].
    apply const_lt_sqrt in Hc; lra.
Qed.

Lemma wall_distance_lt_30 (a b : Wall) :
  Rltb (wall_distance a b) 30 = Rltb (midpoint_gap_sq a b) 900.
Proof.
  change (wall_distance a b) with (sqrt (midpoint_gap_sq a b)).
  pose proof (midpoint_gap_sq_nonneg a b) as Hd.
  pose proof (sqrt_lt_const (midpoint_gap_sq a b) 30 Hd ltac:(lra)) as Hiff.
  destruct (Rltb (midpoint_gap_sq a b) 900) eqn:Hlt.
  - apply Rltb_lt in Hlt. apply Rltb_true. apply Hiff. lra.
  - apply Rltb_ge in Hlt. apply Rltb_false.
    destruct (Rle_or_lt 30 (sqrt (midpoint_gap_sq a b))) as [|Hc]; [assumption|].
    apply Hiff in Hc. lra.
Qed.

Lemma sparse_drawing_no_text_area (wall : Wall) (gray : Image) :
  @is_in_text_area sparse_drawing wall gray = false.
Proof.
  unfold is_in_text_area.
  set (x1 := Z.max 0 _). set (y1 := Z.max 0 _).
  set (x2 := Z.min (img_width gray) _). set (y2 := Z.min (img_height gray) _).
  destruct ((x2 <=? x1)%Z || (y2 <=? y1)%Z) eqn:Hempty; [reflexivity|].
  apply orb_false_iff in Hempty as [Hx Hy].
  apply Z.leb_gt in Hx, Hy.
  cbn [canny_edge_count sparse_drawing].
  set (area := ((y2 - y1) * (x2 - x1))%Z).
  assert (Harea : (0 < area)%Z) by (unfold area; nia).
  assert (Hdiv : (20 * (area / 20) <= area)%Z) by (apply Z.mul_div_le; lia).
  apply IZR_le in Hdiv. rewrite mult_IZR in Hdiv.
  apply IZR_lt in Harea.
  apply Rltb_false.
  apply Rmult_le_reg_r with (IZR area); [exact Harea|].
  unfold Rdiv. rewrite Rmult_assoc, Rinv_l by lra. lra.
Qed.

End StageOrder.

(** Unfold the concrete strokes. *)
Ltac unfold_strokes :=
  unfold text_cluster, scored, set_structural_score,
    stroke_mid, stroke_left_a, stroke_left_b, stroke_right_a, stroke_right_b,
    text_stroke in *.

Section StageSteps.

Lemma absorb_close_cons (wall1 : Wall) (j : nat) (wall2 : Wall)
  (rest : list (nat * Wall)) (cluster : list Wall) (used : list nat) :
  absorb_close wall1 ((j, wall2) :: rest) cluster used
  = if mem j used then absorb_close wall1 rest cluster used
    else if Rltb (Rabs (wall_angle wall1 - wall_angle wall2)) 10
            && Rltb (wall_distance wall1 wall2) 30
    then absorb_close wall1 rest (cluster ++ [wall2]) (j :: used)
    else absorb_close wall1 rest cluster used.
Proof. reflexivity. Qed.

Lemma build_clusters_cons (i : nat) (wall1 : Wall) (rest : list (nat * Wall))
  (used : list nat) :
  build_clusters ((i, wall1) :: rest) used
  = if mem i used then build_clusters rest used
    else let '(cluster, used') := absorb_close wall1 rest [wall1] (i :: used) in
         cluster :: build_clusters rest used'.
Proof. reflexivity. Qed.

Lemma insert_desc_cons {A : Type} (key : A -> R) (x y : A) (l : list A) :
  insert_desc key x (y :: l)
  = if Rltb (key x) (key y) then y :: insert_desc key x l else x :: y :: l.
Proof. reflexivity. Qed.

Lemma filter_cons_step {A : Type} (p : A -> bool) (x : A) (l : list A) :
  List.filter p (x :: l) = if p x then x :: List.filter p l else List.filter p l.
Proof. reflexivity. Qed.

Lemma zero_angle_within_10 : Rltb (Rabs (0 - 0)) 10 = true.
Proof.
  replace (0 - 0) with 0 by lra. rewrite Rabs_R0. apply Rltb_true. lra.
Qed.

Lemma absorb_close_nil (wall1 : Wall) (cluster : list Wall) (used : list nat) :
  absorb_close wall1 [] cluster used = (cluster, used).
Proof. reflexivity. Qed.

Lemma build_clusters_nil (used : list nat) : build_clusters [] used = [].
Proof. reflexivity. Qed.

Lemma filter_nil_step {A : Type} (p : A -> bool) : List.filter p [] = [].
Proof. reflexivity. Qed.

Lemma insert_desc_nil {A : Type} (key : A -> R) (x : A) : insert_desc key x [] = [x].
Proof. reflexivity. Qed.

End StageSteps.

(** Evaluate the wall stage on the concrete strokes, one loop iteration
    at a time. *)
Ltac cbn_stage :=
  cbn [wall_start wall_end wall_length wall_angle wall_type wall_confidence
       wall_is_sketchy wall_thickness wall_source wall_structural_score
       get_structural_score set_structural_score scored text_stroke
       stroke_mid stroke_left_a stroke_left_b stroke_right_a stroke_right_b
       fst snd andb orb negb app length
       flat_map fold_right sort_desc firstn
       Nat.leb Nat.ltb Nat.eqb mem existsb enumerate_from keep_from_cluster].

Ltac eval_stage :=
  repeat (cbn_stage;
          first [ rewrite Rltb_true by lra
                | rewrite Rltb_false by lra
                | rewrite Rleb_true by lra
                | rewrite Rleb_false by lra
                | rewrite andb_false_r
                | rewrite zero_angle_within_10
                | rewrite wall_distance_lt_30;
                  unfold midpoint_gap_sq;
                  cbn [wall_start wall_end set_structural_score scored text_stroke
                       stroke_mid stroke_left_a stroke_left_b stroke_right_a stroke_right_b
                       fst snd];
                  eval_IZR
                | rewrite absorb_close_nil
                | rewrite build_clusters_nil
                | rewrite filter_nil_step
                | rewrite absorb_close_cons
                | rewrite build_clusters_cons
                | rewrite insert_desc_cons
                | rewrite insert_desc_nil
                | rewrite filter_cons_step
                | rewrite sparse_drawing_no_text_area ]);
  cbn_stage.

Section StageOrderExample.

Lemma text_cluster_sound : Forall sound_wall text_cluster.
Proof.
  unfold text_cluster.
  repeat (apply List.Forall_cons;
          [ unfold sound_wall; unfold_strokes;
            cbn [wall_length wall_confidence wall_thickness wall_source];
            split; [lra|]; split; [lra|]; split; [lra|]; right; lra | ]).
  apply List.Forall_nil.
Qed.

Lemma text_cluster_not_grouped (a b : Wall) :
  In a text_cluster -> In b text_cluster -> are_parallel_and_close a b = false.
Proof.
  unfold text_cluster. cbn [In]. intros Ha Hb.
  repeat (destruct Ha as [<-|Ha]; [|]); try contradiction;
    repeat (destruct Hb as [<-|Hb]; [|]); try contradiction;
    (apply short_lines_apart;
     [ unfold_strokes; cbn [wall_length]; lra
     | unfold midpoint_gap_sq; unfold_strokes; cbn [wall_start wall_end fst snd];
       eval_IZR; first [ left; lra | right; lra ] ]).
Qed.

Lemma text_cluster_merged : merged_walls text_cluster = text_cluster.
Proof. apply merged_walls_ungrouped. exact text_cluster_not_grouped. Qed.

Lemma score_mid : calculate_structural_importance stroke_mid = 0.45.
Proof.
  unfold calculate_structural_importance, length_points, thickness_points, is_perimeter_wall.
  eval_stage.
  unfold Rmin. destruct (Rle_dec _ _); lra.
Qed.

Lemma score_long (x1 x2 y : Z) (length : R) :
  150 < length <= 200 ->
  calculate_structural_importance (text_stroke x1 x2 y length) = 0.55.
Proof.
  intros Hlen.
  unfold calculate_structural_importance, length_points, thickness_points, is_perimeter_wall.
  eval_stage.
  unfold Rmin. destruct (Rle_dec _ _); lra.
Qed.

Lemma text_cluster_scored :
  structural_walls text_cluster
  = [scored stroke_left_a 0.55; scored stroke_left_b 0.55;
     scored stroke_right_a 0.55; scored stroke_right_b 0.55; scored stroke_mid 0.45].
Proof.
  unfold structural_walls, text_cluster. cbn [flat_map]. unfold score_and_keep.
  rewrite score_mid.
  unfold stroke_left_a, stroke_left_b, stroke_right_a, stroke_right_b.
  rewrite !score_long by lra.
  eval_stage.
  reflexivity.
Qed.

Lemma text_cluster_focus :
  apply_structural_focus text_cluster
  = [scored stroke_left_a 0.55; scored stroke_left_b 0.55;
     scored stroke_right_a 0.55; scored stroke_right_b 0.55; scored stroke_mid 0.45].
Proof.
  rewrite apply_structural_focus_small; rewrite text_cluster_scored; [reflexivity|].
  cbn [length]. lia.
Qed.

Lemma code_order_result :
  @detect_walls sparse_drawing text_cluster page
  = [scored stroke_right_a 0.55; scored stroke_left_a 0.55; scored stroke_left_b 0.55;
     scored stroke_right_b 0.55; scored stroke_mid 0.45].
Proof.
  unfold detect_walls. rewrite consolidate_wall_segments_eq, text_cluster_merged.
  rewrite text_cluster_focus.
  unfold apply_intelligent_filtering, remove_text_clusters, is_quality_wall.
  eval_stage.
  reflexivity.
Qed.

Lemma spec_order_filtered :
  @apply_intelligent_filtering sparse_drawing text_cluster page
  = [stroke_right_a; stroke_left_a].
Proof.
  unfold apply_intelligent_filtering, remove_text_clusters, is_quality_wall, text_cluster.
  eval_stage.
  reflexivity.
Qed.

Lemma spec_order_result :
  @spec_detect_walls sparse_drawing text_cluster page
  = [scored stroke_right_a 0.55; scored stroke_left_a 0.55].
Proof.
  unfold spec_detect_walls. rewrite text_cluster_merged, spec_order_filtered.
  rewrite apply_structural_focus_small; unfold structural_walls; cbn [flat_map];
    unfold score_and_keep, stroke_right_a, stroke_left_a;
    rewrite !score_long by lra; eval_stage; [reflexivity|].
  cbn [length]. lia.
Qed.

(** C1, as stated, fails.  On five sound candidate strokes of one
    text-like cluster the code (score and cap, then filter) returns all
    five walls: scoring reorders the strokes, so the filter no longer
    sees a cluster of more than 4 around one seed.  Filtering first and
    scoring afterwards returns only the 2 longest. *)
Lemma stage_order_differs :
  Forall sound_wall text_cluster
  /\ @detect_walls sparse_drawing text_cluster page
     = [scored stroke_right_a 0.55; scored stroke_left_a 0.55; scored stroke_left_b 0.55;
        scored stroke_right_b 0.55; scored stroke_mid 0.45]
  /\ @spec_detect_walls sparse_drawing text_cluster page
     = [scored stroke_right_a 0.55; scored stroke_left_a 0.55]
  /\ @detect_walls sparse_drawing text_cluster page
     <> @spec_detect_walls sparse_drawing text_cluster page.
Proof.
  split; [exact text_cluster_sound|].
  split; [exact code_order_result|].
  split; [exact spec_order_result|].
  rewrite code_order_result, spec_order_result. discriminate.
Qed.

End StageOrderExample.

Section StageOrderTheorem.

(** C1, as the code has it.  The wall stage consolidates first, and
    consolidation ends with the structural scorer (scores, the 0.3 cut,
    the sort on the score and the adaptive cap); the noise filter runs
    on the scorer's output.  So the final walls are the noise filter
    applied to the scored and capped consolidated walls: each of them is
    one of the scorer's walls, carries a score above 0.3, passes the
    filter's tests, and the result is ordered by confidence times length,
    highest first. *)
Theorem scoring_precedes_noise_filter `{OpenCV} (candidates : list Wall) (gray : Image) :
  detect_walls candidates gray
  = apply_intelligent_filtering (apply_structural_focus (merged_walls candidates)) gray
  /\ Forall (fun w =>
               In w (apply_structural_focus (merged_walls candidates))
               /\ (exists w0, In w0 (merged_walls candidates)
                              /\ w = set_structural_score w0 (calculate_structural_importance w0)
                              /\ 0.3 < calculate_structural_importance w0)
               /\ is_quality_wall w = true
               /\ is_in_text_area w gray = false)
            (detect_walls candidates gray)
  /\ StronglySorted
       (fun a b => wall_confidence b * wall_length b <= wall_confidence a * wall_length a)
       (detect_walls candidates gray)
  /\ (length (detect_walls candidates gray)
      <= length (apply_structural_focus (merged_walls candidates)))%nat.
Proof.
  assert (Heq : detect_walls candidates gray
                = apply_intelligent_filtering
                    (apply_structural_focus (merged_walls candidates)) gray).
  { unfold detect_walls. rewrite consolidate_wall_segments_eq. reflexivity. }
  split; [exact Heq|]. rewrite Heq.
  pose proof (apply_intelligent_filtering_incl
                (apply_structural_focus (merged_walls candidates)) gray) as [Hlen Hin].
  split; [|split; [|exact Hlen]].
  - apply List.Forall_forall. intros w Hw.
    destruct (Hin w Hw) as (Hfocus & Hq & Ht).
    split; [exact Hfocus|]. split; [|split; assumption].
    apply apply_structural_focus_In, structural_walls_In in Hfocus
      as (w0 & Hw0 & Hcut & ->).
    exists w0. repeat split; assumption.
  - unfold apply_intelligent_filtering.
    apply (sort_desc_sorted (fun w => wall_confidence w * wall_length w)).
Qed.

End StageOrderTheorem.

(** ** The grouping loops run to completion

    [scan_group] and [grow_group] carry a fuel argument.  The relations
    below give the loops of [group_parallel_lines] without fuel; the
    lemmas show that the fuel the functions are called with is never
    exhausted, so the functions return what the loops return. *)

Section GroupingLoops.

Lemma unused_count_mark (universe : list (nat * Wall)) (j : nat) (w : Wall)
  (used : list nat) :
  In (j, w) universe ->
  mem j used = false ->
  (unused_count universe (j :: used) < unused_count universe used)%nat.
Proof.
  intros Hin Hj. induction universe as [|[i w'] rest IH]; [contradiction|].
  destruct Hin as [Heq|Hin].
  - injection Heq as -> ->.
    rewrite (unused_count_free j w rest used Hj).
    rewrite unused_count_used by (rewrite mem_cons, Nat.eqb_refl; reflexivity).
    pose proof (unused_count_cons_le rest j used). lia.
  - specialize (IH Hin).
    destruct (mem i used) eqn:Hi.
    + rewrite (unused_count_used i w' rest used Hi).
      rewrite unused_count_used by (rewrite mem_cons, Hi; apply orb_true_r).
      exact IH.
    + rewrite (unused_count_free i w' rest used Hi).
      pose proof (unused_count_step i w' rest (j :: used)). lia.
Qed.

(** One pass over the candidates: what it absorbs it takes from the
    unused lines, it never shrinks the group, and it raises the flag
    only by absorbing. *)
Lemma absorb_candidates_measure (universe : list (nat * Wall)) (existing_line : Wall)
  (candidates : list (nat * Wall)) (st : GroupState) :
  (forall j w, In (j, w) candidates -> In (j, w) universe) ->
  let st' := absorb_candidates existing_line candidates st in
  (unused_count universe (gs_used st') + length (gs_group st')
   <= unused_count universe (gs_used st) + length (gs_group st))%nat
  /\ (length (gs_group st) <= length (gs_group st'))%nat
  /\ (unused_count universe (gs_used st') <= unused_count universe (gs_used st))%nat
  /\ (gs_added st' = true ->
      gs_added st = true
      \/ (unused_count universe (gs_used st') < unused_count universe (gs_used st))%nat).
Proof.
  cbv zeta. revert st.
  induction candidates as [|[j w] rest IH]; intros st Hsub; cbn [absorb_candidates].
  - repeat split; try lia. intros Ha. left; exact Ha.
  - assert (Hrest : forall j' w', In (j', w') rest -> In (j', w') universe)
      by (intros j' w' Hin; apply Hsub; right; exact Hin).
    destruct (mem j (gs_used st)) eqn:Hj; [apply IH; exact Hrest|].
    destruct (are_parallel_and_close existing_line w); [|apply IH; exact Hrest].
    specialize (IH (mkGroupState (gs_group st ++ [w]) (j :: gs_used st) true) Hrest).
    cbn [gs_group gs_used gs_added] in IH. rewrite length_app in IH. cbn [length] in IH.
    destruct IH as (Hsum & Hlen & Hmono & _).
    pose proof (unused_count_mark universe j w (gs_used st)
                  (Hsub j w (or_introl eq_refl)) Hj) as Hmark.
    repeat split; first [lia | intros _; right; lia].
Qed.

Lemma scan_group_run (lines : list Wall) (fuel k : nat) (st : GroupState) :
  let universe := enumerate_from 0 lines in
  (k <= length (gs_group st))%nat ->
  (unused_count universe (gs_used st) + (length (gs_group st) - k) < fuel)%nat ->
  let st' := scan_group fuel lines k st in
  scan_run lines k st st'
  /\ (unused_count universe (gs_used st') + length (gs_group st')
      <= unused_count universe (gs_used st) + length (gs_group st))%nat
  /\ (length (gs_group st) <= length (gs_group st'))%nat
  /\ (gs_added st' = true ->
      gs_added st = true
      \/ (unused_count universe (gs_used st') < unused_count universe (gs_used st))%nat).
Proof.
  cbv zeta. revert k st.
  induction fuel as [|fuel IH]; intros k st Hk Hfuel; [lia|].
  cbn [scan_group].
  destruct (nth_error (gs_group st) k) as [existing_line|] eqn:Hnth.
  - assert (Hlt : (k < length (gs_group st))%nat)
      by (apply nth_error_Some; rewrite Hnth; discriminate).
    pose proof (absorb_candidates_measure (enumerate_from 0 lines) existing_line
                  (enumerate_from 0 lines) st (fun j w Hin => Hin)) as Habs.
    cbv zeta in Habs. destruct Habs as (Hsum & Hlen & Hmono & Hflag).
    set (st1 := absorb_candidates existing_line (enumerate_from 0 lines) st) in *.
    destruct (IH (S k) st1 ltac:(lia) ltac:(lia)) as (Hrun & Hsum' & Hlen' & Hflag').
    split; [exact (scan_next lines k st _ existing_line Hnth Hrun)|].
    repeat split; try lia.
    intros Ha. destruct (Hflag' Ha) as [Ha1|Hlt1]; [|right; lia].
    destruct (Hflag Ha1) as [Ha0|Hlt0]; [left; exact Ha0 | right; lia].
  - split; [exact (scan_exhausted lines k st Hnth)|].
    repeat split; try lia. intros Ha. left; exact Ha.
Qed.

Lemma grow_group_run (lines : list Wall) (fuel : nat) (group : list Wall)
  (used : list nat) :
  let universe := enumerate_from 0 lines in
  (unused_count universe used + length group <= length lines)%nat ->
  (unused_count universe used < fuel)%nat ->
  grow_run lines group used (grow_group fuel lines group used)
  /\ (length group <= length (fst (grow_group fuel lines group used)))%nat.
Proof.
  cbv zeta. revert group used.
  induction fuel as [|fuel IH]; intros group used Hinv Hfuel; [lia|].
  cbn [grow_group].
  pose proof (scan_group_run lines (S (length lines)) 0
                (mkGroupState group used false)) as Hscan.
  cbv zeta in Hscan. cbn [gs_group gs_used gs_added] in Hscan.
  destruct (Hscan ltac:(lia) ltac:(lia)) as (Hrun & Hsum & Hlen & Hflag).
  set (st := scan_group (S (length lines)) lines 0 (mkGroupState group used false)) in *.
  destruct (gs_added st) eqn:Hadded.
  - destruct (Hflag eq_refl) as [Hfalse|Hlt]; [discriminate|].
    destruct (IH (gs_group st) (gs_used st) ltac:(lia) ltac:(lia)) as [Hgrow Hlen'].
    split; [exact (grow_repeat lines group used st _ Hrun Hadded Hgrow) | lia].
  - split; [exact (grow_settled lines group used st Hrun Hadded) | exact Hlen].
Qed.

Lemma group_from_run (lines : list Wall) (todo : list (nat * Wall)) (used : list nat) :
  (forall i w, In (i, w) todo -> In (i, w) (enumerate_from 0 lines)) ->
  groups_run lines todo used (group_from lines todo used).
Proof.
  revert used. induction todo as [|[i line1] rest IH]; intros used Hsub;
    cbn [group_from].
  - constructor.
  - assert (Hrest : forall i' w', In (i', w') rest -> In (i', w') (enumerate_from 0 lines))
      by (intros i' w' Hin; apply Hsub; right; exact Hin).
    destruct (mem i used) eqn:Hi.
    + apply groups_skip; [exact Hi | apply IH; exact Hrest].
    + pose proof (unused_count_mark (enumerate_from 0 lines) i line1 used
                    (Hsub i line1 (or_introl eq_refl)) Hi) as Hmark.
      pose proof (unused_count_mono (enumerate_from 0 lines) [] used
                    (fun j Hj => ltac:(discriminate))) as Hall.
      rewrite unused_count_nil, enumerate_from_length in Hall.
      destruct (grow_group_run lines (S (length lines)) [line1] (i :: used))
        as [Hgrow Hlen]; [cbn [length]; lia | lia |].
      destruct (grow_group (S (length lines)) lines [line1] (i :: used))
        as [group used'] eqn:Hg.
      cbn [fst length] in Hlen.
      destruct group as [|g group]; [cbn [length] in Hlen; lia|].
      apply (groups_new lines i line1 rest used used');
        [exact Hi | exact Hgrow | cbn [length]; lia | apply IH; exact Hrest].
Qed.

(** The fuel of [group_parallel_lines] is enough: its value is the
    result of running the three nested loops to their end. *)
Lemma group_parallel_lines_run (lines : list Wall) :
  groups_run lines (enumerate_from 0 lines) [] (group_parallel_lines lines).
Proof.
  apply group_from_run. intros i w Hin. exact Hin.
Qed.

End GroupingLoops.

(** ** A complete run of the entry point *)

Section CompleteRun.

Lemma is_horizontal_0 : is_horizontal 0 = true.
Proof. apply is_horizontal_iff. left. rewrite Rabs_R0. lra. Qed.

Lemma angle_confidence_0 : angle_confidence 0 = 1.
Proof.
  rewrite (angle_confidence_horizontal 0 is_horizontal_0).
  unfold horizontal_deviation. split_abs; lra.
Qed.

Lemma sample_offsets_cons (gray : Image) (mid_x mid_y : Z) (perp_dx perp_dy : R)
  (offset : nat) (rest : list nat) (thickness : R) :
  sample_offsets gray mid_x mid_y perp_dx perp_dy (offset :: rest) thickness
  = let sample_x := py_int (IZR mid_x + INR offset * perp_dx) in
    let sample_y := py_int (IZR mid_y + INR offset * perp_dy) in
    if ((0 <=? sample_x)%Z && (sample_x <? img_width gray)%Z
        && (0 <=? sample_y)%Z && (sample_y <? img_height gray)%Z)
    then
      if (200 <? pixel gray sample_y sample_x)%Z
      then INR offset * 2
      else sample_offsets gray mid_x mid_y perp_dx perp_dy rest thickness
    else sample_offsets gray mid_x mid_y perp_dx perp_dy rest thickness.
Proof. reflexivity. Qed.

Lemma single_line_thickness : estimate_thickness 100 200 400 200 ruled_page = 6.
Proof.
  unfold estimate_thickness.
  change (squared_length 100 200 400 200) with 90000%Z.
  change (90000 <? 0)%Z with false. cbv iota.
  assert (Hlen : sqrt (IZR 90000) = 300).
  { replace (IZR 90000) with (300 * 300) by lra. apply sqrt_square. lra. }
  rewrite Hlen. rewrite (proj2 (Reqb_neq 300 0)) by lra.
  change (int32 (400 - 100)) with 300%Z. change (int32 (200 - 200)) with 0%Z.
  change (seq 3 17) with (3%nat :: seq 4 16).
  rewrite sample_offsets_cons. cbv zeta.
  change (int32 (100 + 400) / 2)%Z with 250%Z. change (int32 (200 + 200) / 2)%Z with 200%Z.
  replace (IZR 250 + INR 3 * - (0 / 300)) with (IZR 250) by (cbn [INR]; lra).
  replace (IZR 200 + INR 3 * (300 / 300)) with (IZR 203) by (cbn [INR]; lra).
  rewrite !py_int_IZR. unfold ruled_page. cbn [img_width img_height pixel].
  change ((0 <=? 250)%Z && (250 <? 800)%Z && (0 <=? 203)%Z && (203 <? 600)%Z) with true.
  change ((198 <=? 203)%Z && (203 <=? 202)%Z) with false.
  cbn [andb]. change (200 <? 255)%Z with true. cbv iota.
  unfold clamp, Rmin, Rmax. cbn [INR]. repeat destruct (Rle_dec _ _); lra.
Qed.

Lemma single_line_candidate : candidate_walls ruled_page [single_line] = [single_wall].
Proof.
  unfold candidate_walls, single_line. cbn [flat_map]. rewrite app_nil_r.
  unfold candidate_of_line.
  change (squared_length 100 200 400 200) with 90000%Z.
  change (0 <=? 90000)%Z with true.
  change (int32 (400 - 100)) with 300%Z. change (int32 (200 - 200)) with 0%Z.
  assert (Hlen : sqrt (IZR 90000) = 300).
  { replace (IZR 90000) with (300 * 300) by lra. apply sqrt_square. lra. }
  assert (Hangle : arctan2 (IZR 0) (IZR 300) * 180 / PI = 0).
  { unfold arctan2. destruct (Rlt_dec 0 300); [|lra].
    replace (0 / 300) with 0 by lra. rewrite atan_0. unfold Rdiv. rewrite !Rmult_0_l.
    reflexivity. }
  rewrite Hlen, Hangle, classify_components.
  rewrite is_horizontal_0, angle_confidence_0. cbn [orb andb].
  rewrite (Rltb_true 100 300) by lra.
  rewrite single_line_thickness. rewrite (Rltb_false 1 0.8) by lra.
  reflexivity.
Qed.

Lemma ruled_drawing_no_text_area (wall : Wall) (gray : Image) :
  @is_in_text_area ruled_drawing wall gray = false.
Proof. exact (sparse_drawing_no_text_area wall gray). Qed.

Lemma single_wall_alone (a b : Wall) :
  In a [single_wall] -> In b [single_wall] -> are_parallel_and_close a b = false.
Proof.
  intros [<-|[]] [<-|[]]. unfold are_parallel_and_close.
  destruct (Rltb 15 _); [reflexivity|].
  unfold line_to_line_distance, single_wall. cbn [wall_start wall_end fst snd].
  replace ((IZR (100 + 400) / 2 - IZR (100 + 400) / 2) ^ 2
           + (IZR (200 + 200) / 2 - IZR (200 + 200) / 2) ^ 2) with 0 by lra.
  rewrite sqrt_0. rewrite (Rltb_false 1 0) by lra. reflexivity.
Qed.

Lemma single_wall_score : calculate_structural_importance single_wall = 0.5.
Proof.
  unfold calculate_structural_importance, length_points, thickness_points,
    is_perimeter_wall, single_wall.
  cbn [wall_start wall_end wall_length wall_thickness wall_source wall_confidence].
  change ((100 <? edge_threshold)%Z || (400 <? edge_threshold)%Z
          || (200 <? edge_threshold)%Z || (200 <? edge_threshold)%Z) with false.
  cbn [andb].
  repeat first [ rewrite Rltb_true by lra | rewrite Rltb_false by lra ].
  unfold Rmin. destruct (Rle_dec _ _); lra.
Qed.

Lemma ruled_drawing_walls :
  @detect_walls ruled_drawing [single_wall] ruled_page
  = [set_structural_score single_wall 0.5].
Proof.
  unfold detect_walls.
  rewrite consolidate_wall_segments_eq, (merged_walls_ungrouped _ single_wall_alone).
  rewrite apply_structural_focus_small;
    unfold structural_walls; cbn [flat_map]; unfold score_and_keep;
    rewrite single_wall_score, (Rltb_true 0.3 0.5) by lra;
    cbn [app sort_desc fold_right insert_desc]; [|cbn [length]; lia].
  unfold apply_intelligent_filtering, remove_text_clusters. cbn [length Nat.ltb Nat.leb].
  cbn [List.filter]. unfold is_quality_wall at 1.
  cbn [wall_confidence wall_length set_structural_score single_wall].
  rewrite (Rltb_true 0.8 1), (Rltb_true 120 300) by lra. cbn [andb orb List.filter].
  rewrite ruled_drawing_no_text_area. cbn [negb sort_desc fold_right insert_desc].
  reflexivity.
Qed.

Lemma ruled_drawing_cap :
  computed_wall_cap (merged_walls (candidate_walls ruled_page [single_line])) = Some 15%nat.
Proof.
  rewrite single_line_candidate, (merged_walls_ungrouped _ single_wall_alone).
  unfold computed_wall_cap, structural_walls. cbn [flat_map]. unfold score_and_keep.
  rewrite single_wall_score, (Rltb_true 0.3 0.5) by lra.
  cbn [app sort_desc fold_right insert_desc].
  unfold calculate_realistic_wall_count, count_if, sum_lengths.
  cbn [fold_left List.filter length get_structural_score wall_structural_score
       wall_length set_structural_score single_wall INR].
  replace ((0 + 300) / 1) with 300 by lra.
  rewrite (Rltb_false 400 300), (Rltb_true 200 300) by lra.
  rewrite (Rltb_false 0.7 0.5), (Rltb_true 0.4 0.5), (Rleb_true 0.5 0.7) by lra.
  reflexivity.
Qed.

Lemma find_windows_along_wall_none `{OpenCV} (wall : Wall) (gray : Image) :
  (forall px py, has_window_break_pattern px py wall gray = false) ->
  find_windows_along_wall wall gray = [].
Proof.
  intros Hnone. unfold find_windows_along_wall.
  destruct (Rltb _ 50); [reflexivity|].
  generalize (seq 1 (Nat.max 15 (Z.to_nat (Int_part (wall_length wall / 15))) - 1 - 1)).
  generalize (Nat.max 15 (Z.to_nat (Int_part (wall_length wall / 15)))).
  intros num_samples samples. induction samples as [|i samples IH]; [reflexivity|].
  cbn [fold_left]. destruct (sample_point wall i num_samples) as [px py].
  rewrite Hnone. exact IH.
Qed.

Lemma detect_window_patterns_on_wall_none `{OpenCV} (wall : Wall) (gray : Image) :
  (forall px py, has_window_pattern_at_point px py wall gray = false) ->
  detect_window_patterns_on_wall wall gray = [].
Proof.
  intros Hnone. unfold detect_window_patterns_on_wall.
  generalize (seq 0 (Nat.max 10 (Z.to_nat (Int_part (wall_length wall / 20))))).
  generalize (Nat.max 10 (Z.to_nat (Int_part (wall_length wall / 20)))).
  intros num_samples samples. induction samples as [|i samples IH]; [reflexivity|].
  cbn [flat_map]. destruct (sample_point wall i num_samples) as [px py].
  rewrite Hnone. exact IH.
Qed.

Lemma ruled_drawing_openings (wall : Wall) :
  @detect_doors ruled_drawing ruled_page [wall] = []
  /\ @detect_windows ruled_drawing ruled_page [wall] = []
  /\ detect_arches ruled_page [wall] = [].
Proof.
  split; [reflexivity|]. split; [|reflexivity].
  unfold detect_windows, find_window_rectangles, find_window_parallel_lines.
  cbn [flat_map otsu_inv_contours ruled_drawing app].
  rewrite (@find_windows_along_wall_none ruled_drawing) by reflexivity.
  rewrite (@detect_window_patterns_on_wall_none ruled_drawing) by reflexivity.
  reflexivity.
Qed.

(** A complete run of the entry point on the ruled page: one wall, no
    openings, [success = True]; the wall cap computed on the way is 15. *)
Lemma ruled_drawing_run :
  let result := @detect_walls_fuzzy ruled_drawing "plan.png" in
  result !! "success"%string = Some (VBool true)
  /\ result !! "walls"%string = Some (VWalls [set_structural_score single_wall 0.5])
  /\ result !! "doors"%string = Some (VOpenings [])
  /\ result !! "windows"%string = Some (VOpenings [])
  /\ result !! "arches"%string = Some (VOpenings [])
  /\ result !! "totals"%string = Some (VTotals 1 0 0 0)
  /\ computed_wall_cap (merged_walls (candidate_walls ruled_page [single_line]))
     = Some 15%nat.
Proof.
  cbv zeta. unfold detect_walls_fuzzy, detect_walls_fuzzy_body.
  cbn [imread_gray ruled_drawing np_std HoughLinesP].
  unfold hough_params. rewrite (Rltb_true 20 30) by lra.
  fold single_line. rewrite single_line_candidate.
  fold ruled_drawing. rewrite ruled_drawing_walls.
  destruct (ruled_drawing_openings (set_structural_score single_wall 0.5))
    as (-> & -> & ->).
  repeat split; try (simplify_map_eq; reflexivity).
  rewrite <- single_line_candidate. exact ruled_drawing_cap.
Qed.

End CompleteRun.

(** * Part III: further properties of the detector *)

(** ** The groups of [group_parallel_lines] *)

Section GroupStructure.

Lemma enumerate_from_fst_ge {A : Type} (start : nat) (l : list A) (j : nat) :
  In j (map fst (enumerate_from start l)) -> (start <= j)%nat.
Proof.
  revert start. induction l as [|x l IH]; intros start; cbn; [intros []|].
  intros [<-|Hin]; [lia|]. specialize (IH (S start) Hin). lia.
Qed.

Lemma enumerate_from_NoDup {A : Type} (start : nat) (l : list A) :
  List.NoDup (map fst (enumerate_from start l)).
Proof.
  revert start. induction l as [|x l IH]; intros start; cbn; constructor.
  - intros Hin. apply enumerate_from_fst_ge in Hin. lia.
  - apply IH.
Qed.

Lemma enumerate_from_snd {A : Type} (start : nat) (l : list A) :
  map snd (enumerate_from start l) = l.
Proof.
  revert start. induction l as [|x l IH]; intros start; cbn; [reflexivity|].
  rewrite IH. reflexivity.
Qed.

Lemma unused_walls_nil_used (todo : list (nat * Wall)) :
  unused_walls todo [] = map snd todo.
Proof.
  unfold unused_walls. induction todo as [|[i w] rest IH]; cbn; [reflexivity|].
  cbn in IH. rewrite IH. reflexivity.
Qed.

Lemma unused_walls_cons (i : nat) (w : Wall) (rest : list (nat * Wall)) (used : list nat) :
  unused_walls ((i, w) :: rest) used
  = if mem i used then unused_walls rest used else w :: unused_walls rest used.
Proof. unfold unused_walls. cbn. destruct (mem i used); reflexivity. Qed.

Lemma unused_walls_app (l1 l2 : list (nat * Wall)) (used : list nat) :
  unused_walls (l1 ++ l2) used = unused_walls l1 used ++ unused_walls l2 used.
Proof. unfold unused_walls. rewrite List.filter_app, map_app. reflexivity. Qed.

Lemma unused_walls_In (todo : list (nat * Wall)) (used : list nat) (w : Wall) :
  In w (unused_walls todo used)
  <-> exists j, In (j, w) todo /\ mem j used = false.
Proof.
  unfold unused_walls. rewrite in_map_iff. split.
  - intros ([j w'] & Heq & Hin). cbn in Heq. subst w'.
    apply List.filter_In in Hin. destruct Hin as [Hin Hj]. cbn in Hj.
    exists j. split; [exact Hin|]. destruct (mem j used); [discriminate|reflexivity].
  - intros (j & Hin & Hj). exists (j, w). split; [reflexivity|].
    apply List.filter_In. split; [exact Hin|]. cbn. rewrite Hj. reflexivity.
Qed.

(** Marking an index that the list does not hold changes nothing. *)
Lemma unused_walls_absent (todo : list (nat * Wall)) (j : nat) (used : list nat) :
  ~ In j (map fst todo) -> unused_walls todo (j :: used) = unused_walls todo used.
Proof.
  induction todo as [|[i w] rest IH]; intros Hj; [reflexivity|].
  rewrite !unused_walls_cons, mem_cons.
  assert (Hne : Nat.eqb i j = false)
    by (apply Nat.eqb_neq; intros ->; apply Hj; left; reflexivity).
  rewrite Hne. cbn [orb]. rewrite IH by (intros Hin; apply Hj; right; exact Hin).
  reflexivity.
Qed.

(** Marking the index of an unused line takes exactly that line out. *)
Lemma unused_walls_mark (todo : list (nat * Wall)) (j : nat) (w : Wall) (used : list nat) :
  List.NoDup (map fst todo) ->
  In (j, w) todo ->
  mem j used = false ->
  Permutation (w :: unused_walls todo (j :: used)) (unused_walls todo used).
Proof.
  induction todo as [|[i w'] rest IH]; intros Hnd Hin Hj; [contradiction|].
  cbn [map fst] in Hnd. apply List.NoDup_cons_iff in Hnd. destruct Hnd as [Hfresh Hnd].
  destruct Hin as [Heq|Hin].
  - injection Heq as -> ->.
    rewrite !unused_walls_cons, mem_cons, Nat.eqb_refl, Hj. cbn [orb].
    rewrite unused_walls_absent by exact Hfresh. reflexivity.
  - assert (Hne : Nat.eqb i j = false).
    { apply Nat.eqb_neq. intros ->. apply Hfresh.
      apply in_map_iff. exists (j, w). split; [reflexivity | exact Hin]. }
    rewrite !unused_walls_cons, mem_cons, Hne. cbn [orb].
    destruct (mem i used).
    + apply IH; assumption.
    + rewrite perm_swap. apply perm_skip. apply IH; assumption.
Qed.

Variable lines : list Wall.

Let universe := enumerate_from 0 lines.

(** What one pass over the candidates keeps: the group and the unused
    lines together are the same lines, used indices stay used, and the
    group stays chained. *)
Lemma absorb_candidates_keeps (existing_line : Wall) (candidates : list (nat * Wall))
  (st : GroupState) :
  (forall j w, In (j, w) candidates -> In (j, w) universe) ->
  let st' := absorb_candidates existing_line candidates st in
  Permutation (gs_group st' ++ unused_walls universe (gs_used st'))
              (gs_group st ++ unused_walls universe (gs_used st))
  /\ (forall i, mem i (gs_used st) = true -> mem i (gs_used st') = true)
  /\ (In existing_line (gs_group st) -> chained (gs_group st) -> chained (gs_group st'))
  /\ (gs_added st = true -> gs_added st' = true)
  /\ (gs_added st' = false ->
      st' = st
      /\ forall j w, In (j, w) candidates -> mem j (gs_used st) = false ->
                     are_parallel_and_close existing_line w = false).
Proof.
  cbv zeta. revert st.
  induction candidates as [|[j w] rest IH]; intros st Hsub; cbn [absorb_candidates].
  - repeat split; try reflexivity; try (intros; assumption). intros j w [].
  - assert (Hrest : forall j' w', In (j', w') rest -> In (j', w') universe)
      by (intros j' w' Hin; apply Hsub; right; exact Hin).
    destruct (mem j (gs_used st)) eqn:Hj.
    { destruct (IH st Hrest) as (Hperm & Hmono & Hchain & Hadd & Hnone).
      split; [exact Hperm|]. split; [exact Hmono|]. split; [exact Hchain|].
      split; [exact Hadd|].
      intros Hfalse. destruct (Hnone Hfalse) as [Heq Hfar]. split; [exact Heq|].
      intros j' w' [Hhead|Hin] Hfree; [|exact (Hfar j' w' Hin Hfree)].
      injection Hhead as <- <-. congruence. }
    destruct (are_parallel_and_close existing_line w) eqn:Hclose.
    + set (st1 := mkGroupState (gs_group st ++ [w]) (j :: gs_used st) true).
      destruct (IH st1 Hrest) as (Hperm & Hmono & Hchain & Hadd & Hnone).
      split; [|split; [|split; [|split]]].
      * rewrite Hperm. unfold st1. cbn [gs_group gs_used].
        rewrite <- app_assoc. apply Permutation_app_head. cbn [app].
        apply unused_walls_mark;
          [apply enumerate_from_NoDup | apply Hsub; left; reflexivity | exact Hj].
      * intros i Hi. apply Hmono. unfold st1. cbn [gs_used].
        rewrite mem_cons, Hi. apply orb_true_r.
      * intros Hin Hch. apply Hchain; unfold st1; cbn [gs_group].
        -- apply in_or_app. left. exact Hin.
        -- exact (chained_absorb _ existing_line w Hch Hin Hclose).
      * intros _. apply Hadd. reflexivity.
      * intros Hfalse. rewrite (Hadd eq_refl) in Hfalse. discriminate.
    + destruct (IH st Hrest) as (Hperm & Hmono & Hchain & Hadd & Hnone).
      split; [exact Hperm|]. split; [exact Hmono|]. split; [exact Hchain|].
      split; [exact Hadd|].
      intros Hfalse. destruct (Hnone Hfalse) as [Heq Hfar]. split; [exact Heq|].
      intros j' w' [Hhead|Hin] Hfree; [|exact (Hfar j' w' Hin Hfree)].
      injection Hhead as <- <-. exact Hclose.
Qed.

Lemma scan_run_keeps (k : nat) (st st' : GroupState) :
  scan_run lines k st st' ->
  Permutation (gs_group st' ++ unused_walls universe (gs_used st'))
              (gs_group st ++ unused_walls universe (gs_used st))
  /\ (forall i, mem i (gs_used st) = true -> mem i (gs_used st') = true)
  /\ (chained (gs_group st) -> chained (gs_group st'))
  /\ (gs_added st' = false ->
      st' = st
      /\ forall n existing_line j w,
           (k <= n)%nat ->
           nth_error (gs_group st) n = Some existing_line ->
           In (j, w) universe -> mem j (gs_used st) = false ->
           are_parallel_and_close existing_line w = false).
Proof.
  induction 1 as [k st Hnth | k st st' existing_line Hnth Hrun IH].
  - repeat split; try reflexivity; try (intros; assumption).
    intros n existing_line j w Hle Hn.
    assert (Hlen : (length (gs_group st) <= k)%nat) by (apply nth_error_None; exact Hnth).
    assert (Hlt : (n < length (gs_group st))%nat)
      by (apply nth_error_Some; rewrite Hn; discriminate).
    lia.
  - destruct (absorb_candidates_keeps existing_line universe st (fun j w Hin => Hin))
      as (Hperm & Hmono & Hchain & _ & Hnone).
    destruct IH as (Hperm' & Hmono' & Hchain' & Hnone').
    split; [rewrite Hperm'; exact Hperm|].
    split; [intros i Hi; apply Hmono', Hmono; exact Hi|].
    split.
    { intros Hch. apply Hchain', Hchain; [|exact Hch].
      apply nth_error_In with k. exact Hnth. }
    intros Hfalse. destruct (Hnone' Hfalse) as [Heq' Hfar'].
    rewrite Heq' in Hfalse. destruct (Hnone Hfalse) as [Heq Hfar].
    split; [exact (eq_trans Heq' Heq)|].
    intros n e j w Hle Hn Hin Hfree.
    destruct (Nat.eq_dec n k) as [->|Hne].
    + rewrite Hnth in Hn. injection Hn as <-. exact (Hfar j w Hin Hfree).
    + unfold universe in Heq. rewrite Heq in Hfar'. apply (Hfar' n e j w); [lia | exact Hn | exact Hin | exact Hfree].
Qed.

Lemma grow_run_keeps (group : list Wall) (used : list nat) (result : list Wall * list nat) :
  grow_run lines group used result ->
  Permutation (fst result ++ unused_walls universe (snd result))
              (group ++ unused_walls universe used)
  /\ (forall i, mem i used = true -> mem i (snd result) = true)
  /\ (chained group -> chained (fst result))
  /\ (forall existing_line w,
        In existing_line (fst result) ->
        In w (unused_walls universe (snd result)) ->
        are_parallel_and_close existing_line w = false).
Proof.
  induction 1 as [group used st Hrun Hadded | group used st result Hrun Hadded Hgrow IH].
  - destruct (scan_run_keeps 0 _ st Hrun) as (Hperm & Hmono & Hchain & Hnone).
    cbn [gs_group gs_used gs_added fst snd] in *.
    split; [exact Hperm|]. split; [exact Hmono|]. split; [exact Hchain|].
    intros e w He Hw. destruct (Hnone Hadded) as [Heq Hfar].
    apply unused_walls_In in Hw. destruct Hw as (j & Hin & Hfree).
    apply In_nth_error in He. destruct He as [n Hn].
    rewrite Heq in Hn, Hfree. cbn [gs_group gs_used] in Hn, Hfree.
    apply (Hfar n e j w); [lia | exact Hn | exact Hin | exact Hfree].
  - destruct (scan_run_keeps 0 _ st Hrun) as (Hperm & Hmono & Hchain & _).
    cbn [gs_group gs_used gs_added fst snd] in *.
    destruct IH as (Hperm' & Hmono' & Hchain' & Hfar').
    split; [rewrite Hperm'; exact Hperm|].
    split; [intros i Hi; apply Hmono', Hmono; exact Hi|].
    split; [intros Hch; apply Hchain', Hchain; exact Hch|].
    exact Hfar'.
Qed.

Lemma groups_run_keeps (done todo : list (nat * Wall)) (used : list nat)
  (groups : list (list Wall)) :
  universe = done ++ todo ->
  (forall i w, In (i, w) done -> mem i used = true) ->
  groups_run lines todo used groups ->
  Permutation (concat groups) (unused_walls universe used)
  /\ Forall chained groups
  /\ ForallOrdPairs apart groups.
Proof.
  intros Hsplit Hdone Hrun. revert done Hsplit Hdone.
  induction Hrun as [used | i line1 rest used groups Hi Hrun IH
                     | i line1 rest used used' group groups Hi Hgrow Hlen Hrun IH];
    intros done Hsplit Hdone.
  - rewrite app_nil_r in Hsplit. split; [|split; constructor].
    cbn [concat].
    assert (Hnone : forall todo, (forall i w, In (i, w) todo -> mem i used = true) ->
                                 unused_walls todo used = []).
    { induction todo as [|[i w] rest IH]; intros Hall; [reflexivity|].
      rewrite unused_walls_cons, (Hall i w (or_introl eq_refl)).
      apply IH. intros i' w' Hin. apply (Hall i' w'). right. exact Hin. }
    rewrite Hsplit, Hnone by exact Hdone. reflexivity.
  - apply (IH (done ++ [(i, line1)])).
    + rewrite <- app_assoc. exact Hsplit.
    + intros i' w' Hin. apply in_app_or in Hin. destruct Hin as [Hin|[Heq|[]]].
      * exact (Hdone i' w' Hin).
      * injection Heq as <- <-. exact Hi.
  - destruct (grow_run_keeps _ _ _ Hgrow) as (Hperm & Hmono & Hchain & Hfar).
    cbn [fst snd] in *.
    destruct (IH (done ++ [(i, line1)])) as (Hperm' & Hchain' & Hapart').
    { rewrite <- app_assoc. exact Hsplit. }
    { intros i' w' Hin. apply Hmono. rewrite mem_cons.
      apply in_app_or in Hin. destruct Hin as [Hin|[Heq|[]]].
      - rewrite (Hdone i' w' Hin). apply orb_true_r.
      - injection Heq as <- <-. rewrite Nat.eqb_refl. reflexivity. }
    split; [|split].
    + cbn [concat]. rewrite Hperm', Hperm. cbn [app].
      apply unused_walls_mark; [apply enumerate_from_NoDup | | exact Hi].
      fold universe. rewrite Hsplit. apply in_or_app. right. left. reflexivity.
    + constructor; [apply Hchain; constructor | exact Hchain'].
    + constructor; [|exact Hapart'].
      apply List.Forall_forall. intros group2 Hin2 a b Ha Hb.
      apply Hfar; [exact Ha|].
      apply (Permutation_in b Hperm'). apply in_concat. exists group2. split; assumption.
Qed.

Lemma group_parallel_lines_keeps :
  Permutation (concat (group_parallel_lines lines)) lines
  /\ Forall chained (group_parallel_lines lines)
  /\ ForallOrdPairs apart (group_parallel_lines lines).
Proof.
  destruct (groups_run_keeps [] universe [] (group_parallel_lines lines) eq_refl)
    as (Hperm & Hchain & Hapart).
  - intros i w [].
  - apply group_parallel_lines_run.
  - split; [|split; assumption].
    rewrite Hperm, unused_walls_nil_used. unfold universe.
    rewrite enumerate_from_snd. reflexivity.
Qed.

End GroupStructure.

Section GroupTheorems.

Lemma are_parallel_and_close_sym (line1 line2 : Wall) :
  are_parallel_and_close line1 line2 = are_parallel_and_close line2 line1.
Proof.
  unfold are_parallel_and_close, wrapped_angle_diff, max_thickness, line_to_line_distance.
  rewrite (Rabs_minus_sym (wall_angle line1) (wall_angle line2)).
  rewrite (Rplus_comm (wall_length line1) (wall_length line2)).
  set (dx := IZR (fst (wall_start line2) + fst (wall_end line2)) / 2
             - IZR (fst (wall_start line1) + fst (wall_end line1)) / 2).
  set (dy := IZR (snd (wall_start line2) + snd (wall_end line2)) / 2
             - IZR (snd (wall_start line1) + snd (wall_end line1)) / 2).
  replace (IZR (fst (wall_start line1) + fst (wall_end line1)) / 2
           - IZR (fst (wall_start line2) + fst (wall_end line2)) / 2) with (- dx)
    by (unfold dx; lra).
  replace (IZR (snd (wall_start line1) + snd (wall_end line1)) / 2
           - IZR (snd (wall_start line2) + snd (wall_end line2)) / 2) with (- dy)
    by (unfold dy; lra).
  replace ((- dx) ^ 2 + (- dy) ^ 2) with (dx ^ 2 + dy ^ 2) by ring.
  reflexivity.
Qed.

Lemma ForallOrdPairs_impl {A : Type} (R S : A -> A -> Prop) (l : list A) :
  (forall a b, R a b -> S a b) -> ForallOrdPairs R l -> ForallOrdPairs S l.
Proof.
  intros Himpl. induction 1 as [|a l Hhead _ IH]; constructor; [|exact IH].
  apply (List.Forall_impl _ (Himpl a)). exact Hhead.
Qed.

Lemma chained_nonempty (group : list Wall) : chained group -> group <> [].
Proof.
  intros [line1|g e c _ _ _]; [discriminate|].
  intros Heq. apply app_eq_nil in Heq. destruct Heq as [_ Heq]. discriminate.
Qed.

Lemma concat_length_ge {A : Type} (ls : list (list A)) :
  Forall (fun l => l <> []) ls -> (length ls <= length (concat ls))%nat.
Proof.
  induction 1 as [|l ls Hl _ IH]; cbn [concat length]; [lia|].
  rewrite length_app. destruct l; [contradiction|]. cbn [length]. lia.
Qed.

Lemma concat_length_member {A : Type} (ls : list (list A)) (l : list A) :
  In l ls -> (length l <= length (concat ls))%nat.
Proof.
  induction ls as [|l' ls IH]; intros Hin; [contradiction|].
  cbn [concat]. rewrite length_app. destruct Hin as [->|Hin]; [lia|].
  specialize (IH Hin). lia.
Qed.

Lemma group_parallel_lines_count (lines : list Wall) :
  Forall (fun group => group <> []) (group_parallel_lines lines)
  /\ (length (group_parallel_lines lines) <= length lines)%nat.
Proof.
  destruct (group_parallel_lines_keeps lines) as (Hperm & Hchain & _).
  assert (Hne : Forall (fun group => group <> []) (group_parallel_lines lines)).
  { apply (List.Forall_impl _ chained_nonempty). exact Hchain. }
  split; [exact Hne|].
  rewrite <- (Permutation_length Hperm). apply concat_length_ge. exact Hne.
Qed.

(** X1.  [group_parallel_lines] partitions its input: the groups, put
    end to end, are a rearrangement of the input lines (every line ends
    up in exactly one group, none is lost or repeated), no group is
    empty, and so there are at most as many groups as lines and no group
    is longer than the input. *)
Theorem group_parallel_lines_partition (lines : list Wall) :
  Permutation (concat (group_parallel_lines lines)) lines
  /\ Forall (fun group => group <> []) (group_parallel_lines lines)
  /\ (length (group_parallel_lines lines) <= length lines)%nat
  /\ Forall (fun group => (length group <= length lines)%nat) (group_parallel_lines lines).
Proof.
  destruct (group_parallel_lines_keeps lines) as (Hperm & _ & _).
  destruct (group_parallel_lines_count lines) as [Hne Hlen].
  split; [exact Hperm|]. split; [exact Hne|]. split; [exact Hlen|].
  rewrite <- (Permutation_length Hperm).
  apply List.Forall_forall. intros group Hin. apply concat_length_member. exact Hin.
Qed.

(** X2.  The groups of [group_parallel_lines] are the connected
    components of the relation [are_parallel_and_close]: inside a group
    every line after the first is parallel and close to a line that
    entered the group before it, and no line of one group is parallel
    and close, in either direction, to a line of another group. *)
Theorem group_parallel_lines_components (lines : list Wall) :
  Forall chained (group_parallel_lines lines)
  /\ ForallOrdPairs
       (fun group1 group2 =>
          forall a b, In a group1 -> In b group2 ->
                      are_parallel_and_close a b = false
                      /\ are_parallel_and_close b a = false)
       (group_parallel_lines lines).
Proof.
  destruct (group_parallel_lines_keeps lines) as (_ & Hchain & Hapart).
  split; [exact Hchain|].
  apply (ForallOrdPairs_impl apart); [|exact Hapart].
  intros group1 group2 Hfar a b Ha Hb.
  split; [|rewrite are_parallel_and_close_sym]; apply Hfar; assumption.
Qed.

End GroupTheorems.

(** ** The clusters of [remove_text_clusters] *)

Section ClusterStructure.

Lemma absorb_close_keeps (wall1 : Wall) (later : list (nat * Wall))
  (cluster : list Wall) (used : list nat) :
  List.NoDup (map fst later) ->
  let result := absorb_close wall1 later cluster used in
  Permutation (fst result ++ unused_walls later (snd result))
              (cluster ++ unused_walls later used)
  /\ exists absorbed, fst result = cluster ++ absorbed /\ Forall (close_to wall1) absorbed.
Proof.
  cbv zeta. revert cluster used.
  induction later as [|[j wall2] rest IH]; intros cluster used Hnd; cbn [absorb_close].
  - split; [reflexivity|]. exists []. rewrite app_nil_r. split; [reflexivity | constructor].
  - cbn [map fst] in Hnd. apply List.NoDup_cons_iff in Hnd. destruct Hnd as [Hfresh Hnd].
    destruct (mem j used) eqn:Hj.
    { destruct (IH cluster used Hnd) as [Hperm Hstar]. split; [|exact Hstar].
      rewrite !unused_walls_cons, Hj.
      rewrite (absorb_close_used wall1 rest cluster used j Hj). exact Hperm. }
    destruct (Rltb (Rabs (wall_angle wall1 - wall_angle wall2)) 10
              && Rltb (wall_distance wall1 wall2) 30) eqn:Hclose.
    + destruct (IH (cluster ++ [wall2]) (j :: used) Hnd) as [Hperm (absorbed & Heq & Hall)].
      assert (Hused : mem j (snd (absorb_close wall1 rest (cluster ++ [wall2]) (j :: used)))
                      = true).
      { apply absorb_close_used. rewrite mem_cons, Nat.eqb_refl. reflexivity. }
      split.
      * rewrite unused_walls_cons, Hused, Hperm, unused_walls_cons, Hj.
        rewrite unused_walls_absent by exact Hfresh.
        rewrite <- app_assoc. apply Permutation_app_head. reflexivity.
      * exists (wall2 :: absorbed). split; [rewrite Heq, <- app_assoc; reflexivity|].
        constructor; [|exact Hall].
        apply andb_true_iff in Hclose. destruct Hclose as [Ha Hd].
        split; apply Rltb_lt; assumption.
    + destruct (IH cluster used Hnd) as [Hperm Hstar]. split; [|exact Hstar].
      rewrite (unused_walls_cons j wall2 rest used), Hj.
      rewrite unused_walls_cons.
      destruct (mem j (snd (absorb_close wall1 rest cluster used))) eqn:Hj'.
      * exfalso. revert Hj'. apply not_true_iff_false.
        clear - Hj Hfresh. revert cluster used Hj.
        induction rest as [|[i w] rest IH]; intros cluster used Hj; cbn [absorb_close snd].
        -- exact Hj.
        -- assert (Hne : Nat.eqb j i = false).
           { apply Nat.eqb_neq. intros ->. apply Hfresh. left. reflexivity. }
           assert (Hrest : ~ In j (map fst rest))
             by (intros Hin; apply Hfresh; right; exact Hin).
           destruct (mem i used); [apply IH; assumption|].
           destruct (_ && _); apply IH; try assumption.
           rewrite mem_cons, Hne. exact Hj.
      * rewrite <- Permutation_middle. rewrite Hperm. rewrite Permutation_middle.
        reflexivity.
Qed.

Lemma build_clusters_keeps (todo : list (nat * Wall)) (used : list nat) :
  List.NoDup (map fst todo) ->
  Permutation (concat (build_clusters todo used)) (unused_walls todo used)
  /\ Forall seeded (build_clusters todo used).
Proof.
  revert used. induction todo as [|[i wall1] rest IH]; intros used Hnd;
    cbn [build_clusters].
  - split; [reflexivity | constructor].
  - cbn [map fst] in Hnd. apply List.NoDup_cons_iff in Hnd. destruct Hnd as [Hfresh Hnd].
    rewrite unused_walls_cons.
    destruct (mem i used) eqn:Hi; [apply IH; exact Hnd|].
    destruct (absorb_close_keeps wall1 rest [wall1] (i :: used) Hnd)
      as [Hperm (absorbed & Heq & Hall)].
    destruct (absorb_close wall1 rest [wall1] (i :: used)) as [cluster used'] eqn:Hab.
    cbn [fst snd] in *.
    destruct (IH used' Hnd) as [Hperm' Hseeded].
    split.
    + cbn [concat]. rewrite Hperm', Hperm.
      rewrite unused_walls_absent by exact Hfresh. reflexivity.
    + constructor; [|exact Hseeded]. rewrite Heq. cbn [app seeded]. exact Hall.
Qed.

(** X3.  [remove_text_clusters] first partitions the walls into
    clusters: the clusters, put end to end, are a rearrangement of the
    input, and each cluster is a first wall followed by later walls that
    are each within 10 degrees and 30 px of that first wall.  For three
    or more walls the result is what [keep_from_cluster] keeps of every
    cluster; fewer walls pass unchanged.  A cluster of at most 4 walls
    is kept whole; of a larger cluster exactly two walls are kept, the
    longer one first, and every wall dropped from it is no longer than
    either. *)
Theorem remove_text_clusters_partition (walls : list Wall) :
  let clusters := build_clusters (enumerate_from 0 walls) [] in
  Permutation (concat clusters) walls
  /\ Forall seeded clusters
  /\ ((3 <= length walls)%nat ->
      remove_text_clusters walls = flat_map keep_from_cluster clusters)
  /\ ((length walls < 3)%nat -> remove_text_clusters walls = walls)
  /\ (forall cluster : list Wall,
        ((length cluster <= 4)%nat -> keep_from_cluster cluster = cluster)
        /\ ((4 < length cluster)%nat ->
            exists kept1 kept2 dropped,
              keep_from_cluster cluster = [kept1; kept2]
              /\ Permutation (kept1 :: kept2 :: dropped) cluster
              /\ wall_length kept2 <= wall_length kept1
              /\ Forall (fun d => wall_length d <= wall_length kept2) dropped)).
Proof.
  cbv zeta.
  destruct (build_clusters_keeps (enumerate_from 0 walls) [] (enumerate_from_NoDup 0 walls))
    as [Hperm Hseeded].
  split; [|split; [exact Hseeded|split; [|split]]].
  - rewrite Hperm, unused_walls_nil_used, enumerate_from_snd. reflexivity.
  - intros Hlen. unfold remove_text_clusters.
    rewrite (proj2 (Nat.ltb_ge _ _)) by lia. reflexivity.
  - intros Hlen. unfold remove_text_clusters.
    rewrite (proj2 (Nat.ltb_lt _ _)) by lia. reflexivity.
  - intros cluster. unfold keep_from_cluster. split; intros Hlen.
    + rewrite (proj2 (Nat.leb_le _ _)) by lia. reflexivity.
    + rewrite (proj2 (Nat.leb_gt _ _)) by lia.
      pose proof (sort_desc_perm wall_length cluster) as Hsort.
      pose proof (sort_desc_sorted wall_length cluster) as Hsorted.
      pose proof (sort_desc_length wall_length cluster) as Hslen.
      destruct (sort_desc wall_length cluster) as [|kept1 [|kept2 dropped]];
        cbn [length] in Hslen; try lia.
      exists kept1, kept2, dropped. cbn [firstn].
      split; [reflexivity|]. split; [symmetry; exact Hsort|].
      apply StronglySorted_inv in Hsorted. destruct Hsorted as [Hrest Hfirst].
      apply StronglySorted_inv in Hrest. destruct Hrest as [_ Hsecond].
      split; [|exact Hsecond].
      apply List.Forall_inv in Hfirst. exact Hfirst.
Qed.

End ClusterStructure.

(** ** Candidate walls *)

Section CandidateTheorems.

Lemma unclassified_iff (angle : R) :
  is_horizontal angle || is_vertical angle || is_diagonal angle = false
  <-> 15 <= Rabs angle <= 35 \/ 55 <= Rabs angle <= 75
      \/ 105 <= Rabs angle <= 125 \/ 145 <= Rabs angle <= 165.
Proof.
  rewrite !orb_false_iff.
  rewrite <- !not_true_iff_false, is_horizontal_iff, is_vertical_iff, is_diagonal_iff.
  split; [intros [[Hh Hv] Hd] | intros H; repeat split; intros Hb]; lra.
Qed.

(** X4.  [classify_angle_fuzzy] looks only at the absolute value of the
    angle, so an angle and its negation get the same bands and the same
    confidence.  The confidence always lies in [0.4, 1], and is at least
    0.5 in the horizontal and vertical bands.  The angles that fall in
    no band are exactly those with an absolute value in [15, 35],
    [55, 75], [105, 125] or [145, 165]; for them the function returns
    the confidence 1.0. *)
Theorem classify_angle_fuzzy_bands (angle : R) :
  classify_angle_fuzzy (- angle) = classify_angle_fuzzy angle
  /\ 0.4 <= angle_confidence angle <= 1
  /\ (is_horizontal angle || is_vertical angle = true -> 0.5 <= angle_confidence angle)
  /\ (is_horizontal angle || is_vertical angle || is_diagonal angle = false
      <-> 15 <= Rabs angle <= 35 \/ 55 <= Rabs angle <= 75
          \/ 105 <= Rabs angle <= 125 \/ 145 <= Rabs angle <= 165)
  /\ (is_horizontal angle || is_vertical angle || is_diagonal angle = false ->
      angle_confidence angle = 1).
Proof.
  split; [|split; [|split; [|split; [exact (unclassified_iff angle)|]]]].
  - unfold classify_angle_fuzzy, horizontal_deviation, vertical_deviation,
      diagonal_deviation.
    rewrite Rabs_Ropp. reflexivity.
  - destruct (is_horizontal angle || is_vertical angle || is_diagonal angle) eqn:Hband.
    + apply angle_confidence_lower. exact Hband.
    + apply orb_false_iff in Hband. destruct Hband as [Hhv Hd].
      apply orb_false_iff in Hhv. destruct Hhv as [Hh Hv].
      unfold angle_confidence. rewrite classify_components in *.
      unfold is_horizontal, is_vertical, is_diagonal, angle_confidence in *.
      unfold classify_angle_fuzzy in *. cbn [fst snd] in *.
      rewrite Hh, Hv, Hd. lra.
  - intros Hhv. unfold angle_confidence, is_horizontal, is_vertical in *.
    unfold classify_angle_fuzzy in *. cbn [fst snd] in *.
    destruct (Rltb (Rabs angle) 15 || Rltb 165 (Rabs angle)); [apply Rmax_l|].
    cbn [orb] in Hhv. rewrite Hhv. apply Rmax_l.
  - intros Hband.
    apply orb_false_iff in Hband. destruct Hband as [Hhv Hd].
    apply orb_false_iff in Hhv. destruct Hhv as [Hh Hv].
    unfold is_horizontal, is_vertical, is_diagonal, angle_confidence in *.
    unfold classify_angle_fuzzy in *. cbn [fst snd] in *.
    rewrite Hh, Hv, Hd. lra.
Qed.

Lemma sample_offsets_value (gray : Image) (mid_x mid_y : Z) (perp_dx perp_dy : R)
  (offsets : list nat) (thickness : R) :
  sample_offsets gray mid_x mid_y perp_dx perp_dy offsets thickness = thickness
  \/ exists offset, In offset offsets
       /\ sample_offsets gray mid_x mid_y perp_dx perp_dy offsets thickness
          = INR offset * 2.
Proof.
  induction offsets as [|offset rest IH]; cbn [sample_offsets]; [left; reflexivity|].
  assert (Hrest : sample_offsets gray mid_x mid_y perp_dx perp_dy rest thickness = thickness
                  \/ exists offset', In offset' (offset :: rest)
                       /\ sample_offsets gray mid_x mid_y perp_dx perp_dy rest thickness
                          = INR offset' * 2).
  { destruct IH as [Heq|(o & Hin & Heq)]; [left; exact Heq|].
    right. exists o. split; [right; exact Hin | exact Heq]. }
  destruct (_ && _); [|exact Hrest].
  destruct (200 <? _)%Z; [|exact Hrest].
  right. exists offset. split; [left; reflexivity | reflexivity].
Qed.

(** X5.  [estimate_thickness] returns twice the first offset (3 to 19
    px) at which the sample across the line is brighter than 200,
    capped at 25, and 6 when no sample is: the result is one of 6, 8,
    ..., 24, 25.  It is never below 6, so the lower clamp at 3 never
    acts. *)
Theorem estimate_thickness_values (x1 y1 x2 y2 : Z) (gray : Image) :
  exists offset : nat,
    (3 <= offset <= 19)%nat
    /\ estimate_thickness x1 y1 x2 y2 gray = Rmin (INR offset * 2) 25
    /\ 6 <= estimate_thickness x1 y1 x2 y2 gray <= 25.
Proof.
  unfold estimate_thickness.
  destruct (_ <? 0)%Z.
  { exists 3%nat. split; [lia|]. cbn [INR]. unfold clamp, Rmin, Rmax.
    destruct (Rle_dec 6.0 3); [lra|]. destruct (Rle_dec _ _); destruct (Rle_dec _ _); lra. }
  destruct (Reqb _ 0).
  - exists 3%nat. split; [lia|]. cbn [INR]. unfold Rmin.
    destruct (Rle_dec _ _); lra.
  - set (perp_dx := - (_ / _)). set (perp_dy := _ / _).
    set (mid_x := (int32 (x1 + x2) / 2)%Z). set (mid_y := (int32 (y1 + y2) / 2)%Z).
    destruct (sample_offsets_value gray mid_x mid_y perp_dx perp_dy (seq 3 17) 6.0)
      as [Heq|(offset & Hin & Heq)].
    + exists 3%nat. split; [lia|]. rewrite Heq. cbn [INR]. unfold clamp, Rmin, Rmax.
      destruct (Rle_dec 6.0 3); [lra|]. destruct (Rle_dec _ _); destruct (Rle_dec _ _); lra.
    + apply in_seq in Hin. exists offset. split; [lia|]. rewrite Heq.
      assert (Hoff : 3 <= INR offset).
      { replace 3 with (INR 3) by (cbn; lra). apply le_INR. lia. }
      unfold clamp, Rmax. destruct (Rle_dec (INR offset * 2) 3); [lra|].
      split; [reflexivity|]. unfold Rmin. destruct (Rle_dec _ _); lra.
Qed.

Lemma int32_small (z : Z) :
  (-2147483648 <= z < 2147483648)%Z -> int32 z = z.
Proof. intros Hz. unfold int32. rewrite Z.mod_small by lia. lia. Qed.

Lemma int32_range (z : Z) : (-2147483648 <= int32 z < 2147483648)%Z.
Proof.
  unfold int32.
  pose proof (Z.mod_pos_bound (z + 2147483648) 4294967296 eq_refl). lia.
Qed.

(** Differences of at most 32767 px do not wrap around. *)
Lemma squared_length_exact (x1 y1 x2 y2 : Z) :
  (Z.abs (x2 - x1) <= 32767)%Z -> (Z.abs (y2 - y1) <= 32767)%Z ->
  squared_length x1 y1 x2 y2 = ((x2 - x1) ^ 2 + (y2 - y1) ^ 2)%Z
  /\ int32 (x2 - x1) = (x2 - x1)%Z
  /\ int32 (y2 - y1) = (y2 - y1)%Z.
Proof.
  intros Hx Hy. unfold squared_length.
  rewrite (int32_small (x2 - x1)) by lia. rewrite (int32_small (y2 - y1)) by lia.
  assert (Hxx : (0 <= (x2 - x1) ^ 2 <= 1073676289)%Z) by nia.
  assert (Hyy : (0 <= (y2 - y1) ^ 2 <= 1073676289)%Z) by nia.
  rewrite (int32_small ((x2 - x1) ^ 2)) by lia.
  rewrite (int32_small ((y2 - y1) ^ 2)) by lia.
  rewrite int32_small by lia. repeat split.
Qed.

Lemma candidate_of_line_shape (gray : Image) (line : Z * Z * Z * Z) (w : Wall) :
  In w (candidate_of_line gray line) ->
  let '(x1, y1, x2, y2) := line in
  wall_start w = (x1, y1)
  /\ wall_end w = (x2, y2)
  /\ (0 <= squared_length x1 y1 x2 y2)%Z
  /\ wall_length w = sqrt (IZR (squared_length x1 y1 x2 y2))
  /\ wall_angle w
     = arctan2 (IZR (int32 (y2 - y1))) (IZR (int32 (x2 - x1))) * 180 / PI
  /\ 100 < wall_length w
  /\ is_horizontal (wall_angle w) || is_vertical (wall_angle w)
     || is_diagonal (wall_angle w) = true
  /\ wall_confidence w = angle_confidence (wall_angle w)
  /\ wall_is_sketchy w = Rltb (wall_confidence w) 0.8
  /\ wall_thickness w = estimate_thickness x1 y1 x2 y2 gray
  /\ wall_source w = fuzzy_canny
  /\ wall_structural_score w = None.
Proof.
  destruct line as [[[x1 y1] x2] y2]. unfold candidate_of_line.
  rewrite classify_components.
  destruct (_ && (_ && Rltb 100 _)) eqn:Hkeep; [|intros []].
  apply andb_true_iff in Hkeep. destruct Hkeep as [Hband Hkeep].
  apply andb_true_iff in Hkeep. destruct Hkeep as [Hsq Hlen].
  apply Z.leb_le in Hsq. apply Rltb_lt in Hlen.
  intros [<-|[]]. cbn [wall_start wall_end wall_length wall_angle wall_confidence
                        wall_is_sketchy wall_thickness wall_source wall_structural_score].
  repeat (split; [first [reflexivity | assumption]|]). reflexivity.
Qed.

Lemma candidate_walls_length (gray : Image) (lines : list (Z * Z * Z * Z)) :
  (length (candidate_walls gray lines) <= length lines)%nat.
Proof.
  unfold candidate_walls. induction lines as [|line lines IH]; [cbn; lia|].
  cbn [flat_map]. rewrite length_app. cbn [length].
  assert (Hone : (length (candidate_of_line gray line) <= 1)%nat).
  { destruct line as [[[x1 y1] x2] y2]. unfold candidate_of_line.
    destruct (classify_angle_fuzzy _) as [[[h v] d] c].
    destruct (_ && _); cbn [length]; lia. }
  lia.
Qed.

Lemma wrapped_length_bounds : 24597 < sqrt (IZR 605032704) < 24598.
Proof.
  split.
  - rewrite <- (sqrt_square 24597) by lra. apply sqrt_lt_1; lra.
  - rewrite <- (sqrt_square 24598) by lra. apply sqrt_lt_1; lra.
Qed.

(** X6.  The candidate loop of [detect_walls_fuzzy] computes the squared
    length of a Hough line in [int32] arithmetic ([squared_length]) and
    drops the line exactly when that number is negative (the length is
    [nan]), when its square root is at most 100, or when the angle falls
    in none of the three bands.  Every candidate carries the end points
    of its line, the square root of the wrapped squared length as its
    length, the angle of the line, the confidence of that angle, the
    flag [is_sketchy] exactly when that confidence is below 0.8, the
    source [fuzzy_canny] and no structural score; there are never more
    candidates than lines.  When both coordinate differences are at most
    32767 px nothing wraps and length and angle are the Euclidean ones.
    Beyond that they are not: the line from (0, 0) to (70000, 0) is kept
    with the length sqrt(605032704), about 24597.4, and the line from
    (0, 0) to (46341, 0) is dropped. *)
Theorem candidate_walls_filter (gray : Image) (lines : list (Z * Z * Z * Z)) :
  (length (candidate_walls gray lines) <= length lines)%nat
  /\ (forall w, In w (candidate_walls gray lines) ->
        exists x1 y1 x2 y2,
          In (x1, y1, x2, y2) lines
          /\ wall_start w = (x1, y1)
          /\ wall_end w = (x2, y2)
          /\ (0 <= squared_length x1 y1 x2 y2)%Z
          /\ wall_length w = sqrt (IZR (squared_length x1 y1 x2 y2))
          /\ wall_angle w
             = arctan2 (IZR (int32 (y2 - y1))) (IZR (int32 (x2 - x1))) * 180 / PI
          /\ 100 < wall_length w
          /\ is_horizontal (wall_angle w) || is_vertical (wall_angle w)
             || is_diagonal (wall_angle w) = true
          /\ wall_confidence w = angle_confidence (wall_angle w)
          /\ (wall_is_sketchy w = true <-> wall_confidence w < 0.8)
          /\ wall_source w = fuzzy_canny
          /\ wall_structural_score w = None)
  /\ (forall x1 y1 x2 y2,
        let squared := squared_length x1 y1 x2 y2 in
        let angle :=
          arctan2 (IZR (int32 (y2 - y1))) (IZR (int32 (x2 - x1))) * 180 / PI in
        candidate_of_line gray (x1, y1, x2, y2) = []
        <-> (squared < 0)%Z
            \/ sqrt (IZR squared) <= 100
            \/ is_horizontal angle || is_vertical angle || is_diagonal angle = false)
  /\ (forall x1 y1 x2 y2,
        (Z.abs (x2 - x1) <= 32767)%Z -> (Z.abs (y2 - y1) <= 32767)%Z ->
        squared_length x1 y1 x2 y2 = ((x2 - x1) ^ 2 + (y2 - y1) ^ 2)%Z
        /\ int32 (x2 - x1) = (x2 - x1)%Z
        /\ int32 (y2 - y1) = (y2 - y1)%Z)
  /\ squared_length 0 0 70000 0 = 605032704%Z
  /\ map wall_length (candidate_of_line gray (0, 0, 70000, 0)%Z) = [sqrt (IZR 605032704)]
  /\ 24597 < sqrt (IZR 605032704) < 24598
  /\ squared_length 0 0 46341 0 = (-2147479015)%Z
  /\ candidate_of_line gray (0, 0, 46341, 0)%Z = [].
Proof.
  split; [|split; [|split; [|split; [|split; [|split; [|split; [|split]]]]]]].
  - apply candidate_walls_length.
  - intros w Hin. unfold candidate_walls in Hin. apply in_flat_map in Hin.
    destruct Hin as ([[[x1 y1] x2] y2] & Hline & Hw).
    pose proof (candidate_of_line_shape gray _ w Hw) as Hshape. cbn beta iota in Hshape.
    destruct Hshape
      as (Hs & He & Hsq & Hl & Ha & Hlong & Hband & Hc & Hsk & _ & Hsrc & Hscore).
    exists x1, y1, x2, y2.
    repeat (split; [first [assumption | idtac]|]); try assumption.
    + rewrite Hsk. apply Rltb_lt.
    + rewrite Hsk. apply Rltb_lt.
  - intros x1 y1 x2 y2. cbv zeta. unfold candidate_of_line.
    rewrite classify_components.
    destruct (is_horizontal _ || is_vertical _ || is_diagonal _) eqn:Hband;
      cbn [andb].
    + destruct (0 <=? _)%Z eqn:Hsq; cbn [andb].
      * apply Z.leb_le in Hsq. destruct (Rltb 100 _) eqn:Hlen.
        -- apply Rltb_lt in Hlen. split; [discriminate|].
           intros [Hneg|[Hle|Hf]]; [lia | lra | discriminate].
        -- apply Rltb_ge in Hlen.
           split; [intros _; right; left; exact Hlen | reflexivity].
      * apply Z.leb_gt in Hsq. split; [intros _; left; exact Hsq | reflexivity].
    + split; [intros _; right; right; reflexivity | reflexivity].
  - exact squared_length_exact.
  - vm_compute. reflexivity.
  - unfold candidate_of_line.
    replace (squared_length 0 0 70000 0) with 605032704%Z by (vm_compute; reflexivity).
    replace (int32 (0 - 0)) with 0%Z by (vm_compute; reflexivity).
    replace (int32 (70000 - 0)) with 70000%Z by (vm_compute; reflexivity).
    assert (Hangle : arctan2 (IZR 0) (IZR 70000) * 180 / PI = 0).
    { unfold arctan2. destruct (Rlt_dec 0 (IZR 70000)); [|lra].
      replace (IZR 0 / IZR 70000) with 0 by lra. rewrite atan_0. unfold Rdiv.
      rewrite !Rmult_0_l. reflexivity. }
    rewrite Hangle, classify_components, is_horizontal_0. cbn [orb andb].
    change (0 <=? 605032704)%Z with true. cbn [andb].
    pose proof wrapped_length_bounds as [Hlow _].
    rewrite Rltb_true by lra. reflexivity.
  - exact wrapped_length_bounds.
  - vm_compute. reflexivity.
  - unfold candidate_of_line.
    replace (squared_length 0 0 46341 0) with (-2147479015)%Z by (vm_compute; reflexivity).
    destruct (classify_angle_fuzzy _) as [[[h v] d] c].
    change (0 <=? -2147479015)%Z with false. cbn [andb]. rewrite andb_false_r. reflexivity.
Qed.

End CandidateTheorems.

(** ** Consolidation and scoring *)

Section ConsolidationTheorems.

Lemma merge_collinear_segments_one (line_group : list Wall) :
  line_group <> [] -> length (merge_collinear_segments line_group) = 1%nat.
Proof.
  destruct line_group as [|first [|second rest]]; [contradiction| |]; reflexivity.
Qed.

Lemma flat_map_merge_length (groups : list (list Wall)) :
  Forall (fun group => group <> []) groups ->
  length (flat_map merge_collinear_segments groups) = length groups.
Proof.
  induction 1 as [|group groups Hne _ IH]; [reflexivity|].
  cbn [flat_map]. rewrite length_app, merge_collinear_segments_one by exact Hne.
  cbn [length]. rewrite IH. reflexivity.
Qed.

Lemma merged_walls_geometry (lines : list Wall) :
  Forall (fun w => exists l, In l lines
                        /\ wall_start w = wall_start l
                        /\ wall_end w = wall_end l
                        /\ wall_length w = wall_length l
                        /\ wall_angle w = wall_angle l
                        /\ wall_type w = wall_type l)
         (merged_walls lines).
Proof.
  destruct (group_parallel_lines_keeps lines) as (Hperm & _ & _).
  unfold merged_walls, calculate_wall_thickness_from_groups.
  apply List.Forall_forall. intros w Hin. apply in_flat_map in Hin.
  destruct Hin as (group & Hgroup & Hw).
  assert (Hsub : forall l, In l group -> In l lines).
  { intros l Hl. apply (Permutation_in l Hperm). apply in_concat.
    exists group. split; assumption. }
  destruct group as [|first [|second rest]]; [contradiction| |].
  - destruct Hw as [<-|[]]. exists first.
    split; [apply Hsub; left; reflexivity|]. repeat split; reflexivity.
  - unfold merge_collinear_segments in Hw. cbn [length Nat.ltb Nat.leb] in Hw.
    destruct Hw as [<-|[]]. exists (longest_from first (second :: rest)).
    split; [apply Hsub, longest_from_In|]. repeat split; reflexivity.
Qed.

Lemma merged_walls_length (lines : list Wall) :
  length (merged_walls lines) = length (group_parallel_lines lines)
  /\ (length (merged_walls lines) <= length lines)%nat.
Proof.
  destruct (group_parallel_lines_count lines) as [Hne Hlen].
  unfold merged_walls, calculate_wall_thickness_from_groups.
  rewrite flat_map_merge_length by exact Hne. split; [reflexivity | exact Hlen].
Qed.

(** X7.  [merge_collinear_segments] does not join the extents of the
    lines of a group.  A group of one line passes unchanged.  For a
    group of two or more it returns one wall that takes its end points,
    length, angle and type from the longest line of the group (no line
    of the group is longer), with that line's confidence raised by 20%
    and capped at 1, never sketchy, tagged [consolidated] and without a
    structural score.  So consolidation yields exactly one wall per
    group, at most as many walls as candidate lines, and every wall it
    yields has the end points and length of one of the lines. *)
Theorem merge_collinear_segments_result :
  (forall w : Wall, merge_collinear_segments [w] = [w])
  /\ (forall (first second : Wall) (rest : list Wall),
        let line_group := first :: second :: rest in
        exists main_line,
          In main_line line_group
          /\ (forall l, In l line_group -> wall_length l <= wall_length main_line)
          /\ merge_collinear_segments line_group
             = [ mkWall (wall_start main_line) (wall_end main_line)
                        (wall_length main_line) (wall_angle main_line)
                        (wall_type main_line)
                        (Rmin 1 (wall_confidence main_line * 1.2))
                        false (calculate_group_thickness line_group)
                        consolidated None ])
  /\ (forall lines : list Wall,
        length (merged_walls lines) = length (group_parallel_lines lines)
        /\ (length (merged_walls lines) <= length lines)%nat
        /\ Forall (fun w => exists l, In l lines
                              /\ wall_start w = wall_start l
                              /\ wall_end w = wall_end l
                              /\ wall_length w = wall_length l
                              /\ wall_angle w = wall_angle l
                              /\ wall_type w = wall_type l)
                  (merged_walls lines)).
Proof.
  split; [reflexivity|]. split.
  - intros first second rest. cbv zeta.
    exists (longest_from first (second :: rest)).
    split; [apply longest_from_In|]. split; [apply longest_from_upper|].
    unfold merge_collinear_segments. cbn [length Nat.ltb Nat.leb].
    replace 1.0 with 1 by lra. reflexivity.
  - intros lines. destruct (merged_walls_length lines) as [Heq Hle].
    split; [exact Heq|]. split; [exact Hle | apply merged_walls_geometry].
Qed.

Lemma length_points_mono (a b : R) : a <= b -> length_points a <= length_points b.
Proof. intros Hle. unfold length_points. split_comparisons; lra. Qed.

Lemma length_points_range (a : R) : 0 <= length_points a <= 0.4.
Proof. unfold length_points. split_comparisons; lra. Qed.

Lemma thickness_points_mono (a b : R) : a <= b -> thickness_points a <= thickness_points b.
Proof. intros Hle. unfold thickness_points. split_comparisons; lra. Qed.

(** X8.  [calculate_structural_importance] never exceeds 1, and is not
    negative for a wall of non-negative confidence.  It is monotone:
    between two walls with the same end points, the one that is at
    least as long, as thick and as confident, and consolidated if the
    other is, scores at least as high.  Orientation and angle play no
    part in the score. *)
Theorem structural_importance_monotone :
  (forall w : Wall,
     calculate_structural_importance w <= 1
     /\ (0 <= wall_confidence w -> 0 <= calculate_structural_importance w))
  /\ (forall w1 w2 : Wall,
        wall_start w1 = wall_start w2 ->
        wall_end w1 = wall_end w2 ->
        wall_length w1 <= wall_length w2 ->
        wall_thickness w1 <= wall_thickness w2 ->
        wall_confidence w1 <= wall_confidence w2 ->
        (wall_source w1 = consolidated -> wall_source w2 = consolidated) ->
        calculate_structural_importance w1 <= calculate_structural_importance w2)
  /\ (forall (w : Wall) (angle : R) (type : Orientation) (sketchy : bool)
             (score : option R),
        calculate_structural_importance
          (mkWall (wall_start w) (wall_end w) (wall_length w) angle type
                  (wall_confidence w) sketchy (wall_thickness w) (wall_source w) score)
        = calculate_structural_importance w).
Proof.
  split; [|split].
  - intros w. unfold calculate_structural_importance.
    pose proof (length_points_range (wall_length w)) as Hl.
    pose proof (thickness_points_bounds (wall_thickness w)) as Ht.
    split; [|intros Hc];
      destruct (wall_source w); destruct (is_perimeter_wall w);
      unfold Rmin; destruct (Rle_dec _ _); lra.
  - intros w1 w2 Hs He Hl Ht Hc Hsrc. unfold calculate_structural_importance.
    pose proof (length_points_mono _ _ Hl) as Hlp.
    pose proof (thickness_points_mono _ _ Ht) as Htp.
    assert (Hper : is_perimeter_wall w1 = true -> is_perimeter_wall w2 = true).
    { unfold is_perimeter_wall. rewrite Hs, He.
      destruct (wall_start w2) as [sx sy]. destruct (wall_end w2) as [ex ey].
      rewrite !andb_true_iff. intros [Hedge Hlong]. split; [exact Hedge|].
      apply Rltb_lt in Hlong. apply Rltb_lt. lra. }
    apply Rle_min_compat_r.
    destruct (wall_source w1) eqn:Hs1; destruct (wall_source w2) eqn:Hs2;
      try (specialize (Hsrc eq_refl); discriminate);
      destruct (is_perimeter_wall w1) eqn:Hp1;
      try (rewrite (Hper eq_refl)); try destruct (is_perimeter_wall w2); lra.
  - intros w angle type sketchy score.
    unfold calculate_structural_importance, is_perimeter_wall. reflexivity.
Qed.

Lemma firstn_sorted {A : Type} (R : A -> A -> Prop) (n : nat) (l : list A) :
  StronglySorted R l -> StronglySorted R (firstn n l).
Proof.
  revert n. induction l as [|x l IH]; intros n Hs; destruct n; cbn [firstn];
    try constructor.
  - apply IH. apply StronglySorted_inv in Hs. tauto.
  - apply StronglySorted_inv in Hs. destruct Hs as [_ Hall].
    apply List.Forall_forall. intros y Hy.
    apply (proj1 (List.Forall_forall _ _) Hall). apply (firstn_In n l y Hy).
Qed.

(** X9.  [apply_structural_focus] returns the walls ranked by
    structural score, highest first.  Every wall it returns is an input
    wall with its score recorded, and that score is above 0.3.  What it
    cuts from the walls that score above 0.3 is only the tail of the
    ranking: no wall cut scores higher than a wall kept, and nothing is
    cut when at most 15 walls score above 0.3. *)
Theorem apply_structural_focus_ranking (walls : list Wall) :
  let kept := apply_structural_focus walls in
  StronglySorted (fun a b => get_structural_score b <= get_structural_score a) kept
  /\ Forall (fun w => exists w0,
                 In w0 walls
                 /\ w = set_structural_score w0 (calculate_structural_importance w0)
                 /\ 0.3 < get_structural_score w) kept
  /\ (exists cut,
        Permutation (kept ++ cut) (structural_walls walls)
        /\ Forall (fun c => Forall (fun k => get_structural_score c
                                             <= get_structural_score k) kept) cut)
  /\ ((length (structural_walls walls) <= 15)%nat -> kept = structural_walls walls).
Proof.
  cbv zeta.
  assert (Hsorted : StronglySorted
                      (fun a b => get_structural_score b <= get_structural_score a)
                      (structural_walls walls))
    by apply sort_desc_sorted.
  split; [|split; [|split]].
  - unfold apply_structural_focus. destruct walls as [|w walls]; [constructor|].
    destruct (_ <? _)%nat; [apply firstn_sorted|]; exact Hsorted.
  - apply List.Forall_forall. intros w Hin.
    apply apply_structural_focus_In, structural_walls_In in Hin.
    destruct Hin as (w0 & Hin & Hscore & ->). exists w0.
    split; [exact Hin|]. split; [reflexivity|]. exact Hscore.
  - unfold apply_structural_focus. destruct walls as [|w walls].
    + exists []. split; [reflexivity | constructor].
    + set (structural := structural_walls (w :: walls)) in *.
      set (max_walls := calculate_realistic_wall_count structural).
      destruct (max_walls <? length structural)%nat.
      * exists (skipn max_walls structural). split; [rewrite firstn_skipn; reflexivity|].
        apply List.Forall_forall. intros c Hc. apply List.Forall_forall. intros k Hk.
        rewrite <- (firstn_skipn max_walls structural) in Hsorted.
        apply (sorted_app_le get_structural_score _ _ Hsorted k c Hk Hc).
      * exists []. split; [rewrite app_nil_r; reflexivity | constructor].
  - apply apply_structural_focus_small.
Qed.

End ConsolidationTheorems.

(** ** Deduplication of openings *)

Section DedupTheorems.

Lemma list_remove_perm (x : Opening) (l : list Opening) :
  In x l -> Permutation (x :: list_remove x l) l.
Proof.
  induction l as [|y l IH]; intros Hin; [contradiction|].
  cbn [list_remove]. destruct (decide (y = x)) as [->|Hne]; [reflexivity|].
  destruct Hin as [Heq|Hin]; [contradiction|].
  rewrite perm_swap. apply perm_skip. apply IH. exact Hin.
Qed.

Lemma list_remove_other (x k : Opening) (l : list Opening) :
  In k l -> k <> x -> In k (list_remove x l).
Proof.
  induction l as [|y l IH]; intros Hin Hne; [contradiction|].
  cbn [list_remove]. destruct (decide (y = x)) as [->|Hyx].
  - destruct Hin as [Heq|Hin]; [congruence | exact Hin].
  - destruct Hin as [->|Hin]; [left; reflexivity | right; apply IH; assumption].
Qed.

Lemma first_within_30_close (door existing : Opening) (filtered : list Opening) :
  first_within_30 door filtered = Some existing -> opening_distance door existing < 30.
Proof.
  induction filtered as [|e rest IH]; cbn [first_within_30]; [discriminate|].
  destruct (Rltb _ 30) eqn:Hclose; [|exact IH].
  intros Heq. injection Heq as <-. apply Rltb_lt. exact Hclose.
Qed.

(** One iteration only drops openings, and keeps an opening at least
    as confident as any it had or was given. *)
Lemma dedup_step_keeps (filtered : list Opening) (door : Opening) :
  (exists dropped, Permutation (dedup_step filtered door ++ dropped) (filtered ++ [door]))
  /\ (forall d, In d (filtered ++ [door]) ->
        exists k, In k (dedup_step filtered door) /\ op_confidence d <= op_confidence k).
Proof.
  unfold dedup_step.
  destruct (first_within_30 door filtered) as [existing|] eqn:Hfirst.
  - pose proof (first_within_30_In _ _ _ Hfirst) as Hin.
    destruct (Rltb (op_confidence existing) (op_confidence door)) eqn:Hstronger.
    + apply Rltb_lt in Hstronger. split.
      * exists [existing].
        rewrite (Permutation_app_comm (list_remove existing filtered ++ [door]) [existing]).
        cbn [app]. rewrite app_comm_cons. apply Permutation_app_tail.
        apply list_remove_perm. exact Hin.
      * intros d Hd.
        destruct (decide (d = existing)) as [->|Hne].
        -- exists door. split; [apply in_or_app; right; left; reflexivity | lra].
        -- exists d. split; [|lra].
           apply in_app_or in Hd. destruct Hd as [Hd|Hd].
           ++ apply in_or_app. left. apply list_remove_other; assumption.
           ++ apply in_or_app. right. exact Hd.
    + apply Rltb_ge in Hstronger. split.
      * exists [door]. reflexivity.
      * intros d Hd. apply in_app_or in Hd. destruct Hd as [Hd|[<-|[]]].
        -- exists d. split; [exact Hd | lra].
        -- exists existing. split; [exact Hin | exact Hstronger].
  - split.
    + exists []. rewrite app_nil_r. reflexivity.
    + intros d Hd. exists d. split; [exact Hd | lra].
Qed.

(** The loop only drops openings, and a kept opening of the highest
    confidence seen so far is never lost. *)
Lemma dedup_fold_keeps (doors filtered : list Opening) :
  let out := fold_left dedup_step doors filtered in
  (exists dropped, Permutation (out ++ dropped) (filtered ++ doors))
  /\ (forall d, In d (filtered ++ doors) ->
        exists k, In k out /\ op_confidence d <= op_confidence k).
Proof.
  cbv zeta. revert filtered.
  induction doors as [|door rest IH]; intros filtered; cbn [fold_left].
  - split; [exists []; reflexivity|].
    intros d Hd. rewrite app_nil_r in Hd. exists d. split; [exact Hd | lra].
  - destruct (IH (dedup_step filtered door)) as [(dropped & Hperm) Hbest].
    destruct (dedup_step_keeps filtered door) as [(dropped1 & Hperm1) Hbest1].
    split.
    + exists (dropped ++ dropped1). rewrite app_assoc, Hperm.
      rewrite <- app_assoc, (Permutation_app_comm rest dropped1), app_assoc, Hperm1.
      rewrite <- app_assoc. reflexivity.
    + intros d Hd.
      assert (Hcase : In d (filtered ++ [door]) \/ In d rest).
      { apply in_app_or in Hd. destruct Hd as [Hd|[<-|Hd]].
        - left. apply in_or_app. left. exact Hd.
        - left. apply in_or_app. right. left. reflexivity.
        - right. exact Hd. }
      destruct Hcase as [Hd1|Hd2].
      * destruct (Hbest1 d Hd1) as (k1 & Hk1 & Hle1).
        destruct (Hbest k1) as (k & Hk & Hle); [apply in_or_app; left; exact Hk1|].
        exists k. split; [exact Hk | lra].
      * apply Hbest. apply in_or_app. right. exact Hd2.
Qed.

Lemma filter_duplicate_doors_sub (doors : list Opening) :
  (exists dropped, Permutation (filter_duplicate_doors doors ++ dropped) doors)
  /\ (forall d, In d doors ->
        exists k, In k (filter_duplicate_doors doors)
                  /\ op_confidence d <= op_confidence k).
Proof.
  unfold filter_duplicate_doors. destruct (length doors <=? 1)%nat.
  - split; [exists []; rewrite app_nil_r; reflexivity|].
    intros d Hd. exists d. split; [exact Hd | lra].
  - exact (dedup_fold_keeps doors []).
Qed.

(** X10.  [filter_duplicate_doors] only drops openings: its output
    together with what it drops is a rearrangement of its input, so it
    invents nothing, repeats nothing and returns at most as many
    openings as it was given.  An opening of the highest confidence
    always survives: for every input opening the output holds one that
    is at least as confident.  In particular a non-empty input never
    gives an empty output. *)
Theorem filter_duplicate_doors_keeps (doors : list Opening) :
  (exists dropped, Permutation (filter_duplicate_doors doors ++ dropped) doors)
  /\ (length (filter_duplicate_doors doors) <= length doors)%nat
  /\ (forall d, In d doors ->
        exists k, In k (filter_duplicate_doors doors)
                  /\ op_confidence d <= op_confidence k)
  /\ (doors <> [] -> filter_duplicate_doors doors <> []).
Proof.
  destruct (filter_duplicate_doors_sub doors) as [(dropped & Hperm) Hbest].
  split; [exists dropped; exact Hperm|]. split; [|split; [exact Hbest|]].
  - rewrite <- (Permutation_length Hperm), length_app. lia.
  - intros Hne Hempty. destruct doors as [|d doors]; [contradiction|].
    destruct (Hbest d (or_introl eq_refl)) as (k & Hk & _).
    rewrite Hempty in Hk. contradiction.
Qed.

Lemma dedup_fold_covers (doors filtered : list Opening) :
  (forall d e, In d doors -> In e filtered -> op_confidence d <= op_confidence e) ->
  ForallOrdPairs (fun earlier later => op_confidence later <= op_confidence earlier) doors ->
  let out := fold_left dedup_step doors filtered in
  (forall e, In e filtered -> In e out)
  /\ (forall d, In d doors -> exists k, In k out /\ (k = d \/ opening_distance d k < 30)).
Proof.
  cbv zeta. revert filtered.
  induction doors as [|door rest IH]; intros filtered Hconf Hsorted; cbn [fold_left].
  - split; [intros e He; exact He | intros d []].
  - inversion Hsorted as [|? ? Hdoor Hrest]; subst.
    assert (Hconf' : forall d e, In d rest -> In e filtered ->
                                 op_confidence d <= op_confidence e)
      by (intros d e Hd He; apply Hconf; [right; exact Hd | exact He]).
    destruct (first_within_30 door filtered) as [existing|] eqn:Hfirst.
    + pose proof (first_within_30_In _ _ _ Hfirst) as Hin.
      pose proof (first_within_30_close _ _ _ Hfirst) as Hclose.
      assert (Hstep : dedup_step filtered door = filtered).
      { unfold dedup_step. rewrite Hfirst.
        rewrite Rltb_false by (apply Hconf; [left; reflexivity | exact Hin]).
        reflexivity. }
      rewrite Hstep.
      destruct (IH filtered Hconf' Hrest) as [Hkeep Hcover].
      split; [exact Hkeep|].
      intros d [<-|Hd]; [|exact (Hcover d Hd)].
      exists existing. split; [apply Hkeep; exact Hin | right; exact Hclose].
    + assert (Hstep : dedup_step filtered door = filtered ++ [door])
        by (unfold dedup_step; rewrite Hfirst; reflexivity).
      rewrite Hstep.
      destruct (IH (filtered ++ [door])) as [Hkeep Hcover]; [|exact Hrest|].
      { intros d e Hd He. apply in_app_or in He as [He|[<-|[]]].
        - apply Hconf'; assumption.
        - rewrite List.Forall_forall in Hdoor. apply Hdoor. exact Hd. }
      split.
      * intros e He. apply Hkeep. apply in_or_app. left. exact He.
      * intros d [<-|Hd]; [|exact (Hcover d Hd)].
        exists door. split; [|left; reflexivity].
        apply Hkeep. apply in_or_app. right. left. reflexivity.
Qed.

Lemma filter_duplicate_doors_covers (doors : list Opening) :
  ForallOrdPairs (fun earlier later => op_confidence later <= op_confidence earlier) doors ->
  forall d, In d doors ->
    exists k, In k (filter_duplicate_doors doors)
              /\ (k = d \/ opening_distance d k < 30).
Proof.
  intros Hsorted. unfold filter_duplicate_doors. destruct (length doors <=? 1)%nat.
  - intros d Hd. exists d. split; [exact Hd | left; reflexivity].
  - apply (dedup_fold_covers doors []); [intros d e _ [] | exact Hsorted].
Qed.

(** X11.  When the openings arrive in descending order of confidence (in
    particular when they all have the same confidence) no kept opening
    is ever replaced, and [filter_duplicate_doors] is a proper 30-px
    deduplication: no two openings of the output are within 30 px of
    each other, every input opening is in the output or within 30 px of
    an output opening, and a second pass changes nothing. *)
Theorem filter_duplicate_doors_descending (doors : list Opening) :
  ForallOrdPairs (fun earlier later => op_confidence later <= op_confidence earlier) doors ->
  spaced (filter_duplicate_doors doors)
  /\ (forall d, In d doors ->
        exists k, In k (filter_duplicate_doors doors)
                  /\ (k = d \/ opening_distance d k < 30))
  /\ filter_duplicate_doors (filter_duplicate_doors doors) = filter_duplicate_doors doors.
Proof.
  intros Hsorted.
  destruct (dedup_sound_without_replacement doors Hsorted) as [Hsp Hfix].
  split; [exact Hsp|]. split; [|exact Hfix].
  apply filter_duplicate_doors_covers. exact Hsorted.
Qed.

Lemma filter_duplicate_doors_descending_witness :
  ForallOrdPairs (fun earlier later => op_confidence later <= op_confidence earlier)
                 [swing_between; opening_left]
  /\ spaced (filter_duplicate_doors [swing_between; opening_left])
  /\ filter_duplicate_doors (filter_duplicate_doors [swing_between; opening_left])
     = filter_duplicate_doors [swing_between; opening_left].
Proof.
  assert (Hsorted : ForallOrdPairs
                      (fun earlier later => op_confidence later <= op_confidence earlier)
                      [swing_between; opening_left]).
  { apply FOP_cons; [|apply FOP_cons; [apply List.Forall_nil | apply FOP_nil]].
    apply List.Forall_cons; [|apply List.Forall_nil].
    cbn [op_confidence opening_left swing_between]. lra. }
  destruct (filter_duplicate_doors_descending _ Hsorted) as (Hsp & _ & Hfix).
  split; [exact Hsorted|]. split; [exact Hsp | exact Hfix].
Defined.

End DedupTheorems.

(** ** Windows and arches *)

Section WindowsAndArches.

Lemma insert_desc_head {A : Type} (key : A -> R) (x : A) (l : list A) :
  Forall (fun y => key y <= key x) l -> insert_desc key x l = x :: l.
Proof.
  intros Hall. destruct l as [|y l]; [reflexivity|]. cbn [insert_desc].
  apply List.Forall_inv in Hall. rewrite Rltb_false by exact Hall. reflexivity.
Qed.

(** A stable descending sort leaves a descending list as it is. *)
Lemma sort_desc_sorted_id {A : Type} (key : A -> R) (l : list A) :
  StronglySorted (fun a b => key b <= key a) l -> sort_desc key l = l.
Proof.
  induction 1 as [|x l _ IH Hall]; [reflexivity|].
  unfold sort_desc in *. cbn [fold_right]. rewrite IH.
  apply insert_desc_head. exact Hall.
Qed.

Lemma same_key_sorted {A : Type} (key : A -> R) (c : R) (l : list A) :
  Forall (fun x => key x = c) l -> StronglySorted (fun a b => key b <= key a) l.
Proof.
  induction 1 as [|x l Hx Hall IH]; constructor; [exact IH|].
  eapply List.Forall_impl; [|exact Hall].
  intros y Hy. cbn beta in Hy |- *. lra.
Qed.

Lemma sorted_pairs {A : Type} (R : A -> A -> Prop) (l : list A) :
  StronglySorted R l -> ForallOrdPairs R l.
Proof. induction 1; constructor; assumption. Qed.

Lemma firstn_pairs {A : Type} (R : A -> A -> Prop) (n : nat) (l : list A) :
  ForallOrdPairs R l -> ForallOrdPairs R (firstn n l).
Proof.
  intros Hl. revert n. induction Hl as [|x l Hx _ IH]; intros [|n]; cbn [firstn];
    try constructor; [|apply IH].
  apply List.Forall_forall. intros y Hy.
  apply (proj1 (List.Forall_forall _ _) Hx). apply (firstn_In n l y Hy).
Qed.

Lemma filter_duplicate_doors_Forall (P : Opening -> Prop) (doors : list Opening) :
  Forall P doors -> Forall P (filter_duplicate_doors doors).
Proof.
  intros Hall. destruct (filter_duplicate_doors_sub doors) as ((dropped & Hperm) & _).
  apply List.Forall_forall. intros d Hd.
  apply (proj1 (List.Forall_forall _ _) Hall).
  apply (Permutation_in d Hperm). apply in_or_app. left. exact Hd.
Qed.

Lemma cap_by_confidence_Forall (P : Opening -> Prop) (cap : nat) (l : list Opening) :
  Forall P l -> Forall P (cap_by_confidence cap l).
Proof.
  intros Hall. apply List.Forall_forall. intros d Hd.
  apply (proj1 (List.Forall_forall _ _) Hall).
  apply (Permutation_in d (Permutation_sym (cap_by_confidence_perm cap l))).
  apply in_or_app. left. exact Hd.
Qed.

(** Capping a list that is already in descending order of confidence
    cuts its tail. *)
Lemma cap_by_confidence_sorted (cap : nat) (l : list Opening) :
  StronglySorted (fun a b => op_confidence b <= op_confidence a) l ->
  cap_by_confidence cap l = firstn cap l.
Proof.
  intros Hs. unfold cap_by_confidence. destruct (cap <? length l)%nat eqn:Hlen.
  - rewrite sort_desc_sorted_id by exact Hs. reflexivity.
  - apply Nat.ltb_ge in Hlen. rewrite firstn_all2 by exact Hlen. reflexivity.
Qed.

Lemma find_wide_openings_shape (walls : list Wall) (gray : Image) :
  Forall (wide_opening_between walls) (find_wide_openings walls gray).
Proof.
  induction walls as [|wall1 rest IH]; cbn [find_wide_openings]; [constructor|].
  apply Forall_app. split.
  - apply List.Forall_forall. intros arch Hin. apply in_flat_map in Hin.
    destruct Hin as (wall2 & H2 & Harch). unfold wide_opening_of_pair in Harch.
    destruct (are_walls_parallel wall1 wall2) eqn:Hpar; [|contradiction].
    destruct (_ && _) eqn:Hgap; [|contradiction].
    destruct Harch as [<-|[]].
    apply andb_true_iff in Hgap. destruct Hgap as [Hlo Hhi].
    apply Rltb_lt in Hlo, Hhi.
    exists wall1, wall2. repeat split; try assumption; try lra.
    + left. reflexivity.
    + right. exact H2.
  - eapply List.Forall_impl; [|exact IH].
    intros arch (w1 & w2 & H1 & H2 & Hrest). exists w1, w2.
    split; [right; exact H1|]. split; [right; exact H2 | exact Hrest].
Qed.

Lemma filter_duplicate_doors_spaced_id (l : list Opening) :
  spaced l -> filter_duplicate_doors l = l.
Proof.
  intros Hsp. unfold filter_duplicate_doors.
  destruct (length l <=? 1)%nat; [reflexivity|].
  apply (dedup_fold_keeps_spaced l []). exact Hsp.
Qed.

(** X12.  Every arch that [detect_arches] reports is a wide opening
    between two parallel walls of the list whose midpoints are more than
    150 and less than 250 px apart, with confidence 0.6
    ([find_curved_arches] contributes nothing).  As all arches have the
    same confidence, deduplication never replaces a kept arch and the
    cap keeps the first 15 in detection order: no two reported arches
    are within 30 px of each other, a second deduplication changes
    nothing, and fewer than two walls give no arch. *)
Theorem detect_arches_spaced (gray : Image) (walls : list Wall) :
  let arches := detect_arches gray walls in
  Forall (wide_opening_between walls) arches
  /\ spaced arches
  /\ arches = firstn 15 (filter_duplicate_arches (find_wide_openings walls gray))
  /\ filter_duplicate_arches arches = arches
  /\ ((length walls < 2)%nat -> arches = []).
Proof.
  cbv zeta. unfold detect_arches, find_curved_arches. cbn [app].
  pose proof (find_wide_openings_shape walls gray) as Hshape.
  assert (Hconf : forall l, Forall (wide_opening_between walls) l ->
                            Forall (fun a => op_confidence a = 0.6) l).
  { intros l Hl. eapply List.Forall_impl; [|exact Hl].
    intros a (w1 & w2 & _ & _ & _ & _ & ->). reflexivity. }
  unfold filter_duplicate_arches.
  set (raw := find_wide_openings walls gray) in *.
  pose proof (filter_duplicate_doors_Forall _ raw Hshape) as Hshape'.
  destruct (dedup_sound_without_replacement raw) as [Hsp _].
  { apply sorted_pairs. apply (same_key_sorted op_confidence 0.6). apply Hconf, Hshape. }
  set (deduped := filter_duplicate_doors raw) in *.
  assert (Hcap : cap_by_confidence 15 deduped = firstn 15 deduped).
  { apply cap_by_confidence_sorted. apply (same_key_sorted op_confidence 0.6).
    apply Hconf, Hshape'. }
  rewrite Hcap.
  assert (Hsp' : spaced (firstn 15 deduped)) by (apply firstn_pairs; exact Hsp).
  split; [|split; [exact Hsp'|split; [reflexivity|split]]].
  - apply List.Forall_forall. intros a Ha.
    apply (proj1 (List.Forall_forall _ _) Hshape'). apply (firstn_In 15 _ _ Ha).
  - apply filter_duplicate_doors_spaced_id. exact Hsp'.
  - intros Hlen. unfold deduped, raw.
    destruct walls as [|w1 [|w2 rest]]; [reflexivity | reflexivity | cbn [length] in Hlen; lia].
Qed.

Lemma two_levels_sorted {A : Type} (key : A -> R) (hi lo : R) (l1 l2 : list A) :
  lo <= hi ->
  Forall (fun x => key x = hi) l1 ->
  Forall (fun x => key x = lo) l2 ->
  StronglySorted (fun a b => key b <= key a) (l1 ++ l2).
Proof.
  intros Hle H1 H2. induction H1 as [|x l1 Hx Hall IH]; cbn [app].
  - apply (same_key_sorted key lo). exact H2.
  - constructor; [exact IH|]. apply Forall_app. split.
    + eapply List.Forall_impl; [|exact Hall]. intros y Hy. cbn beta in Hy |- *. lra.
    + eapply List.Forall_impl; [|exact H2]. intros y Hy. cbn beta in Hy |- *. lra.
Qed.

Lemma flat_map_Forall {A B : Type} (P : B -> Prop) (f : A -> list B) (l : list A) :
  (forall a, In a l -> Forall P (f a)) -> Forall P (flat_map f l).
Proof.
  intros Hall. apply List.Forall_forall. intros b Hb. apply in_flat_map in Hb.
  destruct Hb as (a & Ha & Hb). apply (proj1 (List.Forall_forall _ _) (Hall a Ha)).
  exact Hb.
Qed.

Lemma window_rectangle_shape (walls : list Wall) (contour : Contour) :
  Forall (fun w => op_type w = ty_dark_rectangle /\ op_confidence w = 0.8)
         (window_rectangle_of_contour walls contour).
Proof.
  unfold window_rectangle_of_contour.
  destruct (_ && _); [|constructor].
  destruct (contour_rect contour) as [[[x y] w] h].
  destruct (_ && _); [|constructor].
  destruct (self_is_near_wall _ _ _); constructor; [|constructor].
  split; reflexivity.
Qed.

(** What the sampling loop of [find_windows_along_wall] keeps. *)
Lemma find_windows_along_wall_keeps `{OpenCV} (wall : Wall) (gray : Image) :
  let windows := find_windows_along_wall wall gray in
  let num_samples := Nat.max 15 (Z.to_nat (Int_part (wall_length wall / 15))) in
  Forall (wall_break_on wall gray num_samples) windows
  /\ ForallOrdPairs axis_apart windows
  /\ (length windows <= num_samples - 2)%nat.
Proof.
  cbv zeta. unfold find_windows_along_wall.
  destruct (Rltb _ 50).
  { split; [constructor|]. split; [constructor | cbn [length]; lia]. }
  set (num_samples := Nat.max 15 (Z.to_nat (Int_part (wall_length wall / 15)))).
  set (step := fun (windows : list Opening) (i : nat) => _).
  assert (Hfold : forall samples windows,
             (forall i, In i samples -> (1 <= i <= num_samples - 2)%nat) ->
             Forall (wall_break_on wall gray num_samples) windows ->
             ForallOrdPairs axis_apart windows ->
             Forall (wall_break_on wall gray num_samples) (fold_left step samples windows)
             /\ ForallOrdPairs axis_apart (fold_left step samples windows)
             /\ (length (fold_left step samples windows)
                 <= length windows + length samples)%nat).
  { induction samples as [|i samples IH]; intros windows Hrange Hshape Hapart;
      cbn [fold_left].
    - split; [exact Hshape|]. split; [exact Hapart | lia].
    - assert (Hrange' : forall i', In i' samples -> (1 <= i' <= num_samples - 2)%nat)
        by (intros i' Hi'; apply Hrange; right; exact Hi').
      assert (Hnext : Forall (wall_break_on wall gray num_samples) (step windows i)
                      /\ ForallOrdPairs axis_apart (step windows i)
                      /\ (length (step windows i) <= S (length windows))%nat).
      { unfold step. destruct (sample_point wall i num_samples) as [px py] eqn:Hpoint.
        destruct (has_window_break_pattern px py wall gray) eqn:Hbreak;
          [|split; [exact Hshape | split; [exact Hapart | lia]]].
        destruct (too_close windows px py) eqn:Hclose;
          [split; [exact Hshape | split; [exact Hapart | lia]]|].
        split; [|split].
        - apply Forall_app. split; [exact Hshape|]. constructor; [|constructor].
          exists i, px, py. split; [apply Hrange; left; reflexivity|].
          split; [exact Hpoint|]. split; [exact Hbreak | reflexivity].
        - clear - Hapart Hclose. induction Hapart as [|w windows Hw _ IH]; cbn [app].
          + constructor; constructor.
          + cbn [too_close existsb] in Hclose. apply orb_false_iff in Hclose.
            destruct Hclose as [Hhere Hrest]. constructor; [|apply IH; exact Hrest].
            apply Forall_app. split; [exact Hw|]. constructor; [|constructor].
            unfold axis_apart. cbn [op_position fst snd].
            apply andb_false_iff in Hhere. destruct Hhere as [Hx|Hy].
            * left. apply Rltb_ge in Hx. rewrite Rabs_minus_sym. exact Hx.
            * right. apply Rltb_ge in Hy. rewrite Rabs_minus_sym. exact Hy.
        - rewrite length_app. cbn [length]. lia. }
      destruct Hnext as (Hshape' & Hapart' & Hlen').
      destruct (IH (step windows i) Hrange' Hshape' Hapart') as (Hs & Ha & Hl).
      split; [exact Hs|]. split; [exact Ha|]. cbn [length]. lia. }
  destruct (Hfold (seq 1 (num_samples - 1 - 1)) []) as (Hs & Ha & Hl);
    [|constructor|constructor|].
  - intros i Hi. apply in_seq in Hi. lia.
  - split; [exact Hs|]. split; [exact Ha|].
    rewrite length_seq in Hl. cbn [length] in Hl. lia.
Qed.

End WindowsAndArches.

Section WindowTheorems.

Lemma axis_apart_far (earlier later : Opening) :
  axis_apart earlier later -> 30 <= opening_distance later earlier.
Proof.
  unfold axis_apart, opening_distance.
  set (dx := fst (op_position later) - fst (op_position earlier)).
  set (dy := snd (op_position later) - snd (op_position earlier)).
  intros Hfar.
  assert (Hsq : 30 * 30 <= dx ^ 2 + dy ^ 2).
  { pose proof (pow2_ge_0 dx). pose proof (pow2_ge_0 dy).
    destruct Hfar as [Hx|Hy].
    - assert (30 * 30 <= dx ^ 2); [|lra].
      replace (dx ^ 2) with (Rabs dx * Rabs dx)
        by (rewrite <- Rabs_mult, Rabs_pos_eq; [ring | nra]).
      pose proof (Rabs_pos dx). nra.
    - assert (30 * 30 <= dy ^ 2); [|lra].
      replace (dy ^ 2) with (Rabs dy * Rabs dy)
        by (rewrite <- Rabs_mult, Rabs_pos_eq; [ring | nra]).
      pose proof (Rabs_pos dy). nra. }
  rewrite <- (sqrt_square 30) by lra. apply sqrt_le_1_alt. exact Hsq.
Qed.

(** X13.  [find_windows_along_wall] skips walls shorter than 50 px.  On
    a longer wall every window it records sits at an inner sampling
    point where [has_window_break_pattern] holds, with the fixed size
    30 x 15 and confidence 0.6; any two windows recorded on one wall are
    at least 30 px apart along the x or the y axis, hence at least 30 px
    apart; and their number is at most the number of inner sampling
    points. *)
Theorem find_windows_along_wall_separated `{OpenCV} (wall : Wall) (gray : Image) :
  let windows := find_windows_along_wall wall gray in
  let num_samples := Nat.max 15 (Z.to_nat (Int_part (wall_length wall / 15))) in
  (wall_length wall < 50 -> windows = [])
  /\ Forall (wall_break_on wall gray num_samples) windows
  /\ ForallOrdPairs axis_apart windows
  /\ spaced windows
  /\ (length windows <= num_samples - 2)%nat.
Proof.
  cbv zeta.
  destruct (find_windows_along_wall_keeps wall gray) as (Hshape & Hapart & Hlen).
  split; [|split; [exact Hshape|split; [exact Hapart|split; [|exact Hlen]]]].
  - intros Hshort. unfold find_windows_along_wall. rewrite Rltb_true by exact Hshort.
    reflexivity.
  - unfold spaced. apply (ForallOrdPairs_impl axis_apart); [|exact Hapart].
    exact axis_apart_far.
Qed.

Lemma find_windows_along_wall_confidence `{OpenCV} (wall : Wall) (gray : Image) :
  Forall (fun w => op_type w = ty_wall_break /\ op_confidence w = 0.6)
         (find_windows_along_wall wall gray).
Proof.
  destruct (find_windows_along_wall_keeps wall gray) as (Hshape & _).
  eapply List.Forall_impl; [|exact Hshape].
  intros w (i & px & py & _ & _ & _ & ->). split; reflexivity.
Qed.

Lemma detect_window_patterns_confidence `{OpenCV} (wall : Wall) (gray : Image) :
  Forall (fun w => op_type w = ty_parallel_lines /\ op_confidence w = 0.6)
         (detect_window_patterns_on_wall wall gray).
Proof.
  unfold detect_window_patterns_on_wall. apply flat_map_Forall. intros i _.
  destruct (sample_point wall i _) as [px py].
  destruct (has_window_pattern_at_point px py wall gray); constructor; [|constructor].
  split; reflexivity.
Qed.

Lemma Forall_weaken {A : Type} (P Q : A -> Prop) (l : list A) :
  (forall x, P x -> Q x) -> Forall P l -> Forall Q l.
Proof. intros Himpl Hall. eapply List.Forall_impl; [|exact Hall]. exact Himpl. Qed.

(** X14.  The windows of [detect_windows] are dark rectangles of
    confidence 0.8, then wall breaks and parallel-line patterns of
    confidence 0.6, in that order.  A later detection is never more
    confident than an earlier one, so deduplication never replaces a
    kept window: no two reported windows are within 30 px of each
    other, every detection is reported or lies within 30 px of a
    reported window, and a second deduplication changes nothing. *)
Theorem detect_windows_spaced `{OpenCV} (gray : Image) (walls : list Wall) :
  let detections :=
    find_window_rectangles gray walls ++ find_window_parallel_lines gray walls in
  let windows := detect_windows gray walls in
  spaced windows
  /\ (forall w, In w detections ->
        exists k, In k windows /\ (k = w \/ opening_distance w k < 30))
  /\ filter_duplicate_windows windows = windows
  /\ Forall (fun w => (op_type w = ty_dark_rectangle /\ op_confidence w = 0.8)
                      \/ (op_type w = ty_wall_break /\ op_confidence w = 0.6)
                      \/ (op_type w = ty_parallel_lines /\ op_confidence w = 0.6))
            windows.
Proof.
  cbv zeta. unfold detect_windows, filter_duplicate_windows.
  set (detections := find_window_rectangles gray walls
                     ++ find_window_parallel_lines gray walls).
  assert (Hrect : Forall (fun w => op_type w = ty_dark_rectangle /\ op_confidence w = 0.8)
                    (flat_map (window_rectangle_of_contour walls) (otsu_inv_contours gray))).
  { apply flat_map_Forall. intros c _. apply window_rectangle_shape. }
  assert (Halong : Forall (fun w => op_type w = ty_wall_break /\ op_confidence w = 0.6)
                     (flat_map (fun wall => find_windows_along_wall wall gray) walls)).
  { apply flat_map_Forall. intros wall _. apply find_windows_along_wall_confidence. }
  assert (Hpar : Forall (fun w => op_type w = ty_parallel_lines /\ op_confidence w = 0.6)
                   (find_window_parallel_lines gray walls)).
  { apply flat_map_Forall. intros wall _. apply detect_window_patterns_confidence. }
  assert (Hsorted : StronglySorted (fun a b => op_confidence b <= op_confidence a)
                      detections).
  { unfold detections, find_window_rectangles. rewrite <- app_assoc.
    apply (two_levels_sorted op_confidence 0.8 0.6); [lra| |].
    - apply (Forall_weaken _ _ _ (fun w H => proj2 H) Hrect).
    - apply Forall_app. split.
      + apply (Forall_weaken _ _ _ (fun w H => proj2 H) Halong).
      + apply (Forall_weaken _ _ _ (fun w H => proj2 H) Hpar). }
  destruct (dedup_sound_without_replacement detections (sorted_pairs _ _ Hsorted))
    as (Hsp & Hfix).
  split; [exact Hsp|].
  split; [exact (filter_duplicate_doors_covers detections (sorted_pairs _ _ Hsorted))|].
  split; [exact Hfix|].
  apply filter_duplicate_doors_Forall. unfold detections, find_window_rectangles.
  apply Forall_app. split; [apply Forall_app; split|].
  - apply (Forall_weaken _ _ _ (fun w H => or_introl H) Hrect).
  - apply (Forall_weaken _ _ _ (fun w H => or_intror (or_introl H)) Halong).
  - apply (Forall_weaken _ _ _ (fun w H => or_intror (or_intror H)) Hpar).
Qed.

End WindowTheorems.

(** ** The entry point *)

Section EntryPoint.

Lemma is_near_wall_no_walls (point : Z * Z) (tolerance : option R) :
  self_is_near_wall point [] tolerance = false.
Proof. rewrite self_is_near_wall_eq. destruct point. reflexivity. Qed.

Lemma no_walls_no_symbols (contour : Contour) :
  door_symbol_of_contour [] contour = [] /\ window_rectangle_of_contour [] contour = [].
Proof.
  unfold door_symbol_of_contour, window_rectangle_of_contour.
  destruct (contour_rect contour) as [[[x y] w] h].
  rewrite !is_near_wall_no_walls.
  split; repeat (destruct (_ && _)); reflexivity.
Qed.

Lemma flat_map_nil {A B : Type} (f : A -> list B) (l : list A) :
  (forall a, f a = []) -> flat_map f l = [].
Proof.
  intros Hnil. induction l as [|a l IH]; [reflexivity|].
  cbn [flat_map]. rewrite Hnil, IH. reflexivity.
Qed.

(** X15.  Without walls there are no windows and no arches, and the
    only doors are swing arcs: [detect_doors] then returns the
    deduplicated and capped result of [find_door_swings], which does not
    look at the walls.  So when the Hough transform finds no line, the
    entry point reports success with empty walls, windows and arches,
    and possibly with doors.  A single wall still gives no door opening
    and no arch. *)
Theorem no_walls_only_swings `{OpenCV} (gray : Image) :
  detect_windows gray [] = []
  /\ detect_arches gray [] = []
  /\ detect_doors gray [] = cap_by_confidence 20 (filter_duplicate_doors (find_door_swings gray))
  /\ (forall wall : Wall,
        find_door_openings [wall] gray = [] /\ detect_arches gray [wall] = [])
  /\ (forall image_path : string,
        imread_gray image_path = Some gray ->
        (let '(threshold, minLineLength, maxLineGap) := hough_params (np_std gray) in
         HoughLinesP gray threshold minLineLength maxLineGap) = Returned None ->
        let result := detect_walls_fuzzy image_path in
        result !! "success"%string = Some (VBool true)
        /\ result !! "walls"%string = Some (VWalls [])
        /\ result !! "windows"%string = Some (VOpenings [])
        /\ result !! "arches"%string = Some (VOpenings [])
        /\ result !! "doors"%string
           = Some (VOpenings (cap_by_confidence 20
                                (filter_duplicate_doors (find_door_swings gray))))
        /\ result !! "totals"%string
           = Some (VTotals 0 (length (cap_by_confidence 20
                                        (filter_duplicate_doors (find_door_swings gray))))
                           0 0)).
Proof.
  assert (Hwin : detect_windows gray [] = []).
  { unfold detect_windows, find_window_rectangles, find_window_parallel_lines.
    cbn [flat_map]. rewrite flat_map_nil by (intros c; apply no_walls_no_symbols).
    reflexivity. }
  assert (Hdoors : detect_doors gray []
                   = cap_by_confidence 20 (filter_duplicate_doors (find_door_swings gray))).
  { unfold detect_doors, find_door_symbols. cbn [find_door_openings app].
    rewrite flat_map_nil by (intros c; apply no_walls_no_symbols).
    rewrite app_nil_r. reflexivity. }
  split; [exact Hwin|]. split; [reflexivity|]. split; [exact Hdoors|].
  split; [intros wall; split; reflexivity|].
  intros image_path Hread Hnone. cbv zeta.
  unfold detect_walls_fuzzy, detect_walls_fuzzy_body. rewrite Hread.
  destruct (hough_params (np_std gray)) as [[threshold minLineLength] maxLineGap].
  rewrite Hnone, Hwin, Hdoors.
  change (detect_arches gray []) with (@nil Opening).
  repeat split; simplify_map_eq; reflexivity.
Qed.

(** X16.  On the success path the result of [detect_walls_fuzzy] is
    consistent: the four entries of ["totals"] are the lengths of the
    four collections of the same result, the wall count is at most 35,
    the door count at most 20 and the arch count at most 15, the method
    tag is fixed, the image statistics are those of the decoded image,
    and there is no ["error"] entry. *)
Theorem success_totals_consistent `{OpenCV} (image_path : string)
  (result : gmap string Value) :
  detect_walls_fuzzy_body image_path = Returned result ->
  detect_walls_fuzzy image_path = result
  /\ exists (gray : Image) (walls : list Wall) (doors windows arches : list Opening),
       imread_gray image_path = Some gray
       /\ result !! "walls"%string = Some (VWalls walls)
       /\ result !! "doors"%string = Some (VOpenings doors)
       /\ result !! "windows"%string = Some (VOpenings windows)
       /\ result !! "arches"%string = Some (VOpenings arches)
       /\ result !! "totals"%string
          = Some (VTotals (length walls) (length doors) (length windows) (length arches))
       /\ (length walls <= 35)%nat
       /\ (length doors <= 20)%nat
       /\ (length arches <= 15)%nat
       /\ result !! "method"%string = Some (VStr "fuzzy_canny_complete")
       /\ result !! "image_stats"%string
          = Some (VImageStats (img_width gray) (img_height gray) (np_std gray))
       /\ result !! "error"%string = None.
Proof.
  intros Hbody. split; [unfold detect_walls_fuzzy; rewrite Hbody; reflexivity|].
  unfold detect_walls_fuzzy_body in Hbody.
  destruct (imread_gray image_path) as [gray|]; [|discriminate].
  destruct (hough_params (np_std gray)) as [[threshold minLineLength] maxLineGap].
  destruct (HoughLinesP gray threshold minLineLength maxLineGap) as [lines|];
    [|discriminate].
  injection Hbody as <-.
  set (walls := match lines with
                | Some lines => detect_walls (candidate_walls gray lines) gray
                | None => []
                end).
  exists gray, walls, (detect_doors gray walls), (detect_windows gray walls),
    (detect_arches gray walls).
  assert (Hwalls : (length walls <= 35)%nat).
  { unfold walls. destruct lines as [lines|]; [|cbn [length]; lia].
    pose proof (detect_walls_length (candidate_walls gray lines) gray) as Hlen.
    destruct (structural_walls (merged_walls (candidate_walls gray lines)))
      as [|s structural] eqn:Hs.
    - cbn in Hlen. lia.
    - pose proof (calculate_realistic_wall_count_bounds (s :: structural)
                    ltac:(discriminate)). lia. }
  split; [reflexivity|].
  repeat (split; [first [ simplify_map_eq; reflexivity | exact Hwalls
                        | apply cap_by_confidence_length ]|]).
  simplify_map_eq; reflexivity.
Qed.

Lemma success_totals_consistent_witness :
  exists result : gmap string Value,
    @detect_walls_fuzzy_body ruled_drawing "plan.png" = Returned result
    /\ @detect_walls_fuzzy ruled_drawing "plan.png" = result
    /\ result !! "error"%string = None.
Proof.
  destruct (@detect_walls_fuzzy_body ruled_drawing "plan.png") as [result|e] eqn:Hbody.
  - exists result. split; [reflexivity|].
    destruct (@success_totals_consistent ruled_drawing "plan.png" result Hbody)
      as (Hresult & gray & walls & doors & windows & arches & Hrest).
    split; [exact Hresult|]. apply Hrest.
  - exfalso. unfold detect_walls_fuzzy_body in Hbody.
    cbn [imread_gray ruled_drawing np_std HoughLinesP] in Hbody.
    destruct (hough_params 20) as [[threshold minLineLength] maxLineGap].
    discriminate.
Defined.

End EntryPoint.

(** ** Distance of a point to a wall *)

Section NearWallTheorems.

Lemma distance_below_mono (d : Distance) (t1 t2 : R) :
  t1 <= t2 -> distance_below d t1 = true -> distance_below d t2 = true.
Proof.
  intros Hle. destruct d as [x| |]; cbn [distance_below]; try discriminate.
  intros Hlt. apply Rltb_lt in Hlt. apply Rltb_lt. lra.
Qed.

Lemma existsb_impl {A : Type} (p q : A -> bool) (l : list A) :
  (forall x, p x = true -> q x = true) -> existsb p l = true -> existsb q l = true.
Proof.
  intros Himpl Hex. apply existsb_exists in Hex. destruct Hex as (x & Hin & Hp).
  apply existsb_exists. exists x. split; [exact Hin | apply Himpl; exact Hp].
Qed.

Lemma is_near_wall_tolerance_mono (point : Z * Z) (walls : list Wall) (t1 t2 : R) :
  t1 <= t2 ->
  is_near_wall_tolerance point walls t1 = true ->
  is_near_wall_tolerance point walls t2 = true.
Proof.
  intros Hle. destruct point as [px py]. unfold is_near_wall_tolerance.
  apply existsb_impl. intros wall. apply distance_below_mono. exact Hle.
Qed.

(** X17.  The point tests measure the distance to the infinite line
    through a wall, not to the wall segment: for a wall with distinct
    end points, every point [start + k * (end - start)] on that line has
    distance 0, however far beyond the end points it lies, and so
    [is_on_wall] and [is_near_wall] (for any positive tolerance) hold at
    it as soon as the wall is in the list. *)
Theorem point_on_extended_wall_is_near (wall : Wall) (k : Z) :
  wall_start wall <> wall_end wall ->
  let px := (fst (wall_start wall) + k * (fst (wall_end wall) - fst (wall_start wall)))%Z in
  let py := (snd (wall_start wall) + k * (snd (wall_end wall) - snd (wall_start wall)))%Z in
  point_to_line_distance px py wall = Finite 0
  /\ (forall (walls : list Wall) (tolerance : R),
        In wall walls -> 0 < tolerance ->
        is_near_wall_tolerance (px, py) walls tolerance = true
        /\ is_on_wall (px, py) walls = true
        /\ self_is_near_wall (px, py) walls None = true).
Proof.
  intros Hne. cbv zeta.
  set (px := (fst (wall_start wall) + k * (fst (wall_end wall) - fst (wall_start wall)))%Z).
  set (py := (snd (wall_start wall) + k * (snd (wall_end wall) - snd (wall_start wall)))%Z).
  assert (Hdist : point_to_line_distance px py wall = Finite 0).
  { destruct (point_to_line_distance_regular px py wall Hne) as [Hpos ->].
    f_equal.
    replace ((snd (wall_end wall) - snd (wall_start wall)) * px
             + (fst (wall_start wall) - fst (wall_end wall)) * py
             + (fst (wall_end wall) * snd (wall_start wall)
                - fst (wall_start wall) * snd (wall_end wall)))%Z with 0%Z
      by (unfold px, py; ring).
    cbn [Z.abs]. unfold Rdiv. apply Rmult_0_l. }
  split; [exact Hdist|].
  intros walls tolerance Hin Htol.
  assert (Hnear : forall t, 0 < t -> is_near_wall_tolerance (px, py) walls t = true).
  { intros t Ht. unfold is_near_wall_tolerance. apply existsb_exists.
    exists wall. split; [exact Hin|]. rewrite Hdist. cbn [distance_below].
    apply Rltb_true. exact Ht. }
  split; [apply Hnear; exact Htol|]. split.
  - unfold is_on_wall. apply existsb_exists.
    exists wall. split; [exact Hin|]. rewrite Hdist. cbn [distance_below].
    apply Rltb_true. lra.
  - rewrite self_is_near_wall_eq. apply Hnear. lra.
Qed.

Lemma point_on_extended_wall_is_near_witness :
  wall_start floor_wall <> wall_end floor_wall
  /\ point_to_line_distance 5000 0 floor_wall = Finite 0
  /\ is_on_wall (5000, 0)%Z [floor_wall] = true.
Proof.
  assert (Hne : wall_start floor_wall <> wall_end floor_wall) by discriminate.
  destruct (point_on_extended_wall_is_near floor_wall 50 Hne) as [Hdist Hnear].
  split; [exact Hne|]. split; [exact Hdist|].
  apply (Hnear [floor_wall] 1); [left; reflexivity | lra].
Defined.

(** X18.  [is_near_wall] is more lenient than [is_on_wall], as its
    docstring says: a point on a wall (within 10 px) is near a wall for
    the default tolerance 15, for the tolerance 20 of the window
    detector and under the first, shadowed definition.  Nearness grows
    with the tolerance and with the list of walls, a tolerance that is
    not positive lets no point pass, and a wall whose end points coincide
    never makes a point near. *)
Theorem is_near_wall_lenient (point : Z * Z) (walls : list Wall) :
  (is_on_wall point walls = true ->
     self_is_near_wall point walls None = true
     /\ self_is_near_wall point walls (Some 20) = true
     /\ is_near_wall_fixed point walls = true)
  /\ (forall t1 t2 : R,
        t1 <= t2 ->
        is_near_wall_tolerance point walls t1 = true ->
        is_near_wall_tolerance point walls t2 = true)
  /\ (forall (more : list Wall) (t : R),
        is_near_wall_tolerance point walls t = true ->
        is_near_wall_tolerance point (more ++ walls) t = true)
  /\ (forall t : R, t <= 0 -> is_near_wall_tolerance point walls t = false)
  /\ (forall t : R,
        is_near_wall_tolerance point walls t = true ->
        exists wall, In wall walls /\ wall_start wall <> wall_end wall).
Proof.
  assert (Hon : is_on_wall point walls = is_near_wall_tolerance point walls 10)
    by (destruct point; reflexivity).
  assert (Hfixed : is_near_wall_fixed point walls = is_near_wall_tolerance point walls 20)
    by (destruct point; reflexivity).
  split; [|split; [|split; [|split]]].
  - rewrite Hon, Hfixed, !self_is_near_wall_eq. intros H10.
    split; [|split]; apply (is_near_wall_tolerance_mono point walls 10); (lra || exact H10).
  - intros t1 t2. apply is_near_wall_tolerance_mono.
  - intros more t. destruct point as [px py]. unfold is_near_wall_tolerance.
    rewrite existsb_app. intros ->. apply orb_true_r.
  - intros t Ht. destruct point as [px py]. unfold is_near_wall_tolerance.
    apply not_true_iff_false. intros Hex. apply existsb_exists in Hex.
    destruct Hex as (wall & _ & Hbelow).
    destruct (decide (wall_start wall = wall_end wall)) as [Heq|Hne].
    + rewrite (point_to_line_distance_degenerate px py wall Heq) in Hbelow. discriminate.
    + destruct (point_to_line_distance_regular px py wall Hne) as [Hpos Hdist].
      rewrite Hdist in Hbelow. cbn [distance_below] in Hbelow. apply Rltb_lt in Hbelow.
      assert (0 <= IZR (Z.abs ((snd (wall_end wall) - snd (wall_start wall)) * px
                               + (fst (wall_start wall) - fst (wall_end wall)) * py
                               + (fst (wall_end wall) * snd (wall_start wall)
                                  - fst (wall_start wall) * snd (wall_end wall))))
                   / sqrt (IZR ((snd (wall_end wall) - snd (wall_start wall))
                                * (snd (wall_end wall) - snd (wall_start wall))
                                + (fst (wall_start wall) - fst (wall_end wall))
                                  * (fst (wall_start wall) - fst (wall_end wall))))).
      { apply Rmult_le_pos; [apply IZR_le; lia|].
        apply Rlt_le, Rinv_0_lt_compat. exact Hpos. }
      lra.
  - intros t. destruct point as [px py]. unfold is_near_wall_tolerance.
    intros Hex. apply existsb_exists in Hex. destruct Hex as (wall & Hin & Hbelow).
    exists wall. split; [exact Hin|]. intros Heq.
    rewrite (point_to_line_distance_degenerate px py wall Heq) in Hbelow. discriminate.
Qed.

End NearWallTheorems.

(** ** The intensity-profile tests of the window detectors *)

Section WindowTests.

Import Sampling.

(** [int(x)] is never further from zero than [x]. *)
Lemma py_int_abs_le (x : R) : IZR (Z.abs (py_int x)) <= Rabs x.
Proof.
  destruct (py_int_spec x) as [Hpos Hneg].
  destruct (Rle_or_lt 0 x) as [Hx|Hx].
  - specialize (Hpos Hx). rewrite (Rabs_pos_eq x) by exact Hx.
    assert (Hz : (0 <= py_int x)%Z).
    { apply le_IZR. destruct (Z_le_gt_dec 0 (py_int x)) as [H0|H0]; [apply IZR_le; exact H0|].
      assert (IZR (py_int x) <= -1) by (apply IZR_le; lia). lra. }
    rewrite Z.abs_eq by exact Hz. lra.
  - specialize (Hneg Hx). rewrite (Rabs_left x) by exact Hx.
    assert (Hz : (py_int x <= 0)%Z).
    { destruct (Z_le_gt_dec (py_int x) 0) as [H0|H0]; [exact H0|].
      assert (1 <= IZR (py_int x)) by (apply IZR_le; lia). lra. }
    rewrite Z.abs_neq by exact Hz. rewrite opp_IZR. lra.
Qed.

Lemma py_int_positive (x : R) : (0 < py_int x)%Z -> IZR (py_int x) <= x.
Proof.
  intros Hz. destruct (py_int_spec x) as [Hpos Hneg].
  destruct (Rle_or_lt 0 x) as [Hx|Hx]; [apply Hpos; exact Hx|].
  specialize (Hneg Hx). assert (1 <= IZR (py_int x)) by (apply IZR_le; lia). lra.
Qed.

Lemma zrange_length (a b : Z) : length (zrange a b) = Z.to_nat (b - a).
Proof. unfold zrange. rewrite length_map, length_seq. reflexivity. Qed.

Lemma cos_perpendicular (angle : R) :
  cos (radians (angle + 90)) = - sin (radians angle).
Proof.
  unfold radians. replace ((angle + 90) * PI / 180) with (angle * PI / 180 + PI / 2) by lra.
  rewrite cos_plus, cos_PI2, sin_PI2. ring.
Qed.

Lemma sin_perpendicular (angle : R) :
  sin (radians (angle + 90)) = cos (radians angle).
Proof.
  unfold radians. replace ((angle + 90) * PI / 180) with (angle * PI / 180 + PI / 2) by lra.
  rewrite sin_plus, cos_PI2, sin_PI2. ring.
Qed.

(** The profile of [has_window_break_pattern] is cut along the axis on
    which the sampling line is shorter. *)
Lemma has_window_break_pattern_offsets (px py : Z) (wall : Wall) (gray : Image) :
  has_window_break_pattern px py wall gray = true ->
  (4 <= Z.abs (fst (perpendicular_offsets 20 wall)))%Z
  /\ (4 <= Z.abs (snd (perpendicular_offsets 20 wall)))%Z.
Proof.
  unfold has_window_break_pattern.
  destruct (perpendicular_offsets 20 wall) as [dx dy]. cbn [fst snd].
  set (h := img_height gray). set (w := img_width gray).
  set (x_start := Z.max 0 (Z.min (w - 1) (px - dx))).
  set (x_end := Z.max 0 (Z.min (w - 1) (px + dx))).
  set (y_start := Z.max 0 (Z.min (h - 1) (py - dy))).
  set (y_end := Z.max 0 (Z.min (h - 1) (py + dy))).
  destruct (_ && _); [discriminate|].
  assert (Hlen : forall (profile : option (list Z)) (bound : Z),
             (forall l, profile = Some l -> (Z.of_nat (length l) <= bound)%Z) ->
             match profile with
             | None => false
             | Some profile =>
                 if (length profile <? 7)%nat then false
                 else if (10 <=? length profile)%nat
                      then detect_window_frame_pattern (map IZR profile)
                      else Rltb 20 (np_std_1d (map IZR profile))
                           && Rltb 120 (np_mean (map IZR profile))
             end = true ->
             (7 <= bound)%Z).
  { intros [l|] bound Hb; [|discriminate]. specialize (Hb l eq_refl).
    destruct (length l <? 7)%nat eqn:Hl; [discriminate|].
    apply Nat.ltb_ge in Hl. intros _. lia. }
  assert (Hcol : forall a b l, column_slice gray a b px = Some l ->
                               (Z.of_nat (length l) <= Z.max 0 (b - a))%Z).
  { intros a b l. unfold column_slice. destruct (np_index px _); [|discriminate].
    intros Heq. injection Heq as <-. rewrite length_map, zrange_length. lia. }
  assert (Hrow : forall a b l, row_slice gray py a b = Some l ->
                               (Z.of_nat (length l) <= Z.max 0 (b - a))%Z).
  { intros a b l. unfold row_slice. destruct (np_index py _); [|discriminate].
    intros Heq. injection Heq as <-. rewrite length_map, zrange_length. lia. }
  destruct (Z.abs dy <? Z.abs dx)%Z eqn:Haxis.
  - apply Z.ltb_lt in Haxis.
    destruct (y_start <? y_end)%Z; intros Htrue;
      apply (Hlen _ _ (Hcol _ _)) in Htrue; unfold y_start, y_end in Htrue; lia.
  - apply Z.ltb_ge in Haxis.
    destruct (x_start <? x_end)%Z; intros Htrue;
      apply (Hlen _ _ (Hrow _ _)) in Htrue; unfold x_start, x_end in Htrue; lia.
Qed.

Lemma offset_needs_fifth (x : R) :
  (4 <= Z.abs (py_int (20 * x)))%Z -> 1 / 5 <= Rabs x.
Proof.
  intros Hz. pose proof (py_int_abs_le (20 * x)) as Hle.
  assert (4 <= IZR (Z.abs (py_int (20 * x)))) by (apply IZR_le; exact Hz).
  rewrite Rabs_mult, (Rabs_pos_eq 20) in Hle by lra. lra.
Qed.

(** Close to zero the sine is below one fifth. *)
Lemma sin_small (x : R) : Rabs x <= 1 / 5 -> Rabs (sin x) < 1 / 5.
Proof.
  intros Hx. pose proof PI2_3_2 as Hpi.
  destruct (Rtotal_order x 0) as [Hneg|[->|Hpos]].
  - rewrite (Rabs_left x) in Hx by exact Hneg.
    assert (Hs : 0 < sin (- x) < - x).
    { split; [apply sin_gt_0; lra | apply sin_lt_x; lra]. }
    rewrite sin_neg in Hs. rewrite Rabs_left by lra. lra.
  - rewrite sin_0, Rabs_R0. lra.
  - rewrite (Rabs_pos_eq x) in Hx by lra.
    assert (Hs : 0 < sin x < x).
    { split; [apply sin_gt_0; lra | apply sin_lt_x; lra]. }
    rewrite Rabs_pos_eq by lra. lra.
Qed.

Lemma radians_small (degrees : R) : Rabs degrees <= 9 -> Rabs (radians degrees) <= 1 / 5.
Proof.
  intros Hd. unfold radians. pose proof PI_4 as H4. pose proof PI_RGT_0 as H0.
  replace (degrees * PI / 180) with (degrees * (PI / 180)) by lra.
  rewrite Rabs_mult, (Rabs_pos_eq (PI / 180)) by lra.
  pose proof (Rabs_pos degrees). nra.
Qed.

(** Within 9 degrees of an axis, the sine or the cosine of the wall
    angle is below one fifth. *)
Lemma near_axis_small (angle : R) :
  Rabs angle <= 9 \/ Rabs (angle - 180) <= 9 \/ Rabs (angle + 180) <= 9
  \/ Rabs (angle - 90) <= 9 \/ Rabs (angle + 90) <= 9 ->
  Rabs (sin (radians angle)) < 1 / 5 \/ Rabs (cos (radians angle)) < 1 / 5.
Proof.
  intros [H|[H|[H|[H|H]]]].
  - left. apply sin_small, radians_small. exact H.
  - left. replace (radians angle) with (radians (angle - 180) + PI)
      by (unfold radians; field).
    rewrite neg_sin, Rabs_Ropp. apply sin_small, radians_small. exact H.
  - left. replace (radians angle) with (- (- radians (angle + 180) + PI))
      by (unfold radians; field).
    rewrite sin_neg, neg_sin, sin_neg, Rabs_Ropp, Ropp_involutive.
    apply sin_small, radians_small. exact H.
  - right. replace (radians angle) with (radians (angle - 90 + 90))
      by (f_equal; lra).
    rewrite cos_perpendicular, Rabs_Ropp. apply sin_small, radians_small. exact H.
  - right. replace (radians angle) with (- (PI / 2 - radians (angle + 90)))
      by (unfold radians; field).
    rewrite cos_neg, cos_shift. apply sin_small, radians_small. exact H.
Qed.

Lemma axis_aligned_near_axis (angle : R) :
  angle = 0 \/ angle = 90 \/ angle = 180 \/ angle = -90 ->
  Rabs angle <= 9 \/ Rabs (angle - 180) <= 9 \/ Rabs (angle + 180) <= 9
  \/ Rabs (angle - 90) <= 9 \/ Rabs (angle + 90) <= 9.
Proof.
  intros [ -> | [ -> | [ -> | -> ] ] ].
  - left. rewrite Rabs_R0. lra.
  - right. right. right. left. replace (90 - 90) with 0 by lra. rewrite Rabs_R0. lra.
  - right. left. replace (180 - 180) with 0 by lra. rewrite Rabs_R0. lra.
  - right. right. right. right. replace (-90 + 90) with 0 by lra. rewrite Rabs_R0. lra.
Qed.

Lemma has_window_break_pattern_needs (px py : Z) (wall : Wall) (gray : Image) :
  has_window_break_pattern px py wall gray = true ->
  1 / 5 <= Rabs (sin (radians (wall_angle wall)))
  /\ 1 / 5 <= Rabs (cos (radians (wall_angle wall))).
Proof.
  intros Htrue.
  destruct (has_window_break_pattern_offsets px py wall gray Htrue) as [Hdx Hdy].
  unfold perpendicular_offsets in Hdx, Hdy. cbn [fst snd] in Hdx, Hdy.
  apply offset_needs_fifth in Hdx, Hdy.
  rewrite cos_perpendicular, Rabs_Ropp in Hdx. rewrite sin_perpendicular in Hdy.
  split; assumption.
Qed.

Lemma has_window_break_pattern_near_axis (px py : Z) (wall : Wall) (gray : Image) :
  Rabs (wall_angle wall) <= 9 \/ Rabs (wall_angle wall - 180) <= 9
  \/ Rabs (wall_angle wall + 180) <= 9
  \/ Rabs (wall_angle wall - 90) <= 9 \/ Rabs (wall_angle wall + 90) <= 9 ->
  has_window_break_pattern px py wall gray = false.
Proof.
  intros Haxis. apply not_true_iff_false. intros Htrue.
  destruct (has_window_break_pattern_needs px py wall gray Htrue) as [Hs Hc].
  destruct (near_axis_small _ Haxis); lra.
Qed.

(** X19.  [has_window_break_pattern] cuts its intensity profile along
    the axis on which the perpendicular sampling line is shorter, and
    asks for at least 7 samples.  So it can only hold for a wall that
    is oblique enough: both the sine and the cosine of the wall angle
    must be at least 1/5 in absolute value.  For a wall within 9 degrees
    of horizontal or vertical, and in particular at exactly 0, 90, 180
    or -90 degrees, it is false at every point of every image, and with
    the detector's own test [find_windows_along_wall] finds no window on
    such a wall. *)
Theorem wall_break_needs_oblique_wall (wall : Wall) (gray : Image) :
  (forall px py : Z,
     has_window_break_pattern px py wall gray = true ->
     1 / 5 <= Rabs (sin (radians (wall_angle wall)))
     /\ 1 / 5 <= Rabs (cos (radians (wall_angle wall))))
  /\ (Rabs (wall_angle wall) <= 9 \/ Rabs (wall_angle wall - 180) <= 9
      \/ Rabs (wall_angle wall + 180) <= 9
      \/ Rabs (wall_angle wall - 90) <= 9 \/ Rabs (wall_angle wall + 90) <= 9 ->
      (forall px py : Z, has_window_break_pattern px py wall gray = false)
      /\ (forall (cv : OpenCV) (circles : Swings.CircleFinder),
            @find_windows_along_wall (source_detector cv circles) wall gray = []))
  /\ (wall_angle wall = 0 \/ wall_angle wall = 90
      \/ wall_angle wall = 180 \/ wall_angle wall = -90 ->
      forall px py : Z, has_window_break_pattern px py wall gray = false).
Proof.
  split; [intros px py; apply has_window_break_pattern_needs|]. split.
  - intros Haxis.
    assert (Hfalse : forall px py : Z, has_window_break_pattern px py wall gray = false)
      by (intros px py; apply has_window_break_pattern_near_axis; exact Haxis).
    split; [exact Hfalse|].
    intros cv circles. apply find_windows_along_wall_none. exact Hfalse.
  - intros Haligned px py. apply has_window_break_pattern_near_axis.
    apply axis_aligned_near_axis. exact Haligned.
Qed.

Lemma means_length (gray : Image) (y0 y1 x0 x1 : Z) :
  length (row_means gray y0 y1 x0 x1) = Z.to_nat (y1 - y0)
  /\ length (column_means gray y0 y1 x0 x1) = Z.to_nat (x1 - x0).
Proof. unfold row_means, column_means. rewrite !length_map, !zrange_length. tauto. Qed.

Lemma has_window_pattern_at_point_offsets (px py : Z) (wall : Wall) (gray : Image) :
  has_window_pattern_at_point px py wall gray = true ->
  (3 <= fst (perpendicular_offsets 15 wall))%Z
  /\ (3 <= snd (perpendicular_offsets 15 wall))%Z.
Proof.
  unfold has_window_pattern_at_point.
  destruct (perpendicular_offsets 15 wall) as [dx dy]. cbn [fst snd].
  destruct (_ && _) eqn:Hbox; [|discriminate].
  apply andb_true_iff in Hbox. destruct Hbox as [Hx Hy].
  apply Z.ltb_lt in Hx, Hy.
  destruct (means_length gray (Z.max 0 (py - dy)) (Z.min (img_height gray - 1) (py + dy))
              (Z.max 0 (px - dx)) (Z.min (img_width gray - 1) (px + dx))) as [Hrows Hcols].
  destruct (Z.abs dy <? Z.abs dx)%Z eqn:Haxis.
  - apply Z.ltb_lt in Haxis. rewrite Hrows.
    destruct (5 <=? _)%nat eqn:Hlen; [|discriminate].
    apply Nat.leb_le in Hlen. intros _. lia.
  - apply Z.ltb_ge in Haxis. rewrite Hcols.
    destruct (5 <=? _)%nat eqn:Hlen; [|discriminate].
    apply Nat.leb_le in Hlen. intros _. lia.
Qed.

Lemma has_window_pattern_at_point_needs (px py : Z) (wall : Wall) (gray : Image) :
  has_window_pattern_at_point px py wall gray = true ->
  sin (radians (wall_angle wall)) <= - (1 / 5)
  /\ 1 / 5 <= cos (radians (wall_angle wall)).
Proof.
  intros Htrue.
  destruct (has_window_pattern_at_point_offsets px py wall gray Htrue) as [Hdx Hdy].
  unfold perpendicular_offsets in Hdx, Hdy. cbn [fst snd] in Hdx, Hdy.
  assert (Hcos := py_int_positive _ (Z.lt_le_trans 0 3 _ eq_refl Hdx)).
  assert (Hsin := py_int_positive _ (Z.lt_le_trans 0 3 _ eq_refl Hdy)).
  apply IZR_le in Hdx, Hdy.
  rewrite cos_perpendicular in Hcos, Hdx. rewrite sin_perpendicular in Hsin, Hdy.
  split; lra.
Qed.

Lemma has_window_pattern_at_point_quadrant (px py : Z) (wall : Wall) (gray : Image) :
  0 <= wall_angle wall <= 180 \/ -180 <= wall_angle wall <= -90 ->
  has_window_pattern_at_point px py wall gray = false.
Proof.
  intros Hangle. apply not_true_iff_false. intros Htrue.
  destruct (has_window_pattern_at_point_needs px py wall gray Htrue) as [Hs Hc].
  pose proof PI_RGT_0 as Hpi.
  destruct Hangle as [Hup|Hback].
  - assert (0 <= sin (radians (wall_angle wall))); [|lra].
    apply sin_ge_0; unfold radians; nra.
  - assert (cos (radians (wall_angle wall)) <= 0); [|lra].
    rewrite <- cos_neg. apply cos_le_0; unfold radians; nra.
Qed.

(** X20.  [has_window_pattern_at_point] needs a sampling box with
    [x_start < x_end] and [y_start < y_end] and a profile of at least 5
    means, so both offsets of the perpendicular must be at least 3: the
    sine of the wall angle must be at most -1/5 and its cosine at least
    1/5.  For angles in [-180, 180] this leaves only walls whose angle
    lies strictly between -90 and 0 degrees.  On every other wall (all
    walls with an angle in [0, 180] or in [-180, -90], among them every
    wall at exactly 0, 90, 180 or -90 degrees) the test is false at
    every point of every image, and with the detector's own test
    [detect_window_patterns_on_wall] reports nothing. *)
Theorem parallel_line_window_needs_quadrant (wall : Wall) (gray : Image) :
  (forall px py : Z,
     has_window_pattern_at_point px py wall gray = true ->
     sin (radians (wall_angle wall)) <= - (1 / 5)
     /\ 1 / 5 <= cos (radians (wall_angle wall))
     /\ (-180 <= wall_angle wall <= 180 -> -90 < wall_angle wall < 0))
  /\ (0 <= wall_angle wall <= 180 \/ -180 <= wall_angle wall <= -90 ->
      (forall px py : Z, has_window_pattern_at_point px py wall gray = false)
      /\ (forall (cv : OpenCV) (circles : Swings.CircleFinder),
            @detect_window_patterns_on_wall (source_detector cv circles) wall gray = [])).
Proof.
  split.
  - intros px py Htrue.
    destruct (has_window_pattern_at_point_needs px py wall gray Htrue) as [Hs Hc].
    split; [exact Hs|]. split; [exact Hc|]. intros Hrange.
    destruct (Rle_or_lt 0 (wall_angle wall)) as [Hup|Hdown].
    + rewrite has_window_pattern_at_point_quadrant in Htrue by (left; lra). discriminate.
    + destruct (Rle_or_lt (wall_angle wall) (-90)) as [Hback|Hfront]; [|lra].
      rewrite has_window_pattern_at_point_quadrant in Htrue by (right; lra). discriminate.
  - intros Hangle.
    assert (Hfalse : forall px py : Z, has_window_pattern_at_point px py wall gray = false)
      by (intros px py; apply has_window_pattern_at_point_quadrant; exact Hangle).
    split; [exact Hfalse|].
    intros cv circles. apply detect_window_patterns_on_wall_none. exact Hfalse.
Qed.

Lemma flat_map_nil_Forall {A B : Type} (f : A -> list B) (l : list A) :
  Forall (fun a => f a = []) l -> flat_map f l = [].
Proof.
  induction 1 as [|a l Ha _ IH]; [reflexivity|].
  cbn [flat_map]. rewrite Ha, IH. reflexivity.
Qed.

(** X21.  With the detector's own pixel tests, walls that run exactly
    along an axis (angle 0, 90, 180 or -90 degrees) never carry a
    wall-break or parallel-line window: on a plan whose walls are all
    axis-aligned, the windows of [detect_windows] are the deduplicated
    dark rectangles of [find_window_rectangles] that lie within 20 px of
    the line through a wall, each with confidence 0.8. *)
Theorem axis_aligned_walls_only_rectangles (cv : OpenCV) (circles : Swings.CircleFinder)
  (gray : Image) (walls : list Wall) :
  Forall (fun wall => wall_angle wall = 0 \/ wall_angle wall = 90
                      \/ wall_angle wall = 180 \/ wall_angle wall = -90) walls ->
  @detect_windows (source_detector cv circles) gray walls
  = filter_duplicate_windows
      (flat_map (window_rectangle_of_contour walls) (@otsu_inv_contours cv gray))
  /\ Forall (fun w => op_type w = ty_dark_rectangle /\ op_confidence w = 0.8)
            (@detect_windows (source_detector cv circles) gray walls).
Proof.
  intros Haligned.
  assert (Hwindows : @detect_windows (source_detector cv circles) gray walls
                     = filter_duplicate_windows
                         (flat_map (window_rectangle_of_contour walls)
                                   (@otsu_inv_contours cv gray))).
  { unfold detect_windows, find_window_rectangles, find_window_parallel_lines.
    cbn [otsu_inv_contours source_detector].
    assert (Hbreak : flat_map (fun wall => @find_windows_along_wall
                                             (source_detector cv circles) wall gray) walls
                     = []).
    { apply flat_map_nil_Forall. eapply List.Forall_impl; [|exact Haligned].
      intros wall Hwall. apply find_windows_along_wall_none. intros px py.
      apply has_window_break_pattern_near_axis, axis_aligned_near_axis. exact Hwall. }
    assert (Hlines : flat_map (fun wall => @detect_window_patterns_on_wall
                                             (source_detector cv circles) wall gray) walls
                     = []).
    { apply flat_map_nil_Forall. eapply List.Forall_impl; [|exact Haligned].
      intros wall Hwall. apply detect_window_patterns_on_wall_none. intros px py.
      apply has_window_pattern_at_point_quadrant.
      destruct Hwall as [ -> | [ -> | [ -> | -> ] ] ]; first [left; lra | right; lra]. }
    rewrite Hbreak, Hlines, !app_nil_r. reflexivity. }
  split; [exact Hwindows|]. rewrite Hwindows.
  unfold filter_duplicate_windows. apply filter_duplicate_doors_Forall.
  apply flat_map_Forall. intros c _. apply window_rectangle_shape.
Qed.

Lemma axis_aligned_walls_only_rectangles_witness :
  Forall (fun wall => wall_angle wall = 0 \/ wall_angle wall = 90
                      \/ wall_angle wall = 180 \/ wall_angle wall = -90) [single_wall]
  /\ @detect_windows
       (source_detector ruled_drawing
          {| Swings.HoughCircles := fun _ => Returned None;
             Swings.canny_curves := fun _ => [] |})
       ruled_page [single_wall]
     = [].
Proof.
  assert (Haligned : Forall (fun wall => wall_angle wall = 0 \/ wall_angle wall = 90
                                         \/ wall_angle wall = 180 \/ wall_angle wall = -90)
                            [single_wall]).
  { apply List.Forall_cons; [left; reflexivity | apply List.Forall_nil]. }
  split; [exact Haligned|].
  destruct (axis_aligned_walls_only_rectangles ruled_drawing
              {| Swings.HoughCircles := fun _ => Returned None;
                 Swings.canny_curves := fun _ => [] |}
              ruled_page [single_wall] Haligned) as [Hwindows _].
  rewrite Hwindows. reflexivity.
Defined.

End WindowTests.

(** ** Door swings *)

Section SwingTheorems.

Import Swings.

Lemma count_if_le {A : Type} (p : A -> bool) (l : list A) :
  (count_if p l <= length l)%nat.
Proof. unfold count_if. apply filter_length_le. Qed.

Lemma count_if_all {A : Type} (p : A -> bool) (l : list A) :
  (forall x, In x l -> p x = true) -> count_if p l = length l.
Proof.
  unfold count_if. induction l as [|x l IH]; intros Hall; [reflexivity|].
  cbn [List.filter]. rewrite (Hall x (or_introl eq_refl)). cbn [length].
  rewrite IH; [reflexivity|]. intros y Hy. apply Hall. right. exact Hy.
Qed.

Lemma count_if_none {A : Type} (p : A -> bool) (l : list A) :
  (forall x, In x l -> p x = false) -> count_if p l = 0%nat.
Proof.
  unfold count_if. induction l as [|x l IH]; intros Hall; [reflexivity|].
  cbn [List.filter]. rewrite (Hall x (or_introl eq_refl)).
  apply IH. intros y Hy. apply Hall. right. exact Hy.
Qed.

Lemma arc_fraction_iff (n : nat) :
  Rltb 0.2 (INR n / INR 12) && Rltb (INR n / INR 12) 0.6 = true <-> (3 <= n <= 7)%nat.
Proof.
  replace (INR 12) with 12 by (cbn [INR]; lra).
  rewrite andb_true_iff, !Rltb_lt. split.
  - intros [Hlo Hhi]. split.
    + destruct (le_lt_dec 3 n) as [H3|H3]; [exact H3|].
      assert (INR n <= INR 2) by (apply le_INR; lia). cbn [INR] in *. lra.
    + destruct (le_lt_dec n 7) as [H7|H7]; [exact H7|].
      assert (INR 8 <= INR n) by (apply le_INR; lia). cbn [INR] in *. lra.
  - intros [H3 H7].
    assert (INR 3 <= INR n) by (apply le_INR; lia).
    assert (INR n <= INR 7) by (apply le_INR; lia). cbn [INR] in *. split; lra.
Qed.

(** X22.  [is_door_swing_arc] counts how many of 12 samples on the
    circle are dark, and accepts the circle exactly when 3 to 7 of them
    are (the test is [0.2 < n / 12 < 0.6]).  A circle drawn in full, with
    all 12 samples dark, is rejected, and so is a circle with no dark
    sample. *)
Theorem is_door_swing_arc_counts (gray : Image) (x y r : Z) :
  let arc_points := count_if (dark_sample gray x y r 12) (seq 0 12) in
  (arc_points <= 12)%nat
  /\ (is_door_swing_arc gray x y r = true <-> (3 <= arc_points <= 7)%nat)
  /\ ((forall i, (i < 12)%nat -> dark_sample gray x y r 12 i = true) ->
      is_door_swing_arc gray x y r = false)
  /\ ((forall i, (i < 12)%nat -> dark_sample gray x y r 12 i = false) ->
      is_door_swing_arc gray x y r = false).
Proof.
  cbv zeta.
  assert (Hiff : is_door_swing_arc gray x y r = true
                 <-> (3 <= count_if (dark_sample gray x y r 12) (seq 0 12) <= 7)%nat)
    by apply arc_fraction_iff.
  split; [|split; [exact Hiff|split]].
  - pose proof (count_if_le (dark_sample gray x y r 12) (seq 0 12)) as Hle.
    rewrite length_seq in Hle. exact Hle.
  - intros Hall. apply not_true_iff_false. rewrite Hiff.
    rewrite count_if_all, length_seq; [lia|].
    intros i Hi. apply in_seq in Hi. apply Hall. lia.
  - intros Hnone. apply not_true_iff_false. rewrite Hiff.
    rewrite count_if_none; [lia|].
    intros i Hi. apply in_seq in Hi. apply Hnone. lia.
Qed.

Lemma sample_angle_lt (i k : nat) :
  Rltb (2 * PI * INR i / INR 32) (INR k * (PI / 2) / 2 / 2 / 2 * 2 * 2 * 2) = (i <? 8 * k)%nat.
Proof.
  pose proof PI_RGT_0 as Hpi.
  replace (INR 32) with 32 by (cbn [INR]; lra).
  destruct (i <? 8 * k)%nat eqn:Hlt.
  - apply Nat.ltb_lt in Hlt. apply Rltb_true.
    assert (Hle : INR (S i) <= INR (8 * k)) by (apply le_INR; lia).
    rewrite S_INR, mult_INR in Hle. replace (INR 8) with 8 in Hle by (cbn [INR]; lra).
    pose proof (pos_INR i). nra.
  - apply Nat.ltb_ge in Hlt. apply Rltb_false.
    assert (Hle : INR (8 * k) <= INR i) by (apply le_INR; lia).
    rewrite mult_INR in Hle. replace (INR 8) with 8 in Hle by (cbn [INR]; lra).
    pose proof (pos_INR k). nra.
Qed.

Lemma sample_quadrant (i : nat) (q0 q1 q2 q3 : nat) :
  count_quadrant (2 * PI * INR i / INR 32) (q0, q1, q2, q3)
  = if (i <? 8)%nat then (S q0, q1, q2, q3)
    else if (i <? 16)%nat then (q0, S q1, q2, q3)
    else if (i <? 24)%nat then (q0, q1, S q2, q3)
    else (q0, q1, q2, S q3).
Proof.
  unfold count_quadrant.
  pose proof (sample_angle_lt i 1) as H1. pose proof (sample_angle_lt i 2) as H2.
  pose proof (sample_angle_lt i 3) as H3.
  replace (INR 1 * (PI / 2) / 2 / 2 / 2 * 2 * 2 * 2) with (PI / 2) in H1
    by (cbn [INR]; field).
  replace (INR 2 * (PI / 2) / 2 / 2 / 2 * 2 * 2 * 2) with PI in H2 by (cbn [INR]; field).
  replace (INR 3 * (PI / 2) / 2 / 2 / 2 * 2 * 2 * 2) with (3 * PI / 2) in H3
    by (cbn [INR]; field).
  rewrite H1, H2, H3. reflexivity.
Qed.

Lemma index_of_max_lt (counts : nat * nat * nat * nat) : (index_of_max counts < 4)%nat.
Proof.
  destruct counts as [[[q0 q1] q2] q3]. unfold index_of_max.
  repeat (destruct (_ =? _)%nat); lia.
Qed.

(** X23.  [determine_swing_direction] returns ['right'] or ['left'] and
    nothing else.  It returns ['right'] when none of its 32 samples is
    dark, since the first of equal counters wins.  The quadrant a dark
    sample is counted in depends only on its index: samples 0 to 7 count
    for the first quadrant, 8 to 15 for the second, 16 to 23 for the
    third and 24 to 31 for the fourth. *)
Theorem determine_swing_direction_values (gray : Image) (x y r : Z) :
  (determine_swing_direction gray x y r = "right"%string
   \/ determine_swing_direction gray x y r = "left"%string)
  /\ ((forall i, (i < 32)%nat -> dark_sample gray x y r 32 i = false) ->
      determine_swing_direction gray x y r = "right"%string)
  /\ (forall (i q0 q1 q2 q3 : nat),
        count_quadrant (2 * PI * INR i / INR 32) (q0, q1, q2, q3)
        = if (i <? 8)%nat then (S q0, q1, q2, q3)
          else if (i <? 16)%nat then (q0, S q1, q2, q3)
          else if (i <? 24)%nat then (q0, q1, S q2, q3)
          else (q0, q1, q2, S q3)).
Proof.
  split; [|split; [|exact sample_quadrant]].
  - unfold determine_swing_direction.
    pose proof (index_of_max_lt (quadrant_counts gray x y r)) as Hlt.
    destruct (index_of_max (quadrant_counts gray x y r)) as [|[|[|[|n]]]];
      cbn [nth]; try lia; tauto.
  - intros Hnone. unfold determine_swing_direction.
    assert (Hcounts : quadrant_counts gray x y r = (0, 0, 0, 0)%nat).
    { unfold quadrant_counts.
      assert (Hfold : forall (samples : list nat) counts,
                 (forall i, In i samples -> (i < 32)%nat) ->
                 fold_left
                   (fun counts i =>
                      if dark_sample gray x y r 32 i
                      then count_quadrant (2 * PI * INR i / INR 32) counts
                      else counts) samples counts = counts).
      { induction samples as [|i samples IH]; intros counts Hrange; [reflexivity|].
        cbn [fold_left]. rewrite Hnone by (apply Hrange; left; reflexivity).
        apply IH. intros j Hj. apply Hrange. right. exact Hj. }
      apply Hfold. intros i Hi. apply in_seq in Hi. lia. }
    rewrite Hcounts. reflexivity.
Qed.

Lemma swing_curve_of_contour_shape (contour : Curve) :
  Forall swing_of_curve (swing_curve_of_contour contour).
Proof.
  unfold swing_curve_of_contour.
  destruct (_ && _); [|constructor].
  destruct (5 <=? _)%nat eqn:Hlen; [|constructor]. apply Nat.leb_le in Hlen.
  destruct (curve_enclosing_circle contour) as [[[x y] radius]|]; [|constructor].
  destruct (Rltb 25 radius && Rltb radius 85 && _) eqn:Htest; [|constructor].
  apply andb_true_iff in Htest. destruct Htest as [Hrange _].
  apply andb_true_iff in Hrange. destruct Hrange as [Hlo Hhi].
  apply Rltb_lt in Hlo, Hhi.
  constructor; [|constructor].
  exists (py_int x), (py_int y), (py_int radius),
    (estimate_swing_direction_from_contour (curve_points contour)).
  split; [|split; [|reflexivity]].
  - destruct (py_int_spec radius) as [Hpos _]. specialize (Hpos ltac:(lra)).
    split.
    + apply Z.lt_succ_r. apply lt_IZR. rewrite succ_IZR.
      change (Z.succ 24) with 25%Z in *. lra.
    + apply Z.lt_succ_r. apply lt_IZR. change (Z.succ 84) with 85%Z. lra.
  - unfold estimate_swing_direction_from_contour.
    rewrite (proj2 (Nat.ltb_ge _ _)) by lia.
    destruct (curve_points contour) as [|start_point rest]; [cbn [length] in Hlen; lia|].
    destruct (_ <? _)%Z; [left | right]; reflexivity.
Qed.

Lemma swing_of_circle_shape (gray : Image) (circle : Z * Z * Z) :
  Forall (swing_of_arc gray) (swing_of_circle gray circle).
Proof.
  destruct circle as [[x y] r]. unfold swing_of_circle.
  destruct (is_door_swing_arc gray x y r) eqn:Harc; constructor; [|constructor].
  exists x, y, r, (determine_swing_direction gray x y r).
  split; [exact Harc|]. split; [|reflexivity].
  unfold determine_swing_direction.
  pose proof (index_of_max_lt (quadrant_counts gray x y r)) as Hlt.
  destruct (index_of_max (quadrant_counts gray x y r)) as [|[|[|[|n]]]];
    cbn [nth]; try lia; tauto.
Qed.

Lemma find_door_swings_shape `{CircleFinder} (gray : Image) :
  Forall (fun door => swing_of_arc gray door \/ swing_of_curve door)
         (find_door_swings gray).
Proof.
  unfold find_door_swings, find_door_swing_curves. apply Forall_app. split.
  - destruct (HoughCircles gray) as [[circles|]|]; try constructor.
    apply flat_map_Forall. intros circle _.
    eapply List.Forall_impl; [|apply swing_of_circle_shape].
    intros door Hdoor. left. exact Hdoor.
  - apply flat_map_Forall. intros contour _.
    eapply List.Forall_impl; [|apply swing_curve_of_contour_shape].
    intros door Hdoor. right. exact Hdoor.
Qed.

(** X24.  Every swing that [find_door_swings] reports is of one of two
    kinds.  A swing from a Hough circle has confidence 0.8, the centre
    and radius of a circle that [is_door_swing_arc] accepts, and the
    direction ['right'] or ['left'].  A swing fitted to a contour has
    confidence 0.7, an integer radius from 25 to 84 and the direction
    ['clockwise'] or ['counterclockwise']: the direction ['unknown'] is
    never reported, because the contour has at least 5 points.  When
    [cv2.HoughCircles] raises or finds nothing, only contour swings are
    reported. *)
Theorem find_door_swings_kinds `{CircleFinder} (gray : Image) :
  Forall (fun door => swing_of_arc gray door \/ swing_of_curve door)
         (find_door_swings gray)
  /\ Forall swing_of_curve (find_door_swing_curves gray)
  /\ Forall (fun door => op_swing door <> Some "unknown"%string
                         /\ (op_confidence door = 0.8 \/ op_confidence door = 0.7))
            (find_door_swings gray)
  /\ ((HoughCircles gray = Returned None \/ exists msg, HoughCircles gray = Raised msg) ->
      find_door_swings gray = find_door_swing_curves gray).
Proof.
  pose proof (find_door_swings_shape gray) as Hshape.
  split; [exact Hshape|]. split; [|split].
  - unfold find_door_swing_curves. apply flat_map_Forall. intros contour _.
    apply swing_curve_of_contour_shape.
  - eapply List.Forall_impl; [|exact Hshape].
    intros door [(x & y & r & dir & _ & Hdir & ->)|(x & y & r & dir & _ & Hdir & ->)];
      cbn [op_swing op_confidence].
    + split; [|left; reflexivity]. intros Heq. injection Heq as ->.
      destruct Hdir; discriminate.
    + split; [|right; reflexivity]. intros Heq. injection Heq as ->.
      destruct Hdir; discriminate.
  - intros [Hnone|(msg & Hraised)]; unfold find_door_swings.
    + rewrite Hnone. reflexivity.
    + rewrite Hraised. reflexivity.
Qed.

End SwingTheorems.

(** ** Doors *)

Section DoorTheorems.

Lemma find_door_openings_shape `{OpenCV} (walls : list Wall) (gray : Image) :
  Forall (door_opening_between walls gray) (find_door_openings walls gray).
Proof.
  induction walls as [|wall1 rest IH]; cbn [find_door_openings]; [constructor|].
  apply Forall_app. split.
  - apply flat_map_Forall. intros wall2 H2. unfold door_opening_of_pair.
    destruct (are_walls_parallel wall1 wall2) eqn:Hpar; [|constructor].
    destruct (_ && _) eqn:Hgap; [|constructor].
    destruct (looks_like_door_opening wall1 wall2 gray) eqn:Hclear; [|constructor].
    apply andb_true_iff in Hgap. destruct Hgap as [Hlo Hhi]. apply Rltb_lt in Hlo, Hhi.
    constructor; [|constructor].
    exists wall1, wall2. split; [left; reflexivity|]. split; [right; exact H2|].
    split; [exact Hpar|]. split; [lra|]. split; [exact Hclear | reflexivity].
  - eapply List.Forall_impl; [|exact IH].
    intros door (w1 & w2 & H1 & H2 & Hrest). exists w1, w2.
    split; [right; exact H1|]. split; [right; exact H2 | exact Hrest].
Qed.

Lemma door_symbol_of_contour_shape (walls : list Wall) (contour : Contour) :
  Forall (door_symbol_near walls) (door_symbol_of_contour walls contour).
Proof.
  unfold door_symbol_of_contour.
  destruct (_ && _); [|constructor].
  destruct (contour_rect contour) as [[[x y] w] h].
  destruct (Rltb 1.5 _ && _) eqn:Hratio; [|constructor].
  destruct (self_is_near_wall _ _ _) eqn:Hnear; constructor; [|constructor].
  rewrite self_is_near_wall_eq in Hnear.
  apply andb_true_iff in Hratio. destruct Hratio as [Hlo Hhi]. apply Rltb_lt in Hlo, Hhi.
  destruct (0 <? w)%Z eqn:Hw; [|lra]. apply Z.ltb_lt in Hw.
  assert (HwR : 0 < IZR w) by (apply IZR_lt; exact Hw).
  exists x, y, w, h. split; [exact Hw|]. split; [|split; [exact Hnear | reflexivity]].
  split.
  - apply (Rmult_lt_compat_r (IZR w)) in Hlo; [|exact HwR].
    unfold Rdiv in Hlo. rewrite Rmult_assoc, Rinv_l in Hlo by lra. lra.
  - apply (Rmult_lt_compat_r (IZR w)) in Hhi; [|exact HwR].
    unfold Rdiv in Hhi. rewrite Rmult_assoc, Rinv_l in Hhi by lra. lra.
Qed.

Lemma sorted_snoc (l : list Opening) (door : Opening) :
  StronglySorted (fun a b => op_confidence b <= op_confidence a) l ->
  Forall (fun e => op_confidence door <= op_confidence e) l ->
  StronglySorted (fun a b => op_confidence b <= op_confidence a) (l ++ [door]).
Proof.
  intros Hs Hall. induction Hs as [|e l Hs IH He]; cbn [app].
  - constructor; constructor.
  - apply List.Forall_cons_iff in Hall. destruct Hall as [Hde Hall].
    constructor; [apply IH; exact Hall|].
    apply Forall_app. split; [exact He|]. constructor; [exact Hde | constructor].
Qed.

(** Without a replacement the kept openings stay in descending order of
    confidence. *)
Lemma dedup_fold_sorted (doors filtered : list Opening) :
  (forall d e, In d doors -> In e filtered -> op_confidence d <= op_confidence e) ->
  ForallOrdPairs (fun earlier later => op_confidence later <= op_confidence earlier) doors ->
  StronglySorted (fun a b => op_confidence b <= op_confidence a) filtered ->
  StronglySorted (fun a b => op_confidence b <= op_confidence a)
                 (fold_left dedup_step doors filtered).
Proof.
  revert filtered. induction doors as [|door rest IH]; intros filtered Hconf Hsorted Hs;
    cbn [fold_left]; [exact Hs|].
  inversion Hsorted as [|? ? Hdoor Hrest]; subst.
  assert (Hconf' : forall d e, In d rest -> In e filtered ->
                               op_confidence d <= op_confidence e)
    by (intros d e Hd He; apply Hconf; [right; exact Hd | exact He]).
  destruct (first_within_30 door filtered) as [existing|] eqn:Hfirst.
  - pose proof (first_within_30_In _ _ _ Hfirst) as Hin.
    assert (Hstep : dedup_step filtered door = filtered).
    { unfold dedup_step. rewrite Hfirst.
      rewrite Rltb_false by (apply Hconf; [left; reflexivity | exact Hin]).
      reflexivity. }
    rewrite Hstep. apply IH; assumption.
  - assert (Hstep : dedup_step filtered door = filtered ++ [door])
      by (unfold dedup_step; rewrite Hfirst; reflexivity).
    rewrite Hstep. apply IH; [|exact Hrest|].
    + intros d e Hd He. apply in_app_or in He as [He|[<-|[]]].
      * apply Hconf'; assumption.
      * rewrite List.Forall_forall in Hdoor. apply Hdoor. exact Hd.
    + apply sorted_snoc; [exact Hs|]. apply List.Forall_forall.
      intros e He. apply Hconf; [left; reflexivity | exact He].
Qed.

Lemma filter_duplicate_doors_sorted (doors : list Opening) :
  StronglySorted (fun a b => op_confidence b <= op_confidence a) doors ->
  StronglySorted (fun a b => op_confidence b <= op_confidence a)
                 (filter_duplicate_doors doors).
Proof.
  intros Hs. unfold filter_duplicate_doors. destruct (length doors <=? 1)%nat; [exact Hs|].
  apply dedup_fold_sorted; [intros d e _ [] | apply sorted_pairs; exact Hs | constructor].
Qed.

(** X25.  With the detector's own swing detection, every door that
    [detect_doors] reports is of one of four kinds: an opening between
    two parallel walls of the list whose midpoints are more than 50 and
    less than 100 px apart, with a bright centre (confidence 0.7); a
    swing from a Hough circle (0.8); a swing fitted to a contour (0.7);
    or a door symbol, an upright rectangle 1.5 to 3 times as high as
    wide whose centre is within 15 px of the line through a wall (0.6).
    So the confidence of a door is always 0.6, 0.7 or 0.8. *)
Theorem detect_doors_kinds (cv : OpenCV) (circles : Swings.CircleFinder)
  (gray : Image) (walls : list Wall) :
  let doors := @detect_doors (source_detector cv circles) gray walls in
  Forall (fun door => @door_opening_between (source_detector cv circles) walls gray door
                      \/ swing_of_arc gray door
                      \/ swing_of_curve door
                      \/ door_symbol_near walls door) doors
  /\ Forall (fun door => op_confidence door = 0.6 \/ op_confidence door = 0.7
                         \/ op_confidence door = 0.8) doors.
Proof.
  cbv zeta.
  assert (Hkinds : Forall (fun door =>
                     @door_opening_between (source_detector cv circles) walls gray door
                     \/ swing_of_arc gray door
                     \/ swing_of_curve door
                     \/ door_symbol_near walls door)
                     (@detect_doors (source_detector cv circles) gray walls)).
  { unfold detect_doors. apply cap_by_confidence_Forall, filter_duplicate_doors_Forall.
    apply Forall_app. split; [|apply Forall_app; split].
    - eapply List.Forall_impl; [|apply find_door_openings_shape].
      intros door Hdoor. left. exact Hdoor.
    - cbn [find_door_swings source_detector].
      eapply List.Forall_impl; [|apply find_door_swings_shape].
      intros door [Hdoor|Hdoor]; [right; left | right; right; left]; exact Hdoor.
    - unfold find_door_symbols. apply flat_map_Forall. intros contour _.
      eapply List.Forall_impl; [|apply door_symbol_of_contour_shape].
      intros door Hdoor. right. right. right. exact Hdoor. }
  split; [exact Hkinds|].
  eapply List.Forall_impl; [|exact Hkinds].
  intros door [(w1 & w2 & _ & _ & _ & _ & _ & ->)
              |[(x & y & r & dir & _ & _ & ->)
               |[(x & y & r & dir & _ & _ & ->)
                |(x & y & w & h & _ & _ & _ & ->)]]]; cbn [op_confidence]; tauto.
Qed.

(** The detections on the corridor plan, detector by detector. *)
Lemma corridor_gap : wall_distance (corridor_wall 120) (corridor_wall 190) = 70.
Proof.
  unfold wall_distance, corridor_wall. cbn [wall_start wall_end fst snd].
  replace ((IZR (0 + 400) / 2 - IZR (0 + 400) / 2) ^ 2
           + (IZR (190 + 190) / 2 - IZR (120 + 120) / 2) ^ 2)
    with (70 * 70) by (rewrite !plus_IZR; lra).
  apply sqrt_square. lra.
Qed.

Lemma corridor_center :
  get_opening_center (corridor_wall 120) (corridor_wall 190) = (IZR 200, IZR 155).
Proof.
  unfold get_opening_center, corridor_wall. cbn [wall_start wall_end fst snd].
  f_equal; rewrite !plus_IZR; lra.
Qed.

Lemma corridor_openings :
  @find_door_openings (source_detector door_plan door_curves) corridor page
  = [corridor_opening].
Proof.
  unfold corridor. cbn [find_door_openings flat_map app].
  unfold door_opening_of_pair.
  assert (Hpar : are_walls_parallel (corridor_wall 120) (corridor_wall 190) = true).
  { unfold are_walls_parallel, corridor_wall. cbn [wall_angle].
    replace (0 - 0) with 0 by lra. rewrite Rabs_R0.
    rewrite (Rltb_true 0 15) by lra. reflexivity. }
  assert (Hlook : @looks_like_door_opening (source_detector door_plan door_curves)
                    (corridor_wall 120) (corridor_wall 190) page = true).
  { unfold looks_like_door_opening. rewrite corridor_center. cbn [fst snd].
    rewrite !py_int_IZR. unfold page. cbn [img_width img_height].
    change ((0 <=? 200)%Z && (200 <? 800)%Z && (0 <=? 155)%Z && (155 <? 600)%Z) with true.
    cbv iota.
    change ((Z.max 0 (155 - 10) <? Z.min 600 (155 + 10))%Z
            && (Z.max 0 (200 - 10) <? Z.min 800 (200 + 10))%Z) with true.
    cbv iota. cbn [region_mean source_detector door_plan].
    apply Rltb_true. lra. }
  rewrite Hpar, Hlook, corridor_gap.
  rewrite (Rltb_true 50 70), (Rltb_true 70 100) by lra. cbn [andb].
  unfold corridor_opening. rewrite corridor_gap. reflexivity.
Qed.


Lemma quarter_arc_angles :
  map (fun point : Z * Z => arctan2 (IZR (snd point - 400)) (IZR (fst point - 500)))
      (Swings.curve_points quarter_arc)
  = [0; PI / 4; PI / 2; PI / 4; 0].
Proof.
  unfold quarter_arc. cbn [Swings.curve_points map fst snd].
  assert (Hflat : forall x : Z, (0 < x)%Z -> arctan2 (IZR 0) (IZR x) = 0).
  { intros x Hx. apply IZR_lt in Hx. unfold arctan2.
    destruct (Rlt_dec 0 (IZR x)); [|lra].
    replace (IZR 0 / IZR x) with 0 by (field; lra). apply atan_0. }
  assert (Hdiag : forall x : Z, (0 < x)%Z -> arctan2 (IZR x) (IZR x) = PI / 4).
  { intros x Hx. apply IZR_lt in Hx. unfold arctan2.
    destruct (Rlt_dec 0 (IZR x)); [|lra].
    replace (IZR x / IZR x) with 1 by (field; lra). apply atan_1. }
  assert (Hup : arctan2 (IZR 40) (IZR 0) = PI / 2).
  { unfold arctan2. destruct (Rlt_dec 0 (IZR 0)); [lra|].
    destruct (Rlt_dec (IZR 0) 0); [lra|].
    destruct (Rlt_dec 0 (IZR 40)); [reflexivity | lra]. }
  change (400 - 400)%Z with 0%Z. change (540 - 500)%Z with 40%Z.
  change (428 - 400)%Z with 28%Z. change (528 - 500)%Z with 28%Z.
  change (440 - 400)%Z with 40%Z. change (500 - 500)%Z with 0%Z.
  change (427 - 400)%Z with 27%Z. change (527 - 500)%Z with 27%Z.
  change (539 - 500)%Z with 39%Z.
  rewrite !Hflat, !Hdiag, Hup by lia. reflexivity.
Qed.

Lemma quarter_arc_swing : Swings.swing_curve_of_contour quarter_arc = [arc_swing].
Proof.
  unfold Swings.swing_curve_of_contour.
  change (Swings.curve_arc_length quarter_arc) with 100.
  rewrite (Rltb_true 60 100), (Rltb_true 100 300) by lra. cbn [andb].
  change (5 <=? length (Swings.curve_points quarter_arc))%nat with true. cbv iota.
  change (Swings.curve_enclosing_circle quarter_arc) with (Returned (500, 400, 40)).
  cbv iota beta.
  rewrite (Rltb_true 25 40), (Rltb_true 40 85) by lra. cbn [andb].
  rewrite !py_int_IZR.
  assert (Hpartial : Swings.is_partial_circle (Swings.curve_points quarter_arc)
                       (500, 400)%Z 40 = true).
  { unfold Swings.is_partial_circle.
    change (length (Swings.curve_points quarter_arc) <? 5)%nat with false. cbv iota.
    rewrite quarter_arc_angles. cbn [length Nat.ltb Nat.leb].
    pose proof PI_RGT_0 as Hpi.
    assert (Hmax : list_max_from 0 [PI / 4; PI / 2; PI / 4; 0] = PI / 2).
    { unfold list_max_from. cbn [fold_left].
      rewrite (Rltb_true 0 (PI / 4)) by lra. cbv iota.
      rewrite (Rltb_true (PI / 4) (PI / 2)) by lra. cbv iota.
      rewrite (Rltb_false (PI / 2) (PI / 4)) by lra. cbv iota.
      rewrite (Rltb_false (PI / 2) 0) by lra. reflexivity. }
    assert (Hmin : Swings.list_min_from 0 [PI / 4; PI / 2; PI / 4; 0] = 0).
    { unfold Swings.list_min_from. cbn [fold_left].
      rewrite (Rltb_false (PI / 4) 0) by lra. cbv iota.
      rewrite (Rltb_false (PI / 2) 0) by lra. cbv iota.
      rewrite (Rltb_false (PI / 4) 0) by lra. cbv iota.
      rewrite (Rltb_false 0 0) by lra. reflexivity. }
    rewrite Hmax, Hmin.
    rewrite (Rltb_true (PI / 3)), (Rltb_true (PI / 2 - 0)) by lra.
    reflexivity. }
  rewrite Hpartial. reflexivity.
Qed.

Lemma door_curves_swings :
  @Swings.find_door_swings door_curves page = [arc_swing].
Proof.
  unfold Swings.find_door_swings, Swings.find_door_swing_curves.
  cbn [Swings.HoughCircles Swings.canny_curves door_curves flat_map app].
  rewrite quarter_arc_swing. reflexivity.
Qed.

Lemma corridor_line_length : sqrt (IZR 160000) = 400.
Proof. replace (IZR 160000) with (400 * 400) by lra. apply sqrt_square. lra. Qed.

(** A point within 15 px of the upper wall of the corridor. *)
Lemma near_upper_wall (px py : Z) :
  (Z.abs (py - 120) < 15)%Z ->
  is_near_wall_tolerance (px, py) corridor 15 = true.
Proof.
  intros Hnear. unfold is_near_wall_tolerance, corridor. cbn [existsb].
  unfold point_to_line_distance, corridor_wall. cbn [wall_start wall_end].
  change ((120 - 120 =? 0)%Z && (0 - 400 =? 0)%Z) with false. cbv iota.
  change (IZR ((120 - 120) * (120 - 120) + (0 - 400) * (0 - 400))) with (IZR 160000).
  rewrite corridor_line_length. unfold divide.
  rewrite (proj2 (Reqb_neq 400 0)) by lra. cbn [distance_below].
  replace ((120 - 120) * px + (0 - 400) * py + (400 * 120 - 0 * 120))%Z
    with (400 * (120 - py))%Z by lia.
  rewrite Z.abs_mul, mult_IZR. change (Z.abs 400) with 400%Z.
  assert (Hd : IZR (Z.abs (120 - py)) < 15).
  { apply IZR_lt. lia. }
  rewrite Rltb_true by lra. reflexivity.
Qed.

Lemma corridor_symbols :
  @find_door_symbols (source_detector door_plan door_curves) page corridor
  = [symbol_door 205 134; symbol_door 310 120].
Proof.
  unfold find_door_symbols.
  cbn [otsu_contours source_detector door_plan flat_map].
  unfold door_symbol_of_contour, symbol_by_opening, symbol_apart.
  cbn [contour_area contour_rect].
  rewrite (Rltb_true 200 800), (Rltb_true 800 2000) by lra. cbn [andb].
  change (0 <? 20)%Z with true. cbv iota.
  rewrite (Rltb_true 1.5 (IZR 40 / IZR 20)), (Rltb_true (IZR 40 / IZR 20) 3.0) by lra.
  cbn [andb]. rewrite !self_is_near_wall_eq.
  change (195 + 20 / 2)%Z with 205%Z. change (114 + 40 / 2)%Z with 134%Z.
  change (300 + 20 / 2)%Z with 310%Z. change (100 + 40 / 2)%Z with 120%Z.
  rewrite !near_upper_wall by (vm_compute; reflexivity).
  reflexivity.
Qed.

Lemma corridor_doors :
  @detect_doors (source_detector door_plan door_curves) page corridor
  = [corridor_opening; arc_swing; symbol_door 310 120].
Proof.
  unfold detect_doors. rewrite corridor_openings, corridor_symbols.
  cbn [find_door_swings source_detector]. rewrite door_curves_swings.
  cbn [app]. unfold filter_duplicate_doors. cbn [length Nat.leb fold_left].
  assert (Hopening : op_position corridor_opening = (IZR 200, IZR 155))
    by exact corridor_center.
  assert (Hfirst : dedup_step [] corridor_opening = [corridor_opening]) by reflexivity.
  rewrite Hfirst.
  assert (Hsecond : dedup_step [corridor_opening] arc_swing = [corridor_opening; arc_swing]).
  { unfold dedup_step. cbn [first_within_30]. rewrite within_30_squared, Hopening.
    change (op_position arc_swing) with (IZR 500, IZR 400). cbn [fst snd].
    rewrite Rltb_false by lra. reflexivity. }
  rewrite Hsecond.
  assert (Hthird : dedup_step [corridor_opening; arc_swing] (symbol_door 205 134)
                   = [corridor_opening; arc_swing]).
  { unfold dedup_step. cbn [first_within_30].
    rewrite (within_30_squared _ corridor_opening), Hopening.
    change (op_position (symbol_door 205 134)) with (IZR 205, IZR 134). cbn [fst snd].
    rewrite (Rltb_true _ 900) by lra.
    change (op_confidence corridor_opening) with 0.7.
    change (op_confidence (symbol_door 205 134)) with 0.6.
    rewrite (Rltb_false 0.7 0.6) by lra. reflexivity. }
  rewrite Hthird.
  assert (Hfourth : dedup_step [corridor_opening; arc_swing] (symbol_door 310 120)
                    = [corridor_opening; arc_swing; symbol_door 310 120]).
  { unfold dedup_step. cbn [first_within_30].
    rewrite (within_30_squared _ corridor_opening), (within_30_squared _ arc_swing), Hopening.
    change (op_position (symbol_door 310 120)) with (IZR 310, IZR 120).
    change (op_position arc_swing) with (IZR 500, IZR 400). cbn [fst snd].
    rewrite !(Rltb_false _ 900) by lra. reflexivity. }
  rewrite Hfourth. unfold cap_by_confidence. reflexivity.
Qed.

(** X26.  The deduplication failure of [detect_doors] needs a swing from
    a Hough circle.  When [find_door_swings] reports no such swing, the
    detections arrive as door openings and contour swings (0.7), then
    door symbols (0.6): a later detection is never more confident than
    an earlier one, no kept door is ever replaced, and the cap cuts the
    tail.  Then no two reported doors are within 30 px of each other and
    a second deduplication changes nothing. *)
Theorem detect_doors_spaced_without_arcs (cv : OpenCV) (circles : Swings.CircleFinder)
  (gray : Image) (walls : list Wall) :
  Forall (fun door => op_type door <> ty_swing) (@Swings.find_door_swings circles gray) ->
  let doors := @detect_doors (source_detector cv circles) gray walls in
  spaced doors
  /\ filter_duplicate_doors doors = doors
  /\ StronglySorted (fun a b => op_confidence b <= op_confidence a) doors.
Proof.
  intros Hnoarc. cbv zeta. unfold detect_doors.
  cbn [find_door_swings source_detector].
  set (openings := @find_door_openings (source_detector cv circles) walls gray).
  set (swings := @Swings.find_door_swings circles gray) in *.
  set (symbols := @find_door_symbols (source_detector cv circles) gray walls).
  assert (Hopen : Forall (fun d => op_confidence d = 0.7) openings).
  { eapply List.Forall_impl; [|apply find_door_openings_shape].
    intros door (w1 & w2 & _ & _ & _ & _ & _ & ->). reflexivity. }
  assert (Hswing : Forall (fun d => op_confidence d = 0.7) swings).
  { apply List.Forall_forall. intros door Hin.
    pose proof (proj1 (List.Forall_forall _ _) Hnoarc door Hin) as Hty.
    pose proof (proj1 (List.Forall_forall _ _) (@find_door_swings_shape circles gray) door Hin)
      as [(x & y & r & dir & _ & _ & ->)|(x & y & r & dir & _ & _ & ->)].
    - exfalso. apply Hty. reflexivity.
    - reflexivity. }
  assert (Hsym : Forall (fun d => op_confidence d = 0.6) symbols).
  { unfold symbols, find_door_symbols. apply flat_map_Forall. intros contour _.
    eapply List.Forall_impl; [|apply door_symbol_of_contour_shape].
    intros door (x & y & w & h & _ & _ & _ & ->). reflexivity. }
  assert (Hsorted : StronglySorted (fun a b => op_confidence b <= op_confidence a)
                      (openings ++ swings ++ symbols)).
  { rewrite app_assoc. apply (two_levels_sorted op_confidence 0.7 0.6); [lra| |exact Hsym].
    apply Forall_app. split; assumption. }
  set (detections := openings ++ swings ++ symbols) in *.
  destruct (dedup_sound_without_replacement detections (sorted_pairs _ _ Hsorted))
    as [Hsp _].
  pose proof (filter_duplicate_doors_sorted detections Hsorted) as Hdesc.
  rewrite (cap_by_confidence_sorted 20 _ Hdesc).
  assert (Hsp' : spaced (firstn 20 (filter_duplicate_doors detections)))
    by (apply firstn_pairs; exact Hsp).
  split; [exact Hsp'|]. split; [apply filter_duplicate_doors_spaced_id; exact Hsp'|].
  apply firstn_sorted. exact Hdesc.
Qed.

Lemma detect_doors_spaced_without_arcs_witness :
  @Swings.find_door_swings door_curves page = [arc_swing]
  /\ Forall (fun door => op_type door <> ty_swing)
            (@Swings.find_door_swings door_curves page)
  /\ @find_door_openings (source_detector door_plan door_curves) corridor page
     ++ @find_door_swings (source_detector door_plan door_curves) page
     ++ @find_door_symbols (source_detector door_plan door_curves) page corridor
     = [corridor_opening; arc_swing; symbol_door 205 134; symbol_door 310 120]
  /\ Rltb (opening_distance (symbol_door 205 134) corridor_opening) 30 = true
  /\ @detect_doors (source_detector door_plan door_curves) page corridor
     = [corridor_opening; arc_swing; symbol_door 310 120]
  /\ (let doors := @detect_doors (source_detector door_plan door_curves) page corridor in
      spaced doors
      /\ filter_duplicate_doors doors = doors
      /\ StronglySorted (fun a b => op_confidence b <= op_confidence a) doors).
Proof.
  assert (Hnoarc : Forall (fun door => op_type door <> ty_swing)
                          (@Swings.find_door_swings door_curves page)).
  { rewrite door_curves_swings. constructor; [discriminate | constructor]. }
  split; [exact door_curves_swings|]. split; [exact Hnoarc|].
  split.
  { rewrite corridor_openings, corridor_symbols.
    cbn [find_door_swings source_detector]. rewrite door_curves_swings. reflexivity. }
  split.
  { rewrite within_30_squared.
    change (op_position (symbol_door 205 134)) with (IZR 205, IZR 134).
    change (op_position corridor_opening)
      with (get_opening_center (corridor_wall 120) (corridor_wall 190)).
    rewrite corridor_center. cbn [fst snd]. apply Rltb_true. lra. }
  split; [exact corridor_doors|].
  exact (detect_doors_spaced_without_arcs door_plan door_curves page corridor Hnoarc).
Defined.

End DoorTheorems.

(** ** The two tests for parallel walls, and the wall stage end to end *)

Section ParallelTests.

(** X27.  The detector has two tests for parallel walls, and they
    disagree.  The opening detectors ([are_walls_parallel]) accept an
    angle difference below 15 or above 165 degrees, so a wall and the
    same wall traversed the other way (0 and 180 degrees, or 90 and -90)
    are parallel.  The grouper ([are_parallel_and_close]) wraps the
    difference around at 360 degrees only: it never groups two lines
    whose angles differ by more than 15 and less than 345 degrees,
    whatever their distance.  So two strokes that the Hough transform
    returns with opposite directions are parallel for the door and arch
    detectors but are never consolidated into one wall. *)
Theorem parallel_tests_disagree (wall1 wall2 : Wall) :
  let diff := Rabs (wall_angle wall1 - wall_angle wall2) in
  (are_walls_parallel wall1 wall2 = true <-> diff < 15 \/ 165 < diff)
  /\ are_walls_parallel wall1 wall2 = are_walls_parallel wall2 wall1
  /\ (are_parallel_and_close wall1 wall2 = true -> diff <= 15 \/ 345 <= diff)
  /\ (15 < diff < 345 -> are_parallel_and_close wall1 wall2 = false)
  /\ (165 < diff < 345 ->
      are_walls_parallel wall1 wall2 = true
      /\ are_parallel_and_close wall1 wall2 = false
      /\ are_parallel_and_close wall2 wall1 = false).
Proof.
  cbv zeta.
  assert (Hfar : 15 < Rabs (wall_angle wall1 - wall_angle wall2) < 345 ->
                 are_parallel_and_close wall1 wall2 = false).
  { intros Hdiff. unfold are_parallel_and_close, wrapped_angle_diff.
    destruct (Rltb 180 _) eqn:Hwrap.
    - rewrite Rltb_true by lra. reflexivity.
    - rewrite Rltb_true by lra. reflexivity. }
  assert (Hpar : are_walls_parallel wall1 wall2 = true
                 <-> Rabs (wall_angle wall1 - wall_angle wall2) < 15
                     \/ 165 < Rabs (wall_angle wall1 - wall_angle wall2)).
  { unfold are_walls_parallel. rewrite orb_true_iff, !Rltb_lt. tauto. }
  split; [exact Hpar|]. split; [|split; [|split; [exact Hfar|]]].
  - unfold are_walls_parallel. rewrite (Rabs_minus_sym (wall_angle wall1)). reflexivity.
  - intros Hclose.
    destruct (Rle_or_lt (Rabs (wall_angle wall1 - wall_angle wall2)) 15) as [Hle|Hgt];
      [left; exact Hle|].
    destruct (Rle_or_lt 345 (Rabs (wall_angle wall1 - wall_angle wall2))) as [Hge|Hlt];
      [right; exact Hge|].
    rewrite Hfar in Hclose by lra. discriminate.
  - intros Hdiff. split; [apply Hpar; right; lra|].
    split; [apply Hfar; lra|].
    rewrite are_parallel_and_close_sym. apply Hfar. lra.
Qed.

Lemma wall_distance_sym (wall1 wall2 : Wall) :
  wall_distance wall1 wall2 = wall_distance wall2 wall1.
Proof.
  unfold wall_distance. f_equal. ring.
Qed.

Lemma get_opening_center_sym (wall1 wall2 : Wall) :
  get_opening_center wall1 wall2 = get_opening_center wall2 wall1.
Proof.
  unfold get_opening_center. cbn [fst snd]. f_equal; lra.
Qed.

(** X28.  The door-opening and wide-opening detectors look at a pair of
    walls through quantities that do not depend on the order of the
    two walls: the midpoint distance (which is the grouper's
    [line_to_line_distance]), the centre of the opening, the parallel
    test and the brightness test.  So a pair yields a door opening in
    one order exactly when it does in the other.  The two gap ranges,
    (50, 100) and (150, 250), are disjoint: no pair of walls yields both
    a door opening and a wide opening. *)
Theorem opening_of_pair_symmetric `{OpenCV} (gray : Image) (wall1 wall2 : Wall) :
  wall_distance wall1 wall2 = wall_distance wall2 wall1
  /\ wall_distance wall1 wall2 = line_to_line_distance wall1 wall2
  /\ get_opening_center wall1 wall2 = get_opening_center wall2 wall1
  /\ looks_like_door_opening wall1 wall2 gray = looks_like_door_opening wall2 wall1 gray
  /\ (door_opening_of_pair gray wall1 wall2 = []
      <-> door_opening_of_pair gray wall2 wall1 = [])
  /\ (wide_opening_of_pair wall1 wall2 = [] <-> wide_opening_of_pair wall2 wall1 = [])
  /\ (door_opening_of_pair gray wall1 wall2 = [] \/ wide_opening_of_pair wall1 wall2 = []).
Proof.
  assert (Hlook : looks_like_door_opening wall1 wall2 gray
                  = looks_like_door_opening wall2 wall1 gray).
  { unfold looks_like_door_opening. rewrite (get_opening_center_sym wall1 wall2).
    reflexivity. }
  assert (Hpar : are_walls_parallel wall1 wall2 = are_walls_parallel wall2 wall1).
  { unfold are_walls_parallel. rewrite (Rabs_minus_sym (wall_angle wall1)). reflexivity. }
  split; [apply wall_distance_sym|]. split; [reflexivity|].
  split; [apply get_opening_center_sym|]. split; [exact Hlook|].
  split; [|split].
  - unfold door_opening_of_pair.
    rewrite <- Hpar, <- Hlook, <- (wall_distance_sym wall1 wall2).
    destruct (are_walls_parallel wall1 wall2); [|tauto].
    destruct (_ && _); [|tauto].
    destruct (looks_like_door_opening wall1 wall2 gray); [|tauto].
    split; discriminate.
  - unfold wide_opening_of_pair.
    rewrite <- Hpar, <- (wall_distance_sym wall1 wall2).
    destruct (are_walls_parallel wall1 wall2); [|tauto].
    destruct (_ && _); [|tauto].
    split; discriminate.
  - unfold door_opening_of_pair, wide_opening_of_pair.
    destruct (are_walls_parallel wall1 wall2); [|left; reflexivity].
    destruct (Rltb 50 _ && Rltb _ 100) eqn:Hdoor; [|left; reflexivity].
    apply andb_true_iff in Hdoor. destruct Hdoor as [_ Hhi]. apply Rltb_lt in Hhi.
    right. rewrite (Rltb_false 150) by lra. reflexivity.
Qed.

End ParallelTests.

Section WallStageTheorems.

Lemma structural_walls_length_le (walls : list Wall) :
  (length (structural_walls walls) <= length walls)%nat.
Proof.
  unfold structural_walls. rewrite sort_desc_length.
  induction walls as [|w walls IH]; [cbn; lia|].
  cbn [flat_map]. rewrite length_app. unfold score_and_keep at 1.
  destruct (Rltb 0.3 _); cbn [length]; lia.
Qed.

Lemma apply_structural_focus_length_le (walls : list Wall) :
  (length (apply_structural_focus walls) <= length walls)%nat.
Proof.
  pose proof (structural_walls_length_le walls) as Hle.
  unfold apply_structural_focus. destruct walls as [|w walls]; [cbn; lia|].
  destruct (_ <? _)%nat; [rewrite length_firstn|]; lia.
Qed.

(** X29.  The wall stage never joins, extends or moves a segment: every
    wall that the pipeline reports has the end points of one of the
    Hough lines, and the length and angle that the candidate loop
    computed for that line in [int32] arithmetic (the square root of
    the non-negative [squared_length]; the Euclidean length when both
    coordinate differences are at most 32767 px).  That length is above
    120 px (above 200 px unless the wall's confidence is above 0.8).
    There are never more walls than Hough lines. *)
Theorem final_walls_are_hough_lines `{OpenCV} (gray : Image)
  (lines : list (Z * Z * Z * Z)) :
  let walls := detect_walls (candidate_walls gray lines) gray in
  (length walls <= length lines)%nat
  /\ Forall (fun w =>
               exists x1 y1 x2 y2,
                 In (x1, y1, x2, y2) lines
                 /\ wall_start w = (x1, y1)
                 /\ wall_end w = (x2, y2)
                 /\ (0 <= squared_length x1 y1 x2 y2)%Z
                 /\ wall_length w = sqrt (IZR (squared_length x1 y1 x2 y2))
                 /\ wall_angle w
                    = arctan2 (IZR (int32 (y2 - y1))) (IZR (int32 (x2 - x1))) * 180 / PI
                 /\ ((Z.abs (x2 - x1) <= 32767)%Z -> (Z.abs (y2 - y1) <= 32767)%Z ->
                     wall_length w = sqrt (IZR ((x2 - x1) ^ 2 + (y2 - y1) ^ 2))
                     /\ wall_angle w
                        = arctan2 (IZR (y2 - y1)) (IZR (x2 - x1)) * 180 / PI)
                 /\ is_horizontal (wall_angle w) || is_vertical (wall_angle w)
                    || is_diagonal (wall_angle w) = true
                 /\ 120 < wall_length w
                 /\ (wall_confidence w <= 0.8 -> 200 < wall_length w)) walls.
Proof.
  cbv zeta. set (candidates := candidate_walls gray lines).
  assert (Heq : detect_walls candidates gray
                = apply_intelligent_filtering
                    (apply_structural_focus (merged_walls candidates)) gray).
  { unfold detect_walls. rewrite consolidate_wall_segments_eq. reflexivity. }
  rewrite Heq.
  pose proof (apply_intelligent_filtering_incl
                (apply_structural_focus (merged_walls candidates)) gray) as [Hlen Hin].
  split.
  - pose proof (apply_structural_focus_length_le (merged_walls candidates)).
    pose proof (proj2 (merged_walls_length candidates)).
    pose proof (candidate_walls_length gray lines) as Hcand.
    fold candidates in Hcand. lia.
  - apply List.Forall_forall. intros w Hw.
    destruct (Hin w Hw) as (Hfocus & Hquality & _).
    apply apply_structural_focus_In, structural_walls_In in Hfocus
      as (w0 & Hw0 & _ & ->).
    pose proof (proj1 (List.Forall_forall _ _) (merged_walls_geometry candidates) w0 Hw0)
      as (l & Hl & Hs & He & Hlen0 & Ha & _).
    unfold candidates, candidate_walls in Hl. apply in_flat_map in Hl.
    destruct Hl as ([[[x1 y1] x2] y2] & Hline & Hcand).
    pose proof (candidate_of_line_shape gray _ l Hcand) as Hshape. cbn beta iota in Hshape.
    destruct Hshape as (Hls & Hle & Hsq & Hll & Hla & _ & Hband & _).
    exists x1, y1, x2, y2. cbn [wall_start wall_end wall_length wall_angle
                                wall_confidence set_structural_score].
    unfold is_quality_wall in Hquality.
    cbn [wall_confidence wall_length set_structural_score] in Hquality.
    split; [exact Hline|]. split; [congruence|]. split; [congruence|].
    split; [exact Hsq|].
    split; [congruence|]. split; [congruence|].
    split.
    { intros Hx Hy.
      destruct (squared_length_exact x1 y1 x2 y2 Hx Hy) as (Hexact & Hdx & Hdy).
      rewrite Hexact in Hll. rewrite Hdx, Hdy in Hla.
      split; congruence. }
    split; [rewrite Ha; exact Hband|].
    apply orb_true_iff in Hquality.
    destruct Hquality as [Hq|Hq].
    + apply andb_true_iff in Hq. destruct Hq as [Hc Hlong].
      apply Rltb_lt in Hc, Hlong. split; [exact Hlong | intros; lra].
    + apply Rltb_lt in Hq. split; [lra | intros _; exact Hq].
Qed.

End WallStageTheorems.

Section FramePattern.

Import Sampling.

Lemma extrema_from_rises (i : nat) (smoothed : list R) :
  rises_but_last smoothed -> snd (extrema_from i smoothed) = [].
Proof.
  revert i. induction smoothed as [|before rest IH]; intros i Hrise; [reflexivity|].
  destruct rest as [|here [|after rest]]; [reflexivity | reflexivity|].
  cbn [rises_but_last] in Hrise. destruct Hrise as [Hle Hrest].
  specialize (IH (S i) Hrest).
  cbn [extrema_from]. cbn [extrema_from] in IH.
  destruct (match rest with | [] => _ | _ :: _ => _ end) as [peaks valleys] eqn:Htail.
  rewrite (Rltb_false here before) by exact Hle. cbn [andb].
  destruct (Rltb before here && Rltb after here); cbn [snd] in *; exact IH.
Qed.

Lemma extrema_from_falls (i : nat) (before : R) (smoothed : list R) :
  falls smoothed -> snd (extrema_from i (before :: smoothed)) = [].
Proof.
  revert i before. induction smoothed as [|here rest IH]; intros i before Hfall;
    [reflexivity|].
  destruct rest as [|after rest]; [reflexivity|].
  cbn [falls] in Hfall. destruct Hfall as [Hle Hrest].
  specialize (IH (S i) here Hrest).
  change (extrema_from i (before :: here :: after :: rest))
    with (let '(peaks, valleys) := extrema_from (S i) (here :: after :: rest) in
          if Rltb before here && Rltb after here then (i :: peaks, valleys)
          else if Rltb here before && Rltb here after then (peaks, i :: valleys)
          else (peaks, valleys)).
  destruct (extrema_from (S i) (here :: after :: rest)) as [peaks valleys].
  rewrite (Rltb_false here after) by exact Hle. rewrite andb_false_r.
  destruct (Rltb before here && Rltb after here); cbn [snd] in *; exact IH.
Qed.

Lemma smooth_from_rises (previous : R) (profile : list R) :
  StronglySorted Rle (previous :: profile) ->
  rises_but_last (smooth_from previous profile).
Proof.
  revert previous. induction profile as [|x rest IH]; intros previous Hs; [exact I|].
  apply StronglySorted_inv in Hs. destruct Hs as [Hrest Hprev].
  specialize (IH x Hrest).
  destruct rest as [|y [|z rest]]; [exact I | exact I|].
  cbn [smooth_from] in IH |- *. cbn [rises_but_last]. split; [|exact IH].
  apply List.Forall_inv_tail, List.Forall_inv_tail, List.Forall_inv in Hprev. lra.
Qed.

Lemma smooth_from_falls (previous : R) (profile : list R) :
  StronglySorted Rge (previous :: profile) ->
  Forall (fun v => 0 <= v) (previous :: profile) ->
  falls (smooth_from previous profile).
Proof.
  revert previous. induction profile as [|x rest IH]; intros previous Hs Hpos; [exact I|].
  apply StronglySorted_inv in Hs. destruct Hs as [Hrest Hprev].
  apply List.Forall_inv_tail in Hpos as Hpos'.
  specialize (IH x Hrest Hpos').
  destruct rest as [|y rest]; [exact I|].
  cbn [smooth_from] in IH |- *. cbn [falls]. split; [|exact IH].
  apply List.Forall_inv in Hpos as Hp0.
  destruct rest as [|z rest].
  - lra.
  - apply List.Forall_inv_tail, List.Forall_inv_tail, List.Forall_inv in Hprev. lra.
Qed.

Lemma Rge_transitive : Relation_Definitions.transitive R Rge.
Proof. intros a b c Hab Hbc. lra. Qed.

Lemma Rle_transitive : Relation_Definitions.transitive R Rle.
Proof. intros a b c Hab Hbc. lra. Qed.

(** X30.  [detect_window_frame_pattern] asks for two strict local
    minima of the smoothed profile.  A profile of non-negative
    intensities that never falls, or never rises, has none: smoothing
    pads with zeros, which lowers only the two ends of the profile, and
    the ends are not examined.  So such a profile, and in particular a
    constant one, is never a window frame, however strong its contrast;
    nor is any profile of fewer than 7 samples. *)
Theorem monotone_profile_is_no_frame (intensity_profile : list R) :
  Forall (fun v => 0 <= v) intensity_profile ->
  Sorted Rle intensity_profile \/ Sorted Rge intensity_profile ->
  detect_window_frame_pattern intensity_profile = false
  /\ snd (extrema_from 1 (convolve_same intensity_profile)) = [].
Proof.
  intros Hpos Hmono.
  assert (Hvalleys : snd (extrema_from 1 (convolve_same intensity_profile)) = []).
  { unfold convolve_same. destruct Hmono as [Hup|Hdown].
    - apply extrema_from_rises, smooth_from_rises.
      apply Sorted_StronglySorted in Hup; [|exact Rle_transitive].
      constructor; [exact Hup|].
      eapply List.Forall_impl; [|exact Hpos]. intros v Hv. exact Hv.
    - apply Sorted_StronglySorted in Hdown; [|exact Rge_transitive].
      destruct intensity_profile as [|x rest]; [reflexivity|].
      cbn [smooth_from]. apply extrema_from_falls. apply smooth_from_falls.
      + exact Hdown.
      + exact Hpos. }
  split; [|exact Hvalleys].
  unfold detect_window_frame_pattern.
  destruct (length intensity_profile <? 7)%nat; [reflexivity|].
  destruct (extrema_from 1 (convolve_same intensity_profile)) as [peaks valleys].
  cbn [snd] in Hvalleys. rewrite Hvalleys. cbn [length]. rewrite andb_false_r. reflexivity.
Qed.

Lemma monotone_profile_is_no_frame_witness :
  Forall (fun v => 0 <= v) [0; 40; 80; 120; 160; 200; 240; 250]
  /\ Sorted Rle [0; 40; 80; 120; 160; 200; 240; 250]
  /\ detect_window_frame_pattern [0; 40; 80; 120; 160; 200; 240; 250] = false.
Proof.
  assert (Hpos : Forall (fun v => 0 <= v) [0; 40; 80; 120; 160; 200; 240; 250]).
  { repeat (apply List.Forall_cons; [lra|]). apply List.Forall_nil. }
  assert (Hup : Sorted Rle [0; 40; 80; 120; 160; 200; 240; 250]).
  { repeat (apply Sorted_cons; [|first [apply HdRel_cons; lra | apply HdRel_nil]]).
    apply Sorted_nil. }
  split; [exact Hpos|]. split; [exact Hup|].
  apply (monotone_profile_is_no_frame _ Hpos (or_introl Hup)).
Defined.

End FramePattern.
